(** * se3posenets-pytorch: the mixture-of-rigid-transforms layer

    A shallow embedding of
      - layers/src/cuda/ntfm3d_kernel.cu   (forward and backward kernels, launchers),
      - the NTfm3DDelta host entry points  (capacity check, gradient buffers),
      - layers/src/wt3dtfmloss_cuda.c      (fused loss entry point),
      - layers/src/computeflowandvisibility_pts_cpu.c (flow and visibility labels),
    and the properties the specification states about them.

    Conventions.  Device and host buffers are maps from element offsets to
    scalars (a [float *] and the cells reachable from it).  C [int] arithmetic
    on indices is arithmetic in [Z]; signed overflow is undefined in C, so the
    theorems bound the tensor sizes by the [int] range, and the conversions
    [long -> int] the code performs are written out with [to_int].  The kernels
    are generic in the scalar operations: they are run over an exact
    commutative ring for the algebraic statements and over IEEE binary32 for
    the statement about zero weights. *)

From Stdlib Require Import ZArith List Lia Bool Ring.
From Stdlib Require Import Floats.SpecFloat.
Import ListNotations.
Local Open Scope Z_scope.

(** ** Machine integers *)

(** Conversion of a [long] (or [ptrdiff_t]) to a 32-bit [int]: reduction modulo 2^32
    into the signed range, as gcc, clang and nvcc's host compilers do. *)
Definition to_int (x : Z) : Z := (x + 2147483648) mod 4294967296 - 2147483648.

Definition INT_MAX : Z := 2147483647.

(** [ceil(n * (1.0/d))] for a power of two [d]: the product and the ceiling are
    exact in double precision for every [int] [n]. *)
Definition ceil_div (n d : Z) : Z := (n + d - 1) / d.

(** ** Scalars *)

Class Scalar (F : Type) : Type := {
  fzero : F;
  fone : F;
  fadd : F -> F -> F;
  fsub : F -> F -> F;
  fmul : F -> F -> F;
  fopp : F -> F
}.

(** The exact-arithmetic reading of [float]: the operations form a commutative ring. *)
Definition exact_scalar (F : Type) {ops : Scalar F} : Prop :=
  ring_theory fzero fone fadd fmul fsub fopp (@eq F).

#[export] Instance Z_scalar : Scalar Z := {
  fzero := 0; fone := 1; fadd := Z.add; fsub := Z.sub; fmul := Z.mul; fopp := Z.opp
}.

(** ** Buffers and loops *)

Definition buffer (F : Type) : Type := Z -> F.

Definition store {F : Type} (m : buffer F) (i : Z) (v : F) : buffer F :=
  fun j => if Z.eqb j i then v else m j.

(** The two ways a call ends fatally, and the failed shape assertion. *)
Inductive failure : Type :=
| CapacityExceeded
| ExecutionFailure
| ShapeViolation.

Inductive outcome (A : Type) : Type :=
| Done (a : A)
| Fatal (e : failure).
Arguments Done {A} a.
Arguments Fatal {A} e.

(** [for (i = 0; i < n; i++) s = body i s] *)
Fixpoint for_range {S : Type} (n : nat) (body : Z -> S -> S) (s : S) : S :=
  match n with
  | O => s
  | Datatypes.S n' => body (Z.of_nat n') (for_range n' body s)
  end.

Definition for_upto {S : Type} (n : Z) (body : Z -> S -> S) (s : S) : S :=
  for_range (Z.to_nat n) body s.

(** [for (i = start; i < bound; i += step) s = body i s], with a fuel that the
    callers take large enough for the loop to run to its exit test. *)
Fixpoint strided_loop {S : Type} (fuel : nat) (i bound step : Z)
         (body : Z -> S -> S) (s : S) : S :=
  match fuel with
  | O => s
  | Datatypes.S fuel' =>
      if i <? bound then strided_loop fuel' (i + step) bound step body (body i s)
      else s
  end.

Definition for_strided {S : Type} (start bound step : Z) (body : Z -> S -> S) (s : S) : S :=
  strided_loop (Z.to_nat (bound - start)) start bound step body s.

(** Strides of a 4-d tensor, as the launchers pass them to the kernels. *)
Record Strides : Type := mkStrides { st0 : Z; st1 : Z; st2 : Z; st3 : Z }.

(** Strides of a contiguous tensor of sizes [n0 x n1 x n2 x n3]
    (what [THCudaTensor_newContiguous] hands out). *)
Definition contiguous (n0 n1 n2 n3 : Z) : Strides :=
  {| st0 := n1 * n2 * n3; st1 := n2 * n3; st2 := n3; st3 := 1 |}.

Definition cast_strides (s : Strides) : Strides :=
  {| st0 := to_int (st0 s); st1 := to_int (st1 s);
     st2 := to_int (st2 s); st3 := to_int (st3 s) |}.

(** Offset of element [(b, i, r, c)] under strides [s]. *)
Definition offset (s : Strides) (b i r c : Z) : Z :=
  i * st1 s + (b * st0 s + r * st2 s + c * st3 s).

(** ** 3-vectors and 3x4 transforms (the specification's vocabulary) *)

Record vec3 (F : Type) : Type := mkV3 { vx : F; vy : F; vz : F }.
Arguments mkV3 {F} _ _ _.
Arguments vx {F} _.
Arguments vy {F} _.
Arguments vz {F} _.

Section Vectors.
Context {F : Type} {ops : Scalar F}.

Definition vzero : vec3 F := mkV3 fzero fzero fzero.

Definition vadd (u v : vec3 F) : vec3 F :=
  mkV3 (fadd (vx u) (vx v)) (fadd (vy u) (vy v)) (fadd (vz u) (vz v)).

Definition vsub (u v : vec3 F) : vec3 F :=
  mkV3 (fsub (vx u) (vx v)) (fsub (vy u) (vy v)) (fsub (vz u) (vz v)).

Definition vscale (w : F) (v : vec3 F) : vec3 F :=
  mkV3 (fmul w (vx v)) (fmul w (vy v)) (fmul w (vz v)).

Definition dot (u v : vec3 F) : F :=
  fadd (fadd (fmul (vx u) (vx v)) (fmul (vy u) (vy v))) (fmul (vz u) (vz v)).

(** Component [i] of a vector, [i] in 0..2. *)
Definition vget (v : vec3 F) (i : Z) : F :=
  if i =? 0 then vx v else if i =? 1 then vy v else vz v.

(** A transform is its 12 scalars in row-major 3x4 order. *)
Definition tfm : Type := Z -> F.

(** [R p] *)
Definition rotate (T : tfm) (p : vec3 F) : vec3 F :=
  mkV3 (fadd (fadd (fmul (T 0) (vx p)) (fmul (T 1) (vy p))) (fmul (T 2) (vz p)))
       (fadd (fadd (fmul (T 4) (vx p)) (fmul (T 5) (vy p))) (fmul (T 6) (vz p)))
       (fadd (fadd (fmul (T 8) (vx p)) (fmul (T 9) (vy p))) (fmul (T 10) (vz p))).

(** [t] *)
Definition translate (T : tfm) : vec3 F := mkV3 (T 3) (T 7) (T 11).

(** [R^T g] *)
Definition rotate_back (T : tfm) (g : vec3 F) : vec3 F :=
  mkV3 (fadd (fadd (fmul (T 0) (vx g)) (fmul (T 4) (vy g))) (fmul (T 8) (vz g)))
       (fadd (fadd (fmul (T 1) (vx g)) (fmul (T 5) (vy g))) (fmul (T 9) (vz g)))
       (fadd (fadd (fmul (T 2) (vx g)) (fmul (T 6) (vy g))) (fmul (T 10) (vz g))).

(** Sum of [f 0 .. f (n-1)]. *)
Fixpoint sum_upto (n : nat) (f : Z -> F) : F :=
  match n with
  | O => fzero
  | Datatypes.S n' => fadd (sum_upto n' f) (f (Z.of_nat n'))
  end.

Definition vsum (n : nat) (f : Z -> vec3 F) : vec3 F :=
  mkV3 (sum_upto n (fun k => vx (f k)))
       (sum_upto n (fun k => vy (f k)))
       (sum_upto n (fun k => vz (f k))).

(** The point of a B x 3 x R x C field stored at cell [(b, r, c)]. *)
Definition point_at (m : buffer F) (s : Strides) (b r c : Z) : vec3 F :=
  mkV3 (m (offset s b 0 r c)) (m (offset s b 1 r c)) (m (offset s b 2 r c)).

(** The [k]-th transform of batch [b] in a B x K x 12 transform set. *)
Definition tfm_at (m : buffer F) (K b k : Z) : tfm :=
  fun i => m (b * (K * 12) + k * 12 + i).

(** The specification's forward value:
    [p + sum_k w_k * (R_k p + t_k - p)]. *)
Definition blend (p : vec3 F) (w : Z -> F) (T : Z -> tfm) (K : nat) : vec3 F :=
  vadd p (vsum K (fun k => vscale (w k) (vsub (vadd (rotate (T k) p) (translate (T k))) p))).

End Vectors.

(** ** The forward kernel (ntfm3d_kernel.cu) *)

(** Modelled from the spec: [getCoordinates] lives in cudautils.h, which is not
    among the sources.  The forward pass is a 1-D decomposition over all
    B x R x C points, batch-major, column innermost; the point index is split
    with C's truncating division and remainder. *)
Definition getCoordinates (id nrows ncols : Z) : Z * Z * Z :=
  let c := Z.rem id ncols in
  let id1 := Z.quot id ncols in
  let r := Z.rem id1 nrows in
  let b := Z.quot id1 nrows in
  (b, r, c).

Section Forward.
Context {F : Type} {ops : Scalar F}.

(** One trip of the loop over the transforms: [xt += w_k * (T[0]*x + ... + T[3] - x)], etc. *)
Definition blend_step (constTfms masks : buffer F) (ms ts : Strides)
           (b valm : Z) (p : vec3 F) (k : Z) (acc : vec3 F) : vec3 F :=
  let w_k := masks (k * st1 ms + valm) in
  let T := fun i => constTfms (b * st0 ts + k * st1 ts + i) in
  mkV3
    (fadd (vx acc) (fmul w_k (fsub (fadd (fadd (fadd (fmul (T 0) (vx p)) (fmul (T 1) (vy p)))
                                               (fmul (T 2) (vz p))) (T 3)) (vx p))))
    (fadd (vy acc) (fmul w_k (fsub (fadd (fadd (fadd (fmul (T 4) (vx p)) (fmul (T 5) (vy p)))
                                               (fmul (T 6) (vz p))) (T 7)) (vy p))))
    (fadd (vz acc) (fmul w_k (fsub (fadd (fadd (fadd (fmul (T 8) (vx p)) (fmul (T 9) (vy p)))
                                               (fmul (T 10) (vz p))) (T 11)) (vz p)))).

(** [computeTransformedPoints], as run by the thread
    [(blockIdx.x, threadIdx.x)] of a launch with [blockDim.x] threads per block. *)
Definition computeTransformedPoints (constTfms points masks : buffer F)
           (nrows ncols npoints nSE3 : Z) (ps ms ts : Strides)
           (blockIdx_x blockDim_x threadIdx_x : Z)
           (tfmpoints : buffer F) : buffer F :=
  let id := blockIdx_x * blockDim_x + threadIdx_x in
  if npoints <=? id then tfmpoints
  else
    let '(b, r, c) := getCoordinates id nrows ncols in
    let valp := b * st0 ps + r * st2 ps + c * st3 ps in
    let p := mkV3 (points (0 * st1 ps + valp))
                  (points (1 * st1 ps + valp))
                  (points (2 * st1 ps + valp)) in
    let valm := b * st0 ms + r * st2 ms + c * st3 ms in
    let t := for_upto nSE3 (blend_step constTfms masks ms ts b valm p) p in
    store (store (store tfmpoints (0 * st1 ps + valp) (vx t))
                 (1 * st1 ps + valp) (vy t))
          (2 * st1 ps + valp) (vz t).

(** A launch [<<< numBlocks, blockDim >>>] of a 1-d kernel: the threads write
    disjoint cells and read none that another writes, so they are run one after
    the other. *)
Definition launch_1d {S : Type} (numBlocks blockDim : Z)
           (kernel : Z -> Z -> Z -> S -> S) (s : S) : S :=
  for_upto numBlocks
    (fun bx s => for_upto blockDim (fun tx s => kernel bx blockDim tx s) s) s.

(** [cudaMemcpyToSymbol(constTfms, tfms, n * sizeof(float))] into
    [__constant__ float constTfms[15000]]: the copy is refused when it does
    not fit the symbol. *)
Definition cudaMemcpyToSymbol (constTfms tfms : buffer F) (n : Z) : outcome (buffer F) :=
  if (0 <=? n) && (n <=? 15000)
  then Done (fun i => if (0 <=? i) && (i <? n) then tfms i else constTfms i)
  else Fatal ExecutionFailure.

(** [NTfm3D_ForwardLauncher]: stage the transforms, launch 256-thread blocks over
    all points, synchronise.  [Fatal ExecutionFailure] is the assertion after
    [cudaGetLastError] reports an error. *)
Definition NTfm3D_ForwardLauncher (constTfms points masks tfms tfmpoints : buffer F)
           (batchSize ndim nrows ncols nSE3 nTfmParams : Z)
           (ps ms ts : Strides) : outcome (buffer F) :=
  match cudaMemcpyToSymbol constTfms tfms nTfmParams with
  | Fatal e => Fatal e
  | Done constTfms' =>
      let npoints := batchSize * nrows * ncols in
      let numBlocks := ceil_div npoints 256 in
      Done (launch_1d numBlocks 256
              (computeTransformedPoints constTfms' points masks nrows ncols npoints nSE3
                 (cast_strides ps) (cast_strides ms) (cast_strides ts))
              tfmpoints)
  end.

End Forward.

(** ** The backward kernel (ntfm3d_kernel.cu) *)

(** Modelled from the spec: [warpReduceSum] lives in cudautils.h, which is not
    among the sources.  The 32 lanes of a warp run in lock step; each of the
    five halvings (offsets 16, 8, 4, 2, 1) adds to a lane's value the value
    held by the lane [offset] above it (a lane with no such lane gets its own
    value back from the shuffle).  [warpReduceSum v lane] is the value the lane
    ends with when lane [l] starts with [v l]. *)
Definition shfl_down {F : Type} (v : Z -> F) (offset : Z) : Z -> F :=
  fun lane => if lane + offset <? 32 then v (lane + offset) else v lane.

Definition warp_halving {F : Type} {ops : Scalar F} (offset : Z) (v : Z -> F) : Z -> F :=
  fun lane => fadd (v lane) (shfl_down v offset lane).

Definition warpReduceSum {F : Type} {ops : Scalar F} (v : Z -> F) : Z -> F :=
  warp_halving 1 (warp_halving 2 (warp_halving 4 (warp_halving 8 (warp_halving 16 v)))).

(** [for (i = lo; i < hi; i++) s = body i s] *)
Definition for_loop {S : Type} (lo hi : Z) (body : Z -> S -> S) (s : S) : S :=
  for_range (Z.to_nat (hi - lo)) (fun j => body (lo + j)) s.

(** All threads of a [blockDim.x x blockDim.y] block run one barrier-delimited
    phase, in the order of their linear thread id. *)
Definition run_threads {S : Type} (blockDim_x blockDim_y : Z)
           (phase : Z -> Z -> S -> S) (s : S) : S :=
  for_upto blockDim_y
    (fun ty s => for_upto blockDim_x (fun tx s => phase tx ty s) s) s.

(** [for (unsigned int s = s0; s >= 32; s >>= 1) st = round s st]: a 32-bit
    value is halved at most 32 times before it is below 32. *)
Fixpoint halving_rounds {S : Type} (fuel : nat) (s : Z) (round : Z -> S -> S) (st : S) : S :=
  match fuel with
  | O => st
  | Datatypes.S fuel' =>
      if 32 <=? s then halving_rounds fuel' (Z.shiftr s 1) round (round s st) else st
  end.

(** A buffer with a ghost count of the stores made to each cell. *)
Record cbuffer (F : Type) : Type := mkC { cval : buffer F; cwrites : Z -> nat }.
Arguments mkC {F} _ _.
Arguments cval {F} _ _.
Arguments cwrites {F} _ _.

Definition cstore {F : Type} (m : cbuffer F) (i : Z) (v : F) : cbuffer F :=
  {| cval := store (cval m) i v;
     cwrites := fun j => if Z.eqb j i then Datatypes.S (cwrites m j) else cwrites m j |}.

(** What a block works on inside the loop over the transforms: its shared
    memory, the private accumulators [gx, gy, gz] of its threads (by linear
    thread id), and the mask gradient in global memory. *)
Record BlockState (F : Type) : Type := mkBlock {
  sharedData : buffer F;
  regs : buffer (vec3 F);
  blk_gradMasks : cbuffer F
}.
Arguments mkBlock {F} _ _ _.
Arguments sharedData {F} _ _.
Arguments regs {F} _ _.
Arguments blk_gradMasks {F} _.

(** The three gradient buffers in global memory. *)
Record Grads (F : Type) : Type := mkGrads {
  gradPoints : buffer F;
  gradMasks : cbuffer F;
  gradTfms : buffer F
}.
Arguments mkGrads {F} _ _ _.
Arguments gradPoints {F} _ _.
Arguments gradMasks {F} _.
Arguments gradTfms {F} _ _.

Section Backward.
Context {F : Type} {ops : Scalar F}.
Variables (constTfms points masks gradTfmpoints : buffer F).
Variables (nrows ncols nSE3 : Z) (ps ms ts : Strides).
Variables (blockIdx_x blockIdx_y blockIdx_z blockDim_x blockDim_y : Z).

(** [float gx = gxt, gy = gyt, gz = gzt;] for a thread within limits; the
    accumulators of the other threads keep whatever they held. *)
Definition init_step (threadIdx_x threadIdx_y : Z) (rg : buffer (vec3 F)) : buffer (vec3 F) :=
  let c := blockIdx_x * blockDim_x + threadIdx_x in
  let r := blockIdx_y * blockDim_y + threadIdx_y in
  let b := blockIdx_z in
  let withinLimits := (c <? ncols) && (r <? nrows) in
  let tid := threadIdx_x + threadIdx_y * blockDim_x in
  let valp := b * st0 ps + r * st2 ps + c * st3 ps in
  if withinLimits then
    store rg tid (mkV3 (gradTfmpoints (0 * st1 ps + valp))
                       (gradTfmpoints (1 * st1 ps + valp))
                       (gradTfmpoints (2 * st1 ps + valp)))
  else rg.

(** The body of the loop over the transforms up to the first barrier. *)
Definition grad_step (k : Z) (threadIdx_x threadIdx_y : Z) (st : BlockState F) : BlockState F :=
  let c := blockIdx_x * blockDim_x + threadIdx_x in
  let r := blockIdx_y * blockDim_y + threadIdx_y in
  let b := blockIdx_z in
  let withinLimits := (c <? ncols) && (r <? nrows) in
  let tid := threadIdx_x + threadIdx_y * blockDim_x in
  let nThreads := blockDim_x * blockDim_y in
  let nSharedGrads := nThreads * 12 in
  let valp := b * st0 ps + r * st2 ps + c * st3 ps in
  let valm := b * st0 ms + r * st2 ms + c * st3 ms in
  if withinLimits then
    let x := points (0 * st1 ps + valp) in
    let y := points (1 * st1 ps + valp) in
    let z := points (2 * st1 ps + valp) in
    let gxt := gradTfmpoints (0 * st1 ps + valp) in
    let gyt := gradTfmpoints (1 * st1 ps + valp) in
    let gzt := gradTfmpoints (2 * st1 ps + valp) in
    let w_k := masks (k * st1 ms + valm) in
    let T := fun i => constTfms (b * st0 ts + k * st1 ts + i) in
    let tx := fadd (fadd (fmul (T 0) gxt) (fmul (T 4) gyt)) (fmul (T 8) gzt) in
    let ty := fadd (fadd (fmul (T 1) gxt) (fmul (T 5) gyt)) (fmul (T 9) gzt) in
    let tz := fadd (fadd (fmul (T 2) gxt) (fmul (T 6) gyt)) (fmul (T 10) gzt) in
    let g := regs st tid in
    let sh := sharedData st in
    let sh := store sh (0 * nThreads + tid) (fmul (fmul w_k x) gxt) in
    let sh := store sh (1 * nThreads + tid) (fmul (fmul w_k y) gxt) in
    let sh := store sh (2 * nThreads + tid) (fmul (fmul w_k z) gxt) in
    let sh := store sh (4 * nThreads + tid) (fmul (fmul w_k x) gyt) in
    let sh := store sh (5 * nThreads + tid) (fmul (fmul w_k y) gyt) in
    let sh := store sh (6 * nThreads + tid) (fmul (fmul w_k z) gyt) in
    let sh := store sh (8 * nThreads + tid) (fmul (fmul w_k x) gzt) in
    let sh := store sh (9 * nThreads + tid) (fmul (fmul w_k y) gzt) in
    let sh := store sh (10 * nThreads + tid) (fmul (fmul w_k z) gzt) in
    let sh := store sh (3 * nThreads + tid) (fmul w_k gxt) in
    let sh := store sh (7 * nThreads + tid) (fmul w_k gyt) in
    let sh := store sh (11 * nThreads + tid) (fmul w_k gzt) in
    {| sharedData := sh;
       regs := store (regs st) tid
                 (mkV3 (fadd (vx g) (fmul w_k (fsub tx gxt)))
                       (fadd (vy g) (fmul w_k (fsub ty gyt)))
                       (fadd (vz g) (fmul w_k (fsub tz gzt))));
       blk_gradMasks :=
         cstore (blk_gradMasks st) (k * st1 ms + valm)
           (fadd (fadd (fadd (fadd (fadd (fmul x tx) (fmul y ty)) (fmul z tz))
                             (fmul gxt (fsub (T 3) x)))
                       (fmul gyt (fsub (T 7) y)))
                 (fmul gzt (fsub (T 11) z))) |}
  else
    {| sharedData := for_strided tid nSharedGrads nThreads
                       (fun i sh => store sh i fzero) (sharedData st);
       regs := regs st;
       blk_gradMasks := blk_gradMasks st |}.

(** One round of the tree reduction, for the thread with linear id [tid]. *)
Definition reduce_step (s : Z) (threadIdx_x threadIdx_y : Z) (sh : buffer F) : buffer F :=
  let tid := threadIdx_x + threadIdx_y * blockDim_x in
  let nThreads := blockDim_x * blockDim_y in
  let nThreads2 := Z.quot nThreads 2 in
  if tid <? s then
    for_loop 0 6
      (fun i sh => store sh (i * nThreads + tid)
                     (fadd (sh (i * nThreads + tid)) (sh (i * nThreads + tid + s)))) sh
  else if (nThreads2 <=? tid) && (tid - nThreads2 <? s) then
    for_loop 6 12
      (fun i sh => store sh (i * nThreads + tid - nThreads2)
                     (fadd (sh (i * nThreads + tid - nThreads2))
                           (sh (i * nThreads + tid - nThreads2 + s)))) sh
  else sh.

(** The first warp sums the 32 remaining partial sums of each parameter and
    its lane 0 stores the total in [sharedGradTfmResults[k*12+i]]. *)
Definition warp_phase (k : Z) (sh : buffer F) : buffer F :=
  let nThreads := blockDim_x * blockDim_y in
  let nSharedGrads := nThreads * 12 in
  for_loop 0 12
    (fun i sh =>
       let sum := warpReduceSum (fun tid => sh (i * nThreads + tid)) 0 in
       store sh (nSharedGrads + (k * 12 + i)) sum) sh.

(** One trip of the loop over the transforms, for the whole block. *)
Definition transform_pass (k : Z) (st : BlockState F) : BlockState F :=
  let nThreads := blockDim_x * blockDim_y in
  let nThreads2 := Z.quot nThreads 2 in
  let st1 := run_threads blockDim_x blockDim_y (grad_step k) st in
  let sh := halving_rounds 32 nThreads2
              (fun s => run_threads blockDim_x blockDim_y (reduce_step s))
              (sharedData st1) in
  {| sharedData := warp_phase k sh; regs := regs st1; blk_gradMasks := blk_gradMasks st1 |}.

(** [atomicAdd(gradTfms + b*ts0 + i, sharedGradTfmResults[i])] for the indices
    [i = tid, tid + nThreads, ...] below [nSE3*12]. *)
Definition atomic_step (sh : buffer F) (threadIdx_x threadIdx_y : Z) (gt : buffer F) : buffer F :=
  let b := blockIdx_z in
  let tid := threadIdx_x + threadIdx_y * blockDim_x in
  let nThreads := blockDim_x * blockDim_y in
  let nSharedGrads := nThreads * 12 in
  let nSharedGradResults := nSE3 * 12 in
  for_strided tid nSharedGradResults nThreads
    (fun i gt => store gt (b * st0 ts + i)
                   (fadd (gt (b * st0 ts + i)) (sh (nSharedGrads + i)))) gt.

(** The final stores to [gradPoints]. *)
Definition points_step (rg : buffer (vec3 F)) (threadIdx_x threadIdx_y : Z)
           (gp : buffer F) : buffer F :=
  let c := blockIdx_x * blockDim_x + threadIdx_x in
  let r := blockIdx_y * blockDim_y + threadIdx_y in
  let b := blockIdx_z in
  let withinLimits := (c <? ncols) && (r <? nrows) in
  let tid := threadIdx_x + threadIdx_y * blockDim_x in
  let valp := b * st0 ps + r * st2 ps + c * st3 ps in
  if withinLimits then
    store (store (store gp (0 * st1 ps + valp) (vx (rg tid)))
                 (1 * st1 ps + valp) (vy (rg tid)))
          (2 * st1 ps + valp) (vz (rg tid))
  else gp.

(** [computeGradients] for one block.  [sh0] and [rg0] are what the block's
    shared memory and registers hold on entry (nothing is assumed of them). *)
Definition computeGradients (sh0 : buffer F) (rg0 : buffer (vec3 F)) (g : Grads F) : Grads F :=
  let st0 := {| sharedData := sh0;
                regs := run_threads blockDim_x blockDim_y init_step rg0;
                blk_gradMasks := gradMasks g |} in
  let st := for_upto nSE3 transform_pass st0 in
  {| gradPoints := run_threads blockDim_x blockDim_y (points_step (regs st)) (gradPoints g);
     gradMasks := blk_gradMasks st;
     gradTfms := run_threads blockDim_x blockDim_y (atomic_step (sharedData st)) (gradTfms g) |}.

End Backward.

Section BackwardLaunch.
Context {F : Type} {ops : Scalar F}.

(** A launch [<<< (gx, gy, gz), (dx, dy, 1), sharedMemSize >>>]: blocks share
    nothing but the atomically updated [gradTfms], so they are run one after
    the other. *)
Definition launch_computeGradients (constTfms points masks gradTfmpoints : buffer F)
           (nrows ncols nSE3 : Z) (ps ms ts : Strides)
           (gridDim_x gridDim_y gridDim_z blockDim_x blockDim_y : Z)
           (sh0 : buffer F) (rg0 : buffer (vec3 F)) (g : Grads F) : Grads F :=
  for_upto gridDim_z
    (fun bz g =>
       for_upto gridDim_y
         (fun by_ g =>
            for_upto gridDim_x
              (fun bx g =>
                 computeGradients constTfms points masks gradTfmpoints nrows ncols nSE3
                   ps ms ts bx by_ bz blockDim_x blockDim_y sh0 rg0 g) g) g) g.

(** [NTfm3D_BackwardLauncher]: stage the transforms, check the shared-memory
    footprint of a 16 x 16 block, launch, synchronise. *)
Definition NTfm3D_BackwardLauncher (constTfms points masks tfms gradTfmpoints : buffer F)
           (batchSize ndim nrows ncols nSE3 nTfmParams : Z)
           (ps ms ts : Strides)
           (sh0 : buffer F) (rg0 : buffer (vec3 F)) (g : Grads F) : outcome (Grads F) :=
  match cudaMemcpyToSymbol constTfms tfms nTfmParams with
  | Fatal e => Fatal e
  | Done constTfms' =>
      let threads_x := 16 in
      let threads_y := 16 in
      let sharedMemSize := to_int (threads_x * threads_y * 3 * 4 * 4 + nSE3 * 3 * 4 * 4) in
      if 32000 <? sharedMemSize then Fatal CapacityExceeded
      else
        Done (launch_computeGradients constTfms' points masks gradTfmpoints nrows ncols nSE3
                (cast_strides ps) (cast_strides ms) (cast_strides ts)
                (ceil_div ncols threads_x) (ceil_div nrows threads_y) batchSize
                threads_x threads_y sh0 rg0 g)
  end.

End BackwardLaunch.

(** ** Host tensors (the part of TH/THC the entry points rely on) *)

Record Tensor (A : Type) : Type := mkTensor {
  size : list Z;
  stride : list Z;
  data : buffer A
}.
Arguments mkTensor {A} _ _ _.
Arguments size {A} _.
Arguments stride {A} _.
Arguments data {A} _ _.

(** [t->size[d]] and [t->stride[d]] *)
Definition size_at {A : Type} (t : Tensor A) (d : nat) : Z := nth d (size t) 0.
Definition stride_at {A : Type} (t : Tensor A) (d : nat) : Z := nth d (stride t) 0.

(** [THCudaTensor_nElement]: the product of the sizes, 0 for a tensor with no dimension. *)
Definition nElement {A : Type} (t : Tensor A) : Z :=
  match size t with
  | [] => 0
  | _ => fold_right Z.mul 1 (size t)
  end.

(** Strides of the contiguous layout of the given sizes. *)
Fixpoint contiguous_strides (sizes : list Z) : list Z :=
  match sizes with
  | [] => []
  | _ :: rest => fold_right Z.mul 1 rest :: contiguous_strides rest
  end.

(** [THTensor_isContiguous]: dimensions of size 1 are skipped. *)
Fixpoint contiguous_from (dims : list (Z * Z)) (z : Z) : bool :=
  match dims with
  | [] => true
  | (n, s) :: rest =>
      if n =? 1 then contiguous_from rest z
      else if s =? z then contiguous_from rest (z * n) else false
  end.

Definition isContiguous {A : Type} (t : Tensor A) : bool :=
  contiguous_from (rev (combine (size t) (stride t))) 1.

(** The offsets of the elements of a tensor with the given (size, stride) pairs. *)
Fixpoint element_offsets (dims : list (Z * Z)) (base : Z) : list Z :=
  match dims with
  | [] => [base]
  | (n, s) :: rest =>
      flat_map (fun i => element_offsets rest (base + Z.of_nat i * s)) (seq 0 (Z.to_nat n))
  end.

Definition offsets_of {A : Type} (t : Tensor A) : list Z :=
  element_offsets (combine (size t) (stride t)) 0.

(** The element offset, in [t], of the element that has linear index [o] in the
    contiguous layout. *)
Fixpoint source_offset (dims : list (Z * Z * Z)) (o : Z) : Z :=
  match dims with
  | [] => 0
  | (n, s, cs) :: rest => ((o / cs) mod n) * s + source_offset rest o
  end.

(** [THCudaTensor_newContiguous]: the tensor itself when it is contiguous, a
    contiguous copy otherwise. *)
Definition newContiguous {A : Type} (t : Tensor A) : Tensor A :=
  if isContiguous t then t
  else
    let cs := contiguous_strides (size t) in
    {| size := size t;
       stride := cs;
       data := fun o => data t (source_offset (combine (combine (size t) (stride t)) cs) o) |}.

(** [THCudaTensor_fill]: every element is set to [v]. *)
Definition fill {A : Type} (t : Tensor A) (v : A) : Tensor A :=
  {| size := size t;
     stride := stride t;
     data := fold_left (fun m o => store m o v) (offsets_of t) (data t) |}.

(** [THCudaTensor_resizeAs]: the sizes of [src], laid out contiguously. *)
Definition resizeAs {A : Type} (t src : Tensor A) : Tensor A :=
  {| size := size src; stride := contiguous_strides (size src); data := data t |}.

(** [long *stride] read at positions 0..3 by the launchers. *)
Definition strides_of {A : Type} (t : Tensor A) : Strides :=
  {| st0 := stride_at t 0; st1 := stride_at t 1; st2 := stride_at t 2; st3 := stride_at t 3 |}.

(** ** The NTfm3DDelta entry points *)

(** The constant-memory check every entry point makes:
    [if (nTfmParams > 15000) { printf(...); assert(false); }] *)
Definition check_capacity (nTfmParams : Z) : outcome unit :=
  if 15000 <? nTfmParams then Fatal CapacityExceeded else Done tt.

(** [assert(ndim == 3)] *)
Definition check_ndim (ndim : Z) : outcome unit :=
  if ndim =? 3 then Done tt else Fatal ShapeViolation.

(** What an entry point passes to its backward launcher. *)
Record BackwardCall (F : Type) : Type := mkBackwardCall {
  bc_points : Tensor F;
  bc_masks : Tensor F;
  bc_tfms : Tensor F;
  bc_tfmpoints : Tensor F;
  bc_gradPoints : Tensor F;
  bc_gradMasks : Tensor F;
  bc_gradTfms : Tensor F;
  bc_gradTfmpoints : Tensor F;
  bc_batchSize : Z;
  bc_ndim : Z;
  bc_nrows : Z;
  bc_ncols : Z;
  bc_nSE3 : Z;
  bc_nTfmParams : Z
}.
Arguments mkBackwardCall {F} _ _ _ _ _ _ _ _ _ _ _ _ _ _.
Arguments bc_points {F} _.
Arguments bc_masks {F} _.
Arguments bc_tfms {F} _.
Arguments bc_tfmpoints {F} _.
Arguments bc_gradPoints {F} _.
Arguments bc_gradMasks {F} _.
Arguments bc_gradTfms {F} _.
Arguments bc_gradTfmpoints {F} _.
Arguments bc_batchSize {F} _.
Arguments bc_ndim {F} _.
Arguments bc_nrows {F} _.
Arguments bc_ncols {F} _.
Arguments bc_nSE3 {F} _.
Arguments bc_nTfmParams {F} _.

(** What an entry point passes to its forward launcher. *)
Record ForwardCall (F : Type) : Type := mkForwardCall {
  fc_points : Tensor F;
  fc_masks : Tensor F;
  fc_tfms : Tensor F;
  fc_tfmpoints : Tensor F;
  fc_batchSize : Z;
  fc_ndim : Z;
  fc_nrows : Z;
  fc_ncols : Z;
  fc_nSE3 : Z;
  fc_nTfmParams : Z
}.
Arguments mkForwardCall {F} _ _ _ _ _ _ _ _ _ _.
Arguments fc_tfms {F} _.
Arguments fc_nTfmParams {F} _.

Section DeltaEntryPoints.
Context {F : Type} {ops : Scalar F}.

(** The launchers of cuda/ntfm3ddelta_kernel.h are not among the sources: the
    entry points are stated for any launcher. *)
Variable NTfm3DDelta_ForwardLauncher : ForwardCall F -> outcome (Tensor F).
Variable NTfm3DDelta_BackwardLauncher :
  BackwardCall F -> outcome (Tensor F * Tensor F * Tensor F).

(** [NTfm3DDelta_forward_cuda] up to the call of the launcher. *)
Definition NTfm3DDelta_forward_prepare (points masks tfms tfmpoints : Tensor F)
  : outcome (ForwardCall F) :=
  let batchSize := to_int (size_at points 0) in
  let ndim := to_int (size_at points 1) in
  let nrows := to_int (size_at points 2) in
  let ncols := to_int (size_at points 3) in
  let nSE3 := to_int (size_at masks 1) in
  match check_ndim ndim with
  | Fatal e => Fatal e
  | Done _ =>
      let nTfmParams := to_int (nElement tfms) in
      match check_capacity nTfmParams with
      | Fatal e => Fatal e
      | Done _ =>
          let points := newContiguous points in
          let masks := newContiguous masks in
          let tfms := newContiguous tfms in
          let tfmpoints := resizeAs tfmpoints points in
          Done (mkForwardCall points masks tfms tfmpoints
                  batchSize ndim nrows ncols nSE3 nTfmParams)
      end
  end.


(** [NTfm3DDelta_backward_cuda] up to the call of the launcher. *)
Definition NTfm3DDelta_backward_prepare
           (points masks tfms tfmpoints gradPoints gradMasks gradTfms gradTfmpoints : Tensor F)
  : outcome (BackwardCall F) :=
  let batchSize := size_at points 0 in
  let ndim := size_at points 1 in
  let nrows := size_at points 2 in
  let ncols := size_at points 3 in
  let nSE3 := size_at masks 1 in
  match check_ndim ndim with
  | Fatal e => Fatal e
  | Done _ =>
      let nTfmParams := to_int (nElement tfms) in
      match check_capacity nTfmParams with
      | Fatal e => Fatal e
      | Done _ =>
          let points := newContiguous points in
          let masks := newContiguous masks in
          let tfms := newContiguous tfms in
          let gradPoints := fill gradPoints fzero in
          let gradTfms := fill gradTfms fzero in
          Done (mkBackwardCall points masks tfms tfmpoints
                  gradPoints gradMasks gradTfms gradTfmpoints
                  (to_int batchSize) (to_int ndim) (to_int nrows) (to_int ncols)
                  (to_int nSE3) nTfmParams)
      end
  end.


End DeltaEntryPoints.

(** ** Further float operations of the host code *)

(** The last four fields are the [double] arithmetic of the host code: [pow]
    is the function of [math.h], so its arguments are converted to [double],
    a sum of its results is formed in [double], and the value is rounded to
    [float] when it is stored in one. *)
Class FloatOps (F : Type) {ops : Scalar F} : Type := {
  fdiv : F -> F -> F;
  flt : F -> F -> bool;              (* x < y *)
  fhalf : F;                         (* 0.5 *)
  ftwo : F;                          (* 2.0 *)
  HUGE_VALF : F;
  float_of_int : Z -> F;             (* (float) n *)
  int_of_float : F -> Z;             (* (int) x : truncation toward zero *)
  fround : F -> F;                   (* round(x) *)
  ffloor : F -> F;                   (* floor(x) *)
  double : Type;
  to_double : F -> double;           (* (double) x *)
  to_float : double -> F;            (* (float) d *)
  dadd : double -> double -> double; (* d + e *)
  dpow2 : double -> double           (* pow(d, 2) *)
}.

(** ** The fused loss entry point (wt3dtfmloss_cuda.c) *)

Section LossEntryPoint.
Context {F : Type} {ops : Scalar F} {fops : FloatOps F}.

(** The launcher of cuda/wt3dtfmloss_kernel.h (the sum of squared errors) is not
    among the sources: the entry point is stated for any launcher. *)
Variable Weighted3DTransformLoss_ForwardLauncher : ForwardCall F -> F.

(** [Weighted3DTransformLoss_forward_cuda].  The function is declared
    [int ... (...)] and ends in [return loss;] with [float loss]: the value
    handed back is the conversion of [loss] to [int]. *)
Definition Weighted3DTransformLoss_forward_cuda
           (points masks tfms targetpoints : Tensor F) (sizeAverage : Z) : outcome Z :=
  let batchSize := to_int (size_at points 0) in
  let ndim := to_int (size_at points 1) in
  let nrows := to_int (size_at points 2) in
  let ncols := to_int (size_at points 3) in
  let nSE3 := to_int (size_at masks 1) in
  match check_ndim ndim with
  | Fatal e => Fatal e
  | Done _ =>
      let nTfmParams := to_int (nElement tfms) in
      match check_capacity nTfmParams with
      | Fatal e => Fatal e
      | Done _ =>
          let points := newContiguous points in
          let masks := newContiguous masks in
          let tfms := newContiguous tfms in
          let targetpoints := newContiguous targetpoints in
          let loss := Weighted3DTransformLoss_ForwardLauncher
                        (mkForwardCall points masks tfms targetpoints
                           batchSize ndim nrows ncols nSE3 nTfmParams) in
          let loss := fmul loss fhalf in
          let loss :=
            if sizeAverage =? 0 then loss
            else let nElements := nElement points in fdiv loss (float_of_int nElements) in
          Done (int_of_float loss)
      end
  end.

End LossEntryPoint.

(** ** The backward entry point of the fused loss (wt3dtfmloss_cuda.c) *)

(** [norm *= 1.0/((float)nElements)]: the quotient and the product are formed
    in [double], the result is stored back in the [float]. *)
Class DoubleOps (F : Type) : Type := {
  times_reciprocal : F -> F -> F     (* (float) ((double) x * (1.0 / (double) d)) *)
}.

(** What the entry point passes to the backward launcher of the fused loss. *)
Record LossBackwardCall (F : Type) : Type := mkLossBackwardCall {
  lb_points : Tensor F;
  lb_masks : Tensor F;
  lb_tfms : Tensor F;
  lb_targetpoints : Tensor F;
  lb_gradPoints : Tensor F;
  lb_gradMasks : Tensor F;
  lb_gradTfms : Tensor F;
  lb_batchSize : Z;
  lb_ndim : Z;
  lb_nrows : Z;
  lb_ncols : Z;
  lb_nSE3 : Z;
  lb_nTfmParams : Z
}.
Arguments mkLossBackwardCall {F} _ _ _ _ _ _ _ _ _ _ _ _ _.
Arguments lb_points {F} _.
Arguments lb_masks {F} _.
Arguments lb_tfms {F} _.
Arguments lb_targetpoints {F} _.
Arguments lb_gradPoints {F} _.
Arguments lb_gradMasks {F} _.
Arguments lb_gradTfms {F} _.
Arguments lb_batchSize {F} _.
Arguments lb_ndim {F} _.
Arguments lb_nrows {F} _.
Arguments lb_ncols {F} _.
Arguments lb_nSE3 {F} _.
Arguments lb_nTfmParams {F} _.

(** The three gradient tensors the backward entry point leaves behind. *)
Record LossGrads (F : Type) : Type := mkLossGrads {
  lg_gradPoints : Tensor F;
  lg_gradMasks : Tensor F;
  lg_gradTfms : Tensor F
}.
Arguments mkLossGrads {F} _ _ _.
Arguments lg_gradPoints {F} _.
Arguments lg_gradMasks {F} _.
Arguments lg_gradTfms {F} _.

Section LossBackwardEntryPoint.
Context {F : Type} {ops : Scalar F} {fops : FloatOps F} {dops : DoubleOps F}.

(** [THCudaTensor_mul(state, t, t, value)]: every element is multiplied by
    [value], in place. *)
Definition THCudaTensor_mul (t : Tensor F) (value : F) : Tensor F :=
  {| size := size t;
     stride := stride t;
     data := fold_left (fun m o => store m o (fmul (m o) value)) (offsets_of t) (data t) |}.

(** The launcher of cuda/wt3dtfmloss_kernel.h is not among the sources: the
    entry point is stated for any launcher, which hands back what it has left
    in the three gradient buffers. *)
Variable Weighted3DTransformLoss_BackwardLauncher :
  LossBackwardCall F -> buffer F * buffer F * buffer F.

(** [Weighted3DTransformLoss_backward_cuda] up to the call of the launcher. *)
Definition Weighted3DTransformLoss_backward_prepare
           (points masks tfms targetpoints gradPoints gradMasks gradTfms : Tensor F)
  : outcome (LossBackwardCall F) :=
  let batchSize := size_at points 0 in
  let ndim := size_at points 1 in
  let nrows := size_at points 2 in
  let ncols := size_at points 3 in
  let nSE3 := size_at masks 1 in
  match check_ndim ndim with
  | Fatal e => Fatal e
  | Done _ =>
      let nTfmParams := to_int (nElement tfms) in
      match check_capacity nTfmParams with
      | Fatal e => Fatal e
      | Done _ =>
          let gradPoints := fill gradPoints fzero in
          let gradTfms := fill gradTfms fzero in
          let points := newContiguous points in
          let masks := newContiguous masks in
          let tfms := newContiguous tfms in
          let targetpoints := newContiguous targetpoints in
          Done (mkLossBackwardCall points masks tfms targetpoints
                  gradPoints gradMasks gradTfms
                  (to_int batchSize) (to_int ndim) (to_int nrows) (to_int ncols)
                  (to_int nSE3) nTfmParams)
      end
  end.

(** [Weighted3DTransformLoss_backward_cuda] *)
Definition Weighted3DTransformLoss_backward_cuda
           (points masks tfms targetpoints gradPoints gradMasks gradTfms gradOutput : Tensor F)
           (sizeAverage : Z) : outcome (LossGrads F) :=
  match Weighted3DTransformLoss_backward_prepare points masks tfms targetpoints
          gradPoints gradMasks gradTfms with
  | Fatal e => Fatal e
  | Done call =>
      let '(gp, gm, gt) := Weighted3DTransformLoss_BackwardLauncher call in
      let norm := data gradOutput 0 in
      let norm :=
        if sizeAverage =? 0 then norm
        else let nElements := nElement (lb_points call) in
             times_reciprocal norm (float_of_int nElements) in
      Done {| lg_gradPoints :=
                THCudaTensor_mul
                  (mkTensor (size (lb_gradPoints call)) (stride (lb_gradPoints call)) gp) norm;
              lg_gradMasks :=
                THCudaTensor_mul
                  (mkTensor (size (lb_gradMasks call)) (stride (lb_gradMasks call)) gm) norm;
              lg_gradTfms :=
                THCudaTensor_mul
                  (mkTensor (size (lb_gradTfms call)) (stride (lb_gradTfms call)) gt) norm |}
  end.

End LossBackwardEntryPoint.

(** ** Flow and visibility labels (computeflowandvisibility_pts_cpu.c) *)

(** The two output arrays of one pass. *)
Record FlowOut (F : Type) : Type := mkFlowOut {
  visible1 : buffer Z;
  flows12 : buffer F
}.
Arguments mkFlowOut {F} _ _.
Arguments visible1 {F} _ _.
Arguments flows12 {F} _ _.

(** [for (t = lo; t < bound; t++)] with the test made in [float].  An iteration
    with [t >= limit] only meets the limits check and goes on to the next test,
    so the loop is followed up to [limit]. *)
Fixpoint window_loop {S : Type} (fuel : nat) (t : Z) (test : Z -> bool)
         (body : Z -> S -> S) (s : S) : S :=
  match fuel with
  | O => s
  | Datatypes.S fuel' =>
      if test t then window_loop fuel' (t + 1) test body (body t s) else s
  end.

Definition for_window {S : Type} (lo limit : Z) (test : Z -> bool)
           (body : Z -> S -> S) (s : S) : S :=
  window_loop (Z.to_nat (limit - lo)) lo test body s.

Section FlowAndVisibility.
Context {F : Type} {ops : Scalar F} {fops : FloatOps F}.

(** [pow(x, 2)] of a [float]: the square, in [double]. *)
Definition dsquare (x : F) : double := dpow2 (to_double x).

(** [float s = pow(x, 2)]: the square is rounded when it is stored. *)
Definition fsquare (x : F) : F := to_float (dsquare x).

Section Pass.
Variables (cloud1 cloud2 local1 local2 : buffer F).
Variables (label1 label2 : buffer Z).
Variable poses2 : buffer F.
Variables (cs ls ps : Strides).
Variables (fx fy cx cy threshold winsize : F).
Variables (batchsize nrows ncols : Z).

(** The best match so far: [mindist], [mintr], [mintc]. *)
Definition candidate : Type := (F * Z * Z)%type.

(** The body of the two window loops for target pixel [(tr, tc)]. *)
Definition compare_target (b mi : Z) (xi yi zi sqthresh : F) (tr tc : Z)
           (best : candidate) : candidate :=
  let '(mindist, mintr, mintc) := best in
  if (tr <? 0) || (nrows <=? tr) || (tc <? 0) || (ncols <=? tc) then best
  else
    let valtc := b * st0 cs + tr * st2 cs + tc * st3 cs in
    let xt := local2 (0 * st1 cs + valtc) in
    let yt := local2 (1 * st1 cs + valtc) in
    let zt := local2 (2 * st1 cs + valtc) in
    let mt := label2 (b * st0 ls + tr * st2 ls + tc * st3 ls) in
    if negb (mt =? mi) then best
    else
      let dist := to_float (dadd (dadd (dsquare (fsub xi xt)) (dsquare (fsub yi yt)))
                                 (dsquare (fsub zi zt))) in
      if flt dist mindist && flt dist sqthresh then (dist, tr, tc) else best.

(** The search of the window around [(rpix, cpix)]. *)
Definition search_window (b mi : Z) (xi yi zi sqthresh : F) (winhalfsize rpix cpix : Z)
  : candidate :=
  for_window (rpix - winhalfsize) nrows
    (fun tr => flt (float_of_int tr) (fadd (float_of_int (rpix - winhalfsize)) winsize))
    (fun tr best =>
       for_window (cpix - winhalfsize) ncols
         (fun tc => flt (float_of_int tc) (fadd (float_of_int (cpix - winhalfsize)) winsize))
         (fun tc best => compare_target b mi xi yi zi sqthresh tr tc best)
         best)
    (HUGE_VALF, -1, -1).

(** The body of the loops over [b], [r], [c]. *)
Definition visit_cell (b r c : Z) (out : FlowOut F) : FlowOut F :=
  let sqthresh := fsquare threshold in
  let winhalfsize := int_of_float (ffloor (fdiv winsize ftwo)) in
  let valc := b * st0 cs + r * st2 cs + c * st3 cs in
  let xi := local1 (0 * st1 cs + valc) in
  let yi := local1 (1 * st1 cs + valc) in
  let zi := local1 (2 * st1 cs + valc) in
  let mi := label1 (b * st0 ls + r * st2 ls + c * st3 ls) in
  if mi =? 0 then
    {| visible1 := store (visible1 out) (b * st0 ls + r * st2 ls + c * st3 ls) 1;
       flows12 := flows12 out |}
  else
    let T := fun i => poses2 (b * st0 ps + mi * st1 ps + i) in
    let xp := fadd (fadd (fadd (fmul (T 0) xi) (fmul (T 1) yi)) (fmul (T 2) zi)) (T 3) in
    let yp := fadd (fadd (fadd (fmul (T 4) xi) (fmul (T 5) yi)) (fmul (T 6) zi)) (T 7) in
    let zp := fadd (fadd (fadd (fmul (T 8) xi) (fmul (T 9) yi)) (fmul (T 10) zi)) (T 11) in
    let cpix := int_of_float (fround (fadd (fmul (fdiv xp zp) fx) cx)) in
    let rpix := int_of_float (fround (fadd (fmul (fdiv yp zp) fy) cy)) in
    if (rpix <? 0) || (nrows <=? rpix) || (cpix <? 0) || (ncols <=? cpix) then out
    else
      let '(_, mintr, mintc) := search_window b mi xi yi zi sqthresh winhalfsize rpix cpix in
      if negb (mintr =? -1) && negb (mintc =? -1) then
        let x1 := cloud1 (0 * st1 cs + valc) in
        let y1 := cloud1 (1 * st1 cs + valc) in
        let z1 := cloud1 (2 * st1 cs + valc) in
        let valtc := b * st0 cs + mintr * st2 cs + mintc * st3 cs in
        let x2 := cloud2 (0 * st1 cs + valtc) in
        let y2 := cloud2 (1 * st1 cs + valtc) in
        let z2 := cloud2 (2 * st1 cs + valtc) in
        {| visible1 := store (visible1 out) (b * st0 ls + r * st2 ls + c * st3 ls) 1;
           flows12 :=
             store (store (store (flows12 out) (0 * st1 cs + valc) (fsub x2 x1))
                          (1 * st1 cs + valc) (fsub y2 y1))
                   (2 * st1 cs + valc) (fsub z2 z1) |}
      else out.

(** [compute_visibility_and_flows] *)
Definition compute_visibility_and_flows (out : FlowOut F) : FlowOut F :=
  for_upto batchsize
    (fun b out =>
       for_upto nrows
         (fun r out => for_upto ncols (fun c out => visit_cell b r c out) out) out) out.

End Pass.

(** The first loops of [ComputeFlowAndVisibility_Pts_float]: the points of both
    frames in the frame of their link. *)
Definition to_local (cloud : buffer F) (label : buffer Z) (poseinvs : buffer F)
           (cs ls ps : Strides) (b r c : Z) (loc : buffer F) : buffer F :=
  let valc := b * st0 cs + r * st2 cs + c * st3 cs in
  let x := cloud (0 * st1 cs + valc) in
  let y := cloud (1 * st1 cs + valc) in
  let z := cloud (2 * st1 cs + valc) in
  let l := label (b * st0 ls + r * st2 ls + c * st3 ls) in
  let T := fun i => poseinvs (b * st0 ps + l * st1 ps + i) in
  store (store (store loc
    (0 * st1 cs + valc) (fadd (fadd (fadd (fmul (T 0) x) (fmul (T 1) y)) (fmul (T 2) z)) (T 3)))
    (1 * st1 cs + valc) (fadd (fadd (fadd (fmul (T 4) x) (fmul (T 5) y)) (fmul (T 6) z)) (T 7)))
    (2 * st1 cs + valc) (fadd (fadd (fadd (fmul (T 8) x) (fmul (T 9) y)) (fmul (T 10) z)) (T 11)).

(** The tensors the routine writes. *)
Record FlowResult : Type := mkFlowResult {
  fwdflows : Tensor F;
  bwdflows : Tensor F;
  fwdvisibility : Tensor Z;
  bwdvisibility : Tensor Z;
  local_out_1 : Tensor F;
  local_out_2 : Tensor F
}.

(** [ComputeFlowAndVisibility_Pts_float] *)
Definition ComputeFlowAndVisibility_Pts_float
           (cloud_1 cloud_2 local_1 local_2 : Tensor F) (label_1 label_2 : Tensor Z)
           (poses_1 poses_2 poseinvs_1 poseinvs_2 fwdflows0 bwdflows0 : Tensor F)
           (fwdvisibility0 bwdvisibility0 : Tensor Z)
           (fx fy cx cy threshold winsize : F) : outcome FlowResult :=
  let batchsize := size_at cloud_1 0 in
  let ndim := size_at cloud_1 1 in
  let nrows := size_at cloud_1 2 in
  let ncols := size_at cloud_1 3 in
  match check_ndim ndim with
  | Fatal e => Fatal e
  | Done _ =>
      let cloud_1 := newContiguous cloud_1 in
      let cloud_2 := newContiguous cloud_2 in
      let label_1 := newContiguous label_1 in
      let label_2 := newContiguous label_2 in
      let poses_1 := newContiguous poses_1 in
      let poses_2 := newContiguous poses_2 in
      let poseinvs_1 := newContiguous poseinvs_1 in
      let poseinvs_2 := newContiguous poseinvs_2 in
      let fwdflows0 := newContiguous fwdflows0 in
      let bwdflows0 := newContiguous bwdflows0 in
      let fwdvisibility0 := newContiguous fwdvisibility0 in
      let bwdvisibility0 := newContiguous bwdvisibility0 in
      let local_1 := newContiguous local_1 in
      let local_2 := newContiguous local_2 in
      let fwdvisibility0 := fill fwdvisibility0 0 in
      let bwdvisibility0 := fill bwdvisibility0 0 in
      let fwdflows0 := fill fwdflows0 fzero in
      let bwdflows0 := fill bwdflows0 fzero in
      let cs := strides_of cloud_1 in
      let ls := strides_of label_1 in
      let ps := strides_of poses_1 in
      let '(local1, local2) :=
        for_upto batchsize
          (fun b loc =>
             for_upto nrows
               (fun r loc =>
                  for_upto ncols
                    (fun c loc =>
                       (to_local (data cloud_1) (data label_1) (data poseinvs_1)
                          cs ls ps b r c (fst loc),
                        to_local (data cloud_2) (data label_2) (data poseinvs_2)
                          cs ls ps b r c (snd loc))) loc) loc)
          (data local_1, data local_2) in
      let fwd :=
        compute_visibility_and_flows (data cloud_1) (data cloud_2) local1 local2
          (data label_1) (data label_2) (data poses_2) cs ls ps
          fx fy cx cy threshold winsize batchsize nrows ncols
          (mkFlowOut (data fwdvisibility0) (data fwdflows0)) in
      let bwd :=
        compute_visibility_and_flows (data cloud_2) (data cloud_1) local2 local1
          (data label_2) (data label_1) (data poses_1) cs ls ps
          fx fy cx cy threshold winsize batchsize nrows ncols
          (mkFlowOut (data bwdvisibility0) (data bwdflows0)) in
      Done {| fwdflows := mkTensor (size fwdflows0) (stride fwdflows0) (flows12 fwd);
              bwdflows := mkTensor (size bwdflows0) (stride bwdflows0) (flows12 bwd);
              fwdvisibility :=
                mkTensor (size fwdvisibility0) (stride fwdvisibility0) (visible1 fwd);
              bwdvisibility :=
                mkTensor (size bwdvisibility0) (stride bwdvisibility0) (visible1 bwd);
              local_out_1 := mkTensor (size local_1) (stride local_1) local1;
              local_out_2 := mkTensor (size local_2) (stride local_2) local2 |}
  end.

End FlowAndVisibility.

(** * Vocabulary of the properties *)

(** ** What the forward threads compute *)

Section ForwardValues.
Context {F : Type} {ops : Scalar F}.

(** What the thread of cell [(b, r, c)] computes: the loop over the transforms
    started from the point itself. *)
Definition forward_value (constTfms points masks : buffer F) (K : Z) (ps ms ts : Strides)
           (b r c : Z) : vec3 F :=
  let p := point_at points ps b r c in
  for_upto K (blend_step constTfms masks ms ts b (b * st0 ms + r * st2 ms + c * st3 ms) p) p.

(** The forward value in the order the kernel evaluates it:
    [((p + d_0) + d_1) + ...] with [d_k = w_k * (R_k p + t_k - p)]. *)
Definition blend_in_order (p : vec3 F) (w : Z -> F) (T : Z -> tfm) (K : nat) : vec3 F :=
  for_range K
    (fun k acc => vadd acc (vscale (w k) (vsub (vadd (rotate (T k) p) (translate (T k))) p)))
    p.

End ForwardValues.

(** ** Entries of the transform gradient *)

Section TransformEntries.
Context {F : Type} {ops : Scalar F}.
Variables (points masks gradTfmpoints : buffer F).
Variables (R C : Z) (ps ms : Strides).

(** The twelve values a thread within limits puts in shared memory for
    transform [k], by parameter index: [w*x*gx, w*y*gx, w*z*gx, w*gx, ...]. *)
Definition tfm_grad_entry (w : F) (p g : vec3 F) (i : Z) : F :=
  nth (Z.to_nat i)
      [ fmul (fmul w (vx p)) (vx g); fmul (fmul w (vy p)) (vx g);
        fmul (fmul w (vz p)) (vx g); fmul w (vx g);
        fmul (fmul w (vx p)) (vy g); fmul (fmul w (vy p)) (vy g);
        fmul (fmul w (vz p)) (vy g); fmul w (vy g);
        fmul (fmul w (vx p)) (vz g); fmul (fmul w (vy p)) (vz g);
        fmul (fmul w (vz p)) (vz g); fmul w (vz g) ]
      fzero.

(** The contribution of cell [(b, r, c)] to entry [i] of transform [k]. *)
Definition cell_entry (b k r c i : Z) : F :=
  tfm_grad_entry (masks (offset ms b k r c)) (point_at points ps b r c)
                 (point_at gradTfmpoints ps b r c) i.

(** ... and zero for a thread outside the image. *)
Definition masked_entry (b k r c i : Z) : F :=
  if (c <? C) && (r <? R) then cell_entry b k r c i else fzero.

End TransformEntries.

Section BlockEntries.
Context {F : Type} {ops : Scalar F}.
Variables (points masks gradTfmpoints : buffer F).
Variables (R C : Z) (ps ms : Strides).
Variables (bx by_ bz dx dy : Z).

(** What the block adds up for entry [i] of transform [k]: the entries of all
    its threads, in the order of their linear id. *)
Definition block_entry (k i : Z) : F :=
  sum_upto (Z.to_nat (dx * dy))
    (fun tid => masked_entry points masks gradTfmpoints R C ps ms bz k
                  (by_ * dy + tid / dx) (bx * dx + tid mod dx) i).

End BlockEntries.

(** ** The rounds of the tree reduction *)

Section ReductionRounds.
Context {F : Type} {ops : Scalar F}.
Variables (dx dy : Z).

(** Thread [tid] adds column [col + s] to column [col] of parameter [i] in the
    round of stride [s]. *)
Definition handles (s tid i col : Z) : Prop :=
  (tid < s /\ 0 <= i < 6 /\ col = tid) \/
  (s <= tid /\ Z.quot (dx * dy) 2 <= tid /\ tid - Z.quot (dx * dy) 2 < s /\
   6 <= i < 12 /\ col = tid - Z.quot (dx * dy) 2).

(** One round, all threads. *)
Definition reduce_round (s : Z) (sh : buffer F) : buffer F :=
  run_threads dx dy (reduce_step dx dy s) sh.

(** The sum of the first [n] columns of parameter [i] in shared memory. *)
Definition row_sum (sh : buffer F) (i : Z) (n : nat) : F :=
  sum_upto n (fun j => sh (i * (dx * dy) + j)).

End ReductionRounds.

(** ** Gradients in the specification's words *)

Section GradientVocabulary.
Context {F : Type} {ops : Scalar F}.

(** The plain sum over the cells of an R x C image. *)
Definition plain_sum (R C : Z) (f : Z -> Z -> F) : F :=
  sum_upto (Z.to_nat R) (fun r => sum_upto (Z.to_nat C) (fun c => f r c)).

(** Entry (a, j) of the outer product [u (x) v] is [u_a * v_j]. *)
Definition outer (u v : vec3 F) (a j : Z) : F := fmul (vget u a) (vget v j).

(** The per-point gradient as the specification states it: rotation entry
    (a, j) of [w * p (x) g], translation entry [a] of [w * g]; [i = 4 a + j] is
    the index in the row-major 3 x 4 transform. *)
Definition tfm_grad_as_stated (w : F) (p g : vec3 F) (i : Z) : F :=
  let a := i / 4 in
  let j := i mod 4 in
  if j =? 3 then fmul w (vget g a) else fmul w (outer p g a j).

(** The per-point gradient with the factors in the order the kernel has them:
    rotation entry (a, j) of [w * g (x) p], i.e. [w * g_a * p_j]. *)
Definition tfm_grad_per_point (w : F) (p g : vec3 F) (i : Z) : F :=
  let a := i / 4 in
  let j := i mod 4 in
  if j =? 3 then fmul w (vget g a) else fmul w (outer g p a j).

(** [g + sum_k w_k * (R_k^T g - g)] *)
Definition point_gradient (g : vec3 F) (w : Z -> F) (T : Z -> tfm) (K : nat) : vec3 F :=
  vadd g (vsum K (fun k => vscale (w k) (vsub (rotate_back (T k) g) g))).

(** [p . (R^T g) + g . (t - p)] *)
Definition mask_gradient (p g : vec3 F) (T : tfm) : F :=
  fadd (dot p (rotate_back T g)) (dot g (vsub (translate T) p)).

End GradientVocabulary.

(** ** Point and mask gradients of a cell, as the kernel evaluates them *)

Section CellGradients.
Context {F : Type} {ops : Scalar F}.
Variables (constTfms points masks gradTfmpoints : buffer F).
Variables (R C K : Z) (ps ms ts : Strides).
Variables (bx by_ bz dx dy : Z).

(** One trip of the kernel's loop on the accumulators of the thread of cell
    [(b, r, c)]: [acc + w_k * (R_k^T g - g)]. *)
Definition point_grad_step (b r c k : Z) (acc : vec3 F) : vec3 F :=
  let g := point_at gradTfmpoints ps b r c in
  let T := fun i => constTfms (b * st0 ts + k * st1 ts + i) in
  vadd acc (vscale (masks (offset ms b k r c)) (vsub (rotate_back T g) g)).

(** The value the kernel stores in [gradMasks[b, k, r, c]]. *)
Definition mask_grad_value (b r c k : Z) : F :=
  let p := point_at points ps b r c in
  let g := point_at gradTfmpoints ps b r c in
  let T := fun i => constTfms (b * st0 ts + k * st1 ts + i) in
  let t := rotate_back T g in
  fadd (fadd (fadd (fadd (fadd (fmul (vx p) (vx t)) (fmul (vy p) (vy t))) (fmul (vz p) (vz t)))
                         (fmul (vx g) (fsub (T 3) (vx p))))
                   (fmul (vy g) (fsub (T 7) (vy p))))
       (fmul (vz g) (fsub (T 11) (vz p))).

Definition within (tx ty : Z) : bool := (bx * dx + tx <? C) && (by_ * dy + ty <? R).

(** What the thread of cell [(b, r, c)] ends with in [gx, gy, gz]. *)
Definition point_grad_value (b r c : Z) : vec3 F :=
  for_upto K (point_grad_step b r c) (point_at gradTfmpoints ps b r c).

End CellGradients.

(** ** Counted buffers and canonical tensors *)

(** The value of a cell of a counted buffer together with its store count. *)
Definition cell_view {A : Type} (m : cbuffer A) (a : Z) : A * nat := (cval m a, cwrites m a).

(** A 4-d tensor of the given sizes in the canonical contiguous layout. *)
Definition canonical {A : Type} (t : Tensor A) (n0 n1 n2 n3 : Z) : Prop :=
  size t = [n0; n1; n2; n3] /\ stride t = [n1 * n2 * n3; n2 * n3; n3; 1].

(** Index of cell [(b, r, c)] in a label or visibility array. *)
Definition label_index (ls : Strides) (b r c : Z) : Z :=
  b * st0 ls + r * st2 ls + c * st3 ls.

(** ** IEEE binary32 *)

(** [float]: precision 24, maximal exponent 128; every C operator is one
    correctly rounded operation. *)
Definition binary32 : Type := spec_float.

#[export] Instance binary32_scalar : Scalar binary32 := {
  fzero := S754_zero false;
  fone := S754_finite false 8388608 (-23);
  fadd := SFadd 24 128;
  fsub := SFsub 24 128;
  fmul := SFmul 24 128;
  fopp := SFopp
}.

Definition is_finite32 (x : binary32) : bool :=
  match x with
  | S754_zero _ | S754_finite _ _ _ => true
  | _ => false
  end.

Definition is_zero32 (x : binary32) : bool :=
  match x with
  | S754_zero _ => true
  | _ => false
  end.

(** Truncation toward zero; a value the [int] cannot hold gives the
    "integer indefinite" value of the x86 conversion. *)
Definition trunc32 (x : binary32) : Z :=
  match x with
  | S754_zero _ => 0
  | S754_finite s m e =>
      let n := if 0 <=? e then Z.pos m * 2 ^ e else Z.pos m / 2 ^ (- e) in
      let v := if s then - n else n in
      if (- 2147483648 <=? v) && (v <=? INT_MAX) then v else - 2147483648
  | _ => - 2147483648
  end.

(** [round]: to the nearest integer, halfway cases away from zero. *)
Definition round32 (x : binary32) : binary32 :=
  match x with
  | S754_finite s m e =>
      if 0 <=? e then x
      else
        let d := 2 ^ (- e) in
        let q := Z.pos m / d in
        let n := if d <=? 2 * (Z.pos m mod d) then q + 1 else q in
        binary_normalize 24 128 (if s then - n else n) 0 s
  | _ => x
  end.

(** [floor] *)
Definition floor32 (x : binary32) : binary32 :=
  match x with
  | S754_finite s m e =>
      if 0 <=? e then x
      else
        let d := 2 ^ (- e) in
        let q := Z.pos m / d in
        let n := if s then (if Z.pos m mod d =? 0 then - q else - (q + 1)) else q in
        binary_normalize 24 128 n 0 s
  | _ => x
  end.

(** [double]: precision 53, maximal exponent 1024. *)
Definition binary64 : Type := spec_float.

(** [(double) x]: the same value, with the mantissa of a binary64. *)
Definition float_to_double (x : binary32) : binary64 :=
  match x with
  | S754_finite s m e => binary_normalize 53 1024 (if s then Z.neg m else Z.pos m) e s
  | _ => x
  end.

(** [(float) d]: the binary64 value rounded to binary32. *)
Definition double_to_float (x : spec_float) : binary32 :=
  match x with
  | S754_finite s m e => binary_normalize 24 128 (if s then Z.neg m else Z.pos m) e s
  | _ => x
  end.

(** The square of a [float] is a binary64 value, so [pow(d, 2)] is the
    product [d * d]. *)
#[export] Instance binary32_floatops : FloatOps binary32 := {
  fdiv := SFdiv 24 128;
  flt := SFltb;
  fhalf := S754_finite false 8388608 (-24);
  ftwo := S754_finite false 8388608 (-22);
  HUGE_VALF := S754_infinity false;
  float_of_int := fun n => binary_normalize 24 128 n 0 false;
  int_of_float := trunc32;
  fround := round32;
  ffloor := floor32;
  double := binary64;
  to_double := float_to_double;
  to_float := double_to_float;
  dadd := SFadd 53 1024;
  dpow2 := fun d => SFmul 53 1024 d d
}.

(** [x] holds the value of the finite float [p]: the same float, or a zero of
    either sign when [p] is a zero. *)
Definition holds32 (x p : binary32) : Prop :=
  match p with
  | S754_zero _ => is_zero32 x = true
  | S754_finite _ _ _ => x = p
  | _ => False
  end.

(** ** Concrete inputs *)

Definition zero_buffer : buffer Z := fun _ => 0.

(** point (1, 0, 0) *)
Definition scenario_points : buffer Z := fun i => if i =? 0 then 1 else 0.

(** weight 1 *)
Definition scenario_masks : buffer Z := fun i => if i =? 0 then 1 else 0.

(** identity rotation, translation (0, 1, 0) *)
Definition scenario_tfms : buffer Z :=
  fun i => nth (Z.to_nat i) [1; 0; 0; 0;  0; 1; 0; 1;  0; 0; 1; 0] 0.

(** upstream gradient (1, 1, 1) *)
Definition scenario_gradOut : buffer Z := fun _ => 1.

Definition scenario_ts : Strides := mkStrides 12 12 1 0.

(** Sample fields over the integers, for an 8 x 8 image with two transforms. *)
Definition sample_points : buffer Z := fun i => i + 1.

Definition sample_masks : buffer Z := fun i => 2 * i + 1.

Definition sample_gradOut : buffer Z := fun i => i * i - 3.

Definition sample_grads : Grads Z :=
  mkGrads zero_buffer (mkC zero_buffer (fun _ => O)) zero_buffer.

Definition sample_regs : buffer (vec3 Z) := fun _ => mkV3 5 5 5.

(** An input on which a product of two finite floats overflows:
    one point (2^127, 0, 0), weight 0, one transform whose entry (0,0) is 2^127. *)
Definition overflow_points : buffer binary32 :=
  fun i => if i =? 0 then S754_finite false 8388608 104 else S754_zero false.

Definition overflow_masks : buffer binary32 := fun _ => S754_zero false.

Definition overflow_tfms : buffer binary32 :=
  fun i => if i =? 0 then S754_finite false 8388608 104 else S754_zero false.

(** A transform set of 357913942 x 1 x 12 = 2^32 + 8 scalars, with matching
    points and masks. *)
Definition huge_tfms {A : Type} (d : buffer A) : Tensor A :=
  mkTensor [357913942; 1; 12] [12; 12; 1] d.

Definition huge_points {A : Type} (d : buffer A) : Tensor A :=
  mkTensor [357913942; 3; 1; 1] [3; 1; 1; 1] d.

Definition huge_masks {A : Type} (d : buffer A) : Tensor A :=
  mkTensor [357913942; 1; 1; 1] [1; 1; 1; 1] d.

(** A 1 x 3 x 1 x 1 point field, its 1 x 1 x 1 x 1 masks and 1 x 1 x 12 transforms. *)
Definition unit_points {A : Type} (d : buffer A) : Tensor A := mkTensor [1; 3; 1; 1] [3; 1; 1; 1] d.

Definition unit_masks {A : Type} (d : buffer A) : Tensor A := mkTensor [1; 1; 1; 1] [1; 1; 1; 1] d.

Definition unit_tfms {A : Type} (d : buffer A) : Tensor A := mkTensor [1; 1; 12] [12; 12; 1] d.

(** A 1 x 3 x 1 x 1 scene whose only cell is background in both frames. *)
Definition unit_labels (d : buffer Z) : Tensor Z := mkTensor [1; 1; 1; 1] [1; 1; 1; 1] d.

Definition unit_poses {A : Type} (d : buffer A) : Tensor A := mkTensor [1; 1; 12] [12; 12; 1] d.

(** ** Vocabulary of the further properties *)

Section BlendVocabulary.
Context {F : Type} {ops : Scalar F}.

(** [R p + t] *)
Definition apply_tfm (T : tfm) (p : vec3 F) : vec3 F := vadd (rotate T p) (translate T).

(** The identity transform: rotation part the unit matrix, no translation. *)
Definition is_identity (T : tfm) : Prop :=
  T 0 = fone /\ T 1 = fzero /\ T 2 = fzero /\ T 3 = fzero /\
  T 4 = fzero /\ T 5 = fone /\ T 6 = fzero /\ T 7 = fzero /\
  T 8 = fzero /\ T 9 = fzero /\ T 10 = fone /\ T 11 = fzero.

End BlendVocabulary.

(** A call the forward launcher accepts: a non-empty B x 3 x R x C point field
    and B x K x R x C masks whose element counts fit an [int], and B x K x 12
    transforms that fit the constant memory, laid out contiguously. *)
Definition valid_forward (B R C K : Z) (ts : Strides) : Prop :=
  1 <= B /\ 1 <= R /\ 1 <= C /\ 0 <= K /\
  B * 3 * R * C <= INT_MAX /\ B * K * R * C <= INT_MAX /\ B * K * 12 <= 15000 /\
  st0 ts = K * 12 /\ st1 ts = 12.

(** A call the backward launcher accepts: as for the forward launcher, and the
    shared memory of a 16 x 16 block with [K] result rows stays within 32000 bytes. *)
Definition valid_backward (B R C K : Z) (ts : Strides) : Prop :=
  valid_forward B R C K ts /\ 12288 + 48 * K <= 32000.

(** Identity transforms, one after the other. *)
Definition identity_tfms : buffer Z :=
  fun i => if (i mod 12 =? 0) || (i mod 12 =? 5) || (i mod 12 =? 10) then 1 else 0.

(** [(float) ((double) x * (1.0 / (double) d))] on binary32 values: the
    division and the product are correctly rounded binary64 operations, the
    conversion rounds the product to binary32. *)
#[export] Instance binary32_doubleops : DoubleOps binary32 := {
  times_reciprocal := fun x d =>
    double_to_float
      (SFmul 53 1024 x (SFdiv 53 1024 (S754_finite false 4503599627370496 (-52)) d))
}.

(** 1 x 1 x 3 x 4 transforms. *)
Definition unit_tfms4 {A : Type} (d : buffer A) : Tensor A :=
  mkTensor [1; 1; 3; 4] [12; 12; 4; 1] d.

Section FlowVocabulary.
Context {F : Type} {ops : Scalar F} {fops : FloatOps F}.

(** The squared distance of two points as the search forms it: the three
    differences are [float] subtractions, their squares and the sum are formed
    in [double], and the sum is rounded once, when it is stored in [dist]. *)
Definition sqdist (p q : vec3 F) : F :=
  to_float (dadd (dadd (dsquare (fsub (vx p) (vx q))) (dsquare (fsub (vy p) (vy q))))
                 (dsquare (fsub (vz p) (vz q)))).

(** Target pixel [(tr, tc)] is an association for the cell [(b, r, c)] of label
    [mi]: it lies in the image, carries the same label in the other frame, and
    its point in link coordinates is closer to the cell's than the threshold,
    the rounded squared distance being compared with the rounded square of the
    threshold. *)
Definition associated (local1 local2 : buffer F) (label2 : buffer Z) (cs ls : Strides)
           (threshold : F) (nrows ncols b r c mi tr tc : Z) : Prop :=
  0 <= tr < nrows /\ 0 <= tc < ncols /\
  label2 (label_index ls b tr tc) = mi /\
  flt (sqdist (point_at local1 cs b r c) (point_at local2 cs b tr tc)) (fsquare threshold) = true.

(** The flow the routine stores for cell [(b, r, c)] matched with [(tr, tc)]:
    the target's point in the other frame minus the cell's own point. *)
Definition flow_to (cloud1 cloud2 : buffer F) (cs : Strides) (b r c tr tc : Z) : vec3 F :=
  vsub (point_at cloud2 cs b tr tc) (point_at cloud1 cs b r c).

(** What one pass has made of cell [(b, r, c)], given what the outputs held
    before: left as it was; or marked visible as background; or marked visible
    with the flow to an association. *)
Definition cell_outcome (cloud1 cloud2 local1 local2 : buffer F) (label1 label2 : buffer Z)
           (cs ls : Strides) (threshold : F) (nrows ncols b r c : Z)
           (before after : FlowOut F) : Prop :=
  let idx := label_index ls b r c in
  let flow (o : FlowOut F) := point_at (flows12 o) cs b r c in
  (visible1 after idx = visible1 before idx /\ flow after = flow before) \/
  (label1 idx = 0 /\ visible1 after idx = 1 /\ flow after = flow before) \/
  (label1 idx <> 0 /\ visible1 after idx = 1 /\
   exists tr tc,
     associated local1 local2 label2 cs ls threshold nrows ncols b r c (label1 idx) tr tc /\
     flow after = flow_to cloud1 cloud2 cs b r c tr tc).

(** A point of frame [cloud] in the coordinates of its link: the inverse pose
    of the link the label names, applied to the point. *)
Definition local_point (cloud : buffer F) (label : buffer Z) (poseinvs : buffer F)
           (cs ls ps : Strides) (b r c : Z) : vec3 F :=
  let l := label (label_index ls b r c) in
  let T := fun i => poseinvs (b * st0 ps + l * st1 ps + i) in
  vadd (rotate T (point_at cloud cs b r c)) (translate T).

(** The first loops of [ComputeFlowAndVisibility_Pts_float], on the pair of
    local-coordinate arrays. *)
Definition local_frames (cloud_1 cloud_2 : buffer F) (label_1 label_2 : buffer Z)
           (poseinvs_1 poseinvs_2 : buffer F) (cs ls ps : Strides)
           (batchsize nrows ncols : Z) (loc : buffer F * buffer F) : buffer F * buffer F :=
  for_upto batchsize
    (fun b loc =>
       for_upto nrows
         (fun r loc =>
            for_upto ncols
              (fun c loc =>
                 (to_local cloud_1 label_1 poseinvs_1 cs ls ps b r c (fst loc),
                  to_local cloud_2 label_2 poseinvs_2 cs ls ps b r c (snd loc))) loc) loc)
    loc.

(** The two passes of the routine, on zero-filled outputs. *)
Definition forward_pass (cloud_1 cloud_2 : Tensor F) (label_1 label_2 : Tensor Z)
           (poses_1 poses_2 fwdflows0 : Tensor F) (fwdvisibility0 : Tensor Z)
           (fx fy cx cy threshold winsize : F) (loc : buffer F * buffer F) : FlowOut F :=
  compute_visibility_and_flows (data cloud_1) (data cloud_2) (fst loc) (snd loc)
    (data label_1) (data label_2) (data (newContiguous poses_2))
    (strides_of cloud_1) (strides_of label_1) (strides_of (newContiguous poses_1))
    fx fy cx cy threshold winsize (size_at cloud_1 0) (size_at cloud_1 2) (size_at cloud_1 3)
    (mkFlowOut (data (fill fwdvisibility0 0)) (data (fill fwdflows0 fzero))).

Definition backward_pass (cloud_1 cloud_2 : Tensor F) (label_1 label_2 : Tensor Z)
           (poses_1 bwdflows0 : Tensor F) (bwdvisibility0 : Tensor Z)
           (fx fy cx cy threshold winsize : F) (loc : buffer F * buffer F) : FlowOut F :=
  compute_visibility_and_flows (data cloud_2) (data cloud_1) (snd loc) (fst loc)
    (data label_2) (data label_1) (data (newContiguous poses_1))
    (strides_of cloud_1) (strides_of label_1) (strides_of (newContiguous poses_1))
    fx fy cx cy threshold winsize (size_at cloud_1 0) (size_at cloud_1 2) (size_at cloud_1 3)
    (mkFlowOut (data (fill bwdvisibility0 0)) (data (fill bwdflows0 fzero))).

End FlowVocabulary.

(** A one-pixel scene in binary32: the point (0, 0, 1) of link 1 in frame t has
    moved to (1, 0, 1) in frame t+1; all poses are the identity; the buffers the
    routine writes start with arbitrary content. *)
Definition scene_cloud (x : binary32) : Tensor binary32 :=
  unit_points (fun i => if i =? 0 then x else if i =? 2 then fone else fzero).

Definition scene_poses : Tensor binary32 :=
  mkTensor [1; 2; 3; 4] [24; 12; 4; 1]
    (fun i => if (i mod 12 =? 0) || (i mod 12 =? 5) || (i mod 12 =? 10) then fone else fzero).

Definition scene_labels : Tensor Z := unit_labels (fun _ => 1).

Definition scene_run : outcome (@FlowResult binary32) :=
  ComputeFlowAndVisibility_Pts_float (scene_cloud fzero) (scene_cloud fone)
    (unit_points (fun _ => fone)) (unit_points (fun _ => fone)) scene_labels scene_labels
    scene_poses scene_poses scene_poses scene_poses
    (unit_points (fun _ => fone)) (unit_points (fun _ => fone))
    (unit_labels (fun _ => 7)) (unit_labels (fun _ => 7))
    fone fone fzero fzero ftwo fone.

(** A one-pixel scene in binary32 on which the rounding of the squared distance
    decides: the two points lie at a squared distance that is below the square
    of the threshold when the sum is rounded once, and equal to it when every
    operation is rounded.  The focal lengths are zero, so the cell projects on
    the only pixel. *)
Definition close_cloud_1 : Tensor binary32 :=
  unit_points (fun i => if i =? 0 then S754_finite true 15054834 (-24)
                        else if i =? 1 then S754_finite true 15174749 (-23)
                        else S754_finite false 9580347 (-22)).

Definition close_cloud_2 : Tensor binary32 :=
  unit_points (fun i => if i =? 0 then S754_finite true 15251584 (-24)
                        else if i =? 1 then S754_finite true 8876031 (-24)
                        else S754_finite false 15849997 (-23)).

Definition close_threshold : binary32 := S754_finite false 11236007 (-23).

Definition close_run : outcome (@FlowResult binary32) :=
  ComputeFlowAndVisibility_Pts_float close_cloud_1 close_cloud_2
    (unit_points (fun _ => fone)) (unit_points (fun _ => fone)) scene_labels scene_labels
    scene_poses scene_poses scene_poses scene_poses
    (unit_points (fun _ => fone)) (unit_points (fun _ => fone))
    (unit_labels (fun _ => 7)) (unit_labels (fun _ => 7))
    fzero fzero fzero fzero close_threshold fone.

Section WindowVocabulary.
Context {F : Type} {ops : Scalar F} {fops : FloatOps F}.

(** The exit test of a window loop that starts at [lo]:
    [t < lo + winsize], compared in [float]. *)
Definition window_test (lo : Z) (winsize : F) (t : Z) : bool :=
  flt (float_of_int t) (fadd (float_of_int lo) winsize).

(** Index [t] is reached by the window loop that starts at [lo]: the test has
    held at every index from [lo] to [t], and [t] is below [limit]. *)
Definition in_window (lo limit : Z) (winsize : F) (t : Z) : Prop :=
  lo <= t < limit /\ forall u, lo <= u <= t -> window_test lo winsize u = true.

(** The comparison [<] on the scalars is a strict order. *)
Definition strict_order (lt : F -> F -> bool) : Prop :=
  (forall x, lt x x = false) /\
  (forall x y z, lt x y = true -> lt y z = true -> lt x z = true).

(** Whatever is below some scalar is below [HUGE_VALF]. *)
Definition huge_on_top : Prop :=
  forall x y : F, flt x y = true -> flt x HUGE_VALF = true.

End WindowVocabulary.

(** A 1 x 2 image whose pixels lie at distance 1 and 0 of the point (0, 0, 1). *)
Definition pair_local1 : buffer binary32 := fun i => if 4 <=? i then fone else fzero.

Definition pair_local2 : buffer binary32 :=
  fun i => if i =? 0 then fone else if 4 <=? i then fone else fzero.

(** * Properties *)

(** ** Integers and indices *)

Lemma to_int_small (x : Z) : - 2147483648 <= x <= INT_MAX -> to_int x = x.
Proof.
  unfold to_int, INT_MAX. intros H.
  rewrite Z.mod_small by lia. lia.
Qed.

Lemma radix_unique (n a x a' x' : Z) :
  0 <= x < n -> 0 <= x' < n -> a * n + x = a' * n + x' -> a = a' /\ x = x'.
Proof.
  intros Hx Hx' E.
  assert (a = a') by nia.
  subst a'. lia.
Qed.

(** Distinct elements of a contiguous tensor have distinct offsets. *)
Lemma offset_contiguous_inj (n0 n1 n2 n3 b i r c b' i' r' c' : Z) :
  0 <= i < n1 -> 0 <= r < n2 -> 0 <= c < n3 ->
  0 <= i' < n1 -> 0 <= r' < n2 -> 0 <= c' < n3 ->
  offset (contiguous n0 n1 n2 n3) b i r c = offset (contiguous n0 n1 n2 n3) b' i' r' c' ->
  b = b' /\ i = i' /\ r = r' /\ c = c'.
Proof.
  unfold offset, contiguous; simpl. intros Hi Hr Hc Hi' Hr' Hc' E.
  assert (E1 : ((b * n1 + i) * n2 + r) * n3 + c = ((b' * n1 + i') * n2 + r') * n3 + c') by lia.
  apply radix_unique in E1; [|lia|lia]. destruct E1 as [E1 ->].
  apply radix_unique in E1; [|lia|lia]. destruct E1 as [E1 ->].
  apply radix_unique in E1; [|lia|lia]. destruct E1 as [-> ->].
  auto.
Qed.

Lemma ceil_div_covers (n d : Z) : 0 < d -> 0 <= n -> n <= ceil_div n d * d.
Proof.
  intros Hd Hn. unfold ceil_div.
  pose proof (Z.div_mod (n + d - 1) d ltac:(lia)).
  pose proof (Z.mod_pos_bound (n + d - 1) d Hd). nia.
Qed.

Lemma ceil_div_nonneg (n d : Z) : 0 < d -> 0 <= n -> 0 <= ceil_div n d.
Proof.
  intros Hd Hn. unfold ceil_div. apply Z.div_pos; lia.
Qed.

(** The coordinates of a point index, and the index of a cell. *)
Lemma getCoordinates_cell (R C b r c : Z) :
  0 <= b -> 0 <= r < R -> 0 <= c < C ->
  getCoordinates ((b * R + r) * C + c) R C = (b, r, c).
Proof.
  intros Hb Hr Hc. unfold getCoordinates.
  assert (Hq : 0 <= b * R + r) by (pose proof (Z.mul_nonneg_nonneg b R); lia).
  assert (Hid : 0 <= (b * R + r) * C + c)
    by (pose proof (Z.mul_nonneg_nonneg (b * R + r) C); lia).
  assert (E1 : Z.quot ((b * R + r) * C + c) C = b * R + r).
  { rewrite Z.quot_div_nonneg by lia.
    symmetry. apply Z.div_unique with (r := c); lia. }
  assert (E2 : Z.rem ((b * R + r) * C + c) C = c).
  { rewrite Z.rem_mod_nonneg by lia.
    symmetry. apply Z.mod_unique with (q := b * R + r); lia. }
  assert (E3 : Z.quot (b * R + r) R = b).
  { rewrite Z.quot_div_nonneg by lia.
    symmetry. apply Z.div_unique with (r := r); lia. }
  assert (E4 : Z.rem (b * R + r) R = r).
  { rewrite Z.rem_mod_nonneg by lia.
    symmetry. apply Z.mod_unique with (q := b); lia. }
  cbv zeta. rewrite E1, E2, E3, E4. reflexivity.
Qed.

Lemma getCoordinates_index (R C id : Z) :
  0 < R -> 0 < C -> 0 <= id ->
  exists b r c, getCoordinates id R C = (b, r, c) /\
                0 <= b /\ 0 <= r < R /\ 0 <= c < C /\ id = (b * R + r) * C + c.
Proof.
  intros HR HC Hid.
  exists (id / C / R), ((id / C) mod R), (id mod C).
  assert (H1 : 0 <= id / C) by (apply Z.div_pos; lia).
  assert (H2 : 0 <= id / C / R) by (apply Z.div_pos; lia).
  pose proof (Z.mod_pos_bound id C HC).
  pose proof (Z.mod_pos_bound (id / C) R HR).
  pose proof (Z.div_mod id C ltac:(lia)).
  pose proof (Z.div_mod (id / C) R ltac:(lia)).
  split; [|repeat split; try lia; nia].
  unfold getCoordinates. cbv zeta.
  rewrite (Z.quot_div_nonneg id C) by lia.
  rewrite (Z.rem_mod_nonneg id C) by lia.
  rewrite (Z.quot_div_nonneg (id / C) R) by lia.
  rewrite (Z.rem_mod_nonneg (id / C) R) by lia.
  reflexivity.
Qed.

(** ** Loops *)

Lemma store_same {A : Type} (m : buffer A) (i : Z) (v : A) : store m i v i = v.
Proof. unfold store. now rewrite Z.eqb_refl. Qed.

Lemma store_other {A : Type} (m : buffer A) (i j : Z) (v : A) :
  j <> i -> store m i v j = m j.
Proof. unfold store. intros H. apply Z.eqb_neq in H. now rewrite H. Qed.

Lemma for_range_invariant {S : Type} (P : S -> Prop) (n : nat) (body : Z -> S -> S) (s : S) :
  P s ->
  (forall i t, 0 <= i < Z.of_nat n -> P t -> P (body i t)) ->
  P (for_range n body s).
Proof.
  intros H0 Hstep. induction n as [|n IH]; simpl; [assumption|].
  apply Hstep; [lia|]. apply IH. intros i t Hi. apply Hstep. lia.
Qed.

(** An observation that no iteration changes is unchanged by the loop. *)
Lemma for_range_untouched {S A : Type} (obs : S -> A) (n : nat) (body : Z -> S -> S) (s : S) :
  (forall i t, 0 <= i < Z.of_nat n -> obs (body i t) = obs t) ->
  obs (for_range n body s) = obs s.
Proof.
  intros H. apply (for_range_invariant (fun t => obs t = obs s)); [reflexivity|].
  intros i t Hi E. now rewrite H.
Qed.

(** An observation that exactly one iteration changes. *)
Lemma for_range_one {S A : Type} (obs : S -> A) (g : A -> A) (j : Z)
      (n : nat) (body : Z -> S -> S) (s : S) :
  0 <= j < Z.of_nat n ->
  (forall t, obs (body j t) = g (obs t)) ->
  (forall i t, 0 <= i < Z.of_nat n -> i <> j -> obs (body i t) = obs t) ->
  obs (for_range n body s) = g (obs s).
Proof.
  induction n as [|n IH]; intros Hj Hone Hother; [lia|]. simpl.
  destruct (Z.eq_dec j (Z.of_nat n)) as [->|Hne].
  - rewrite Hone. f_equal. apply for_range_untouched.
    intros i t Hi. apply Hother; lia.
  - rewrite Hother by lia. apply IH; [lia|assumption|].
    intros i t Hi. apply Hother. lia.
Qed.

Lemma for_range_ext {S : Type} (n : nat) (body body' : Z -> S -> S) (s : S) :
  (forall i t, 0 <= i < Z.of_nat n -> body i t = body' i t) ->
  for_range n body s = for_range n body' s.
Proof.
  induction n as [|n IH]; intros H; simpl; [reflexivity|].
  rewrite IH by (intros; apply H; lia). apply H. lia.
Qed.

Lemma for_range_app {S : Type} (n m : nat) (body : Z -> S -> S) (s : S) :
  for_range (n + m) body s =
  for_range m (fun j => body (Z.of_nat n + j)) (for_range n body s).
Proof.
  induction m as [|m IH]; simpl.
  - now rewrite Nat.add_0_r.
  - rewrite Nat.add_succ_r. simpl. rewrite IH. f_equal. lia.
Qed.

(** Two nested counting loops are one loop over the linear index. *)
Lemma nested_flatten {S : Type} (A B : Z) (f : Z -> Z -> S -> S) (s : S) :
  0 <= A -> 0 < B ->
  for_upto A (fun a s => for_upto B (fun b s => f a b s) s) s =
  for_upto (A * B) (fun j s => f (j / B) (j mod B) s) s.
Proof.
  intros HA HB. unfold for_upto.
  rewrite <- (Z2Nat.id A HA) at 2. generalize (Z.to_nat A) as a. clear A HA.
  induction a as [|a IH]; [reflexivity|]. simpl for_range at 1.
  replace (Z.to_nat (Z.of_nat (Datatypes.S a) * B))
    with (Z.to_nat (Z.of_nat a * B) + Z.to_nat B)%nat by lia.
  rewrite for_range_app, <- IH.
  apply for_range_ext. intros j t Hj.
  rewrite Z2Nat.id by lia.
  assert (E1 : (Z.of_nat a * B + j) / B = Z.of_nat a).
  { symmetry. apply Z.div_unique with (r := j); lia. }
  assert (E2 : (Z.of_nat a * B + j) mod B = j).
  { symmetry. apply Z.mod_unique with (q := Z.of_nat a); lia. }
  now rewrite E1, E2.
Qed.

(** ** The forward kernel *)

Section ForwardProofs.
Context {F : Type} {ops : Scalar F}.

Lemma computeTransformedPoints_thread
      (constTfms points masks : buffer F) (R C npoints K : Z) (ps ms ts : Strides)
      (bx dx tx b r c : Z) (out : buffer F) :
  bx * dx + tx < npoints ->
  getCoordinates (bx * dx + tx) R C = (b, r, c) ->
  computeTransformedPoints constTfms points masks R C npoints K ps ms ts bx dx tx out =
  let t := forward_value constTfms points masks K ps ms ts b r c in
  store (store (store out (offset ps b 0 r c) (vx t)) (offset ps b 1 r c) (vy t))
        (offset ps b 2 r c) (vz t).
Proof.
  intros Hlt Hco. unfold computeTransformedPoints.
  apply Z.leb_gt in Hlt. rewrite Hlt, Hco. reflexivity.
Qed.

Lemma computeTransformedPoints_idle
      (constTfms points masks : buffer F) (R C npoints K : Z) (ps ms ts : Strides)
      (bx dx tx : Z) (out : buffer F) :
  npoints <= bx * dx + tx ->
  computeTransformedPoints constTfms points masks R C npoints K ps ms ts bx dx tx out = out.
Proof.
  intros Hge. unfold computeTransformedPoints.
  apply Z.leb_le in Hge. now rewrite Hge.
Qed.

(** Reading back the three stores of a thread. *)
Lemma three_stores_hit (n0 n1 n2 n3 b r c i : Z) (t : vec3 F) (out : buffer F) :
  n1 = 3 -> 0 <= r < n2 -> 0 <= c < n3 -> 0 <= i < 3 ->
  let s := contiguous n0 n1 n2 n3 in
  store (store (store out (offset s b 0 r c) (vx t)) (offset s b 1 r c) (vy t))
        (offset s b 2 r c) (vz t) (offset s b i r c) = vget t i.
Proof.
  intros -> Hr Hc Hi s.
  assert (Hne : forall i j, 0 <= i < 3 -> 0 <= j < 3 -> i <> j ->
                            offset s b i r c <> offset s b j r c).
  { intros i' j' Hi' Hj' Hij E.
    apply offset_contiguous_inj in E; lia. }
  unfold vget.
  assert (Hcase : i = 0 \/ i = 1 \/ i = 2) by lia.
  destruct Hcase as [-> | [-> | ->]]; simpl.
  - rewrite store_other, store_other, store_same by (apply Hne; lia). reflexivity.
  - rewrite store_other, store_same by (apply Hne; lia). reflexivity.
  - rewrite store_same. reflexivity.
Qed.

Lemma three_stores_miss (s : Strides) (b r c a : Z) (t : vec3 F) (out : buffer F) :
  (forall i, 0 <= i < 3 -> a <> offset s b i r c) ->
  store (store (store out (offset s b 0 r c) (vx t)) (offset s b 1 r c) (vy t))
        (offset s b 2 r c) (vz t) a = out a.
Proof.
  intros H. rewrite !store_other by (apply H; lia). reflexivity.
Qed.

(** The grid of the forward launch leaves in every cell of the output what the
    thread of that cell computed. *)
Lemma forward_launch_cell
      (constTfms points masks out : buffer F) (B R C K : Z) (ms ts : Strides)
      (b r c i : Z) :
  0 <= b < B -> 0 <= r < R -> 0 <= c < C -> 0 <= i < 3 ->
  let ps := contiguous B 3 R C in
  launch_1d (ceil_div (B * R * C) 256) 256
    (computeTransformedPoints constTfms points masks R C (B * R * C) K ps ms ts) out
    (offset ps b i r c)
  = vget (forward_value constTfms points masks K ps ms ts b r c) i.
Proof.
  intros Hb Hr Hc Hi ps.
  assert (HRC : 0 < R * C) by nia.
  assert (Hn : 0 <= B * R * C) by nia.
  unfold launch_1d.
  rewrite nested_flatten by (try apply ceil_div_nonneg; lia).
  unfold for_upto.
  pose (id0 := (b * R + r) * C + c).
  assert (Hid0 : 0 <= id0 < B * R * C) by (unfold id0; nia).
  pose proof (ceil_div_covers (B * R * C) 256 ltac:(lia) Hn) as Hcov.
  pose proof (ceil_div_nonneg (B * R * C) 256 ltac:(lia) Hn) as Hnb.
  assert (Hsame : forall j, j / 256 * 256 + j mod 256 = j).
  { intros j. pose proof (Z.div_mod j 256 ltac:(lia)). lia. }
  apply (for_range_one (fun m : buffer F => m (offset ps b i r c))
           (fun _ => vget (forward_value constTfms points masks K ps ms ts b r c) i) id0).
  - lia.
  - intros t.
    rewrite (computeTransformedPoints_thread _ _ _ _ _ _ _ _ _ _ _ _ _ b r c).
    + cbv zeta. apply three_stores_hit; auto.
    + rewrite Hsame. lia.
    + rewrite Hsame. apply getCoordinates_cell; lia.
  - intros j t Hj Hne.
    destruct (Z_lt_ge_dec j (B * R * C)) as [Hlt | Hge].
    + destruct (getCoordinates_index R C j ltac:(lia) ltac:(lia) ltac:(lia))
        as (b' & r' & c' & Hco & Hb' & Hr' & Hc' & Ej).
      rewrite (computeTransformedPoints_thread _ _ _ _ _ _ _ _ _ _ _ _ _ b' r' c')
        by (rewrite ?Hsame; auto).
      cbv zeta. apply three_stores_miss. intros i' Hi' E.
      apply offset_contiguous_inj in E; [|lia..].
      destruct E as (Eb & _ & Er & Ec). apply Hne. unfold id0. rewrite Eb, Er, Ec. exact Ej.
    + rewrite computeTransformedPoints_idle by (rewrite Hsame; lia). reflexivity.
Qed.

End ForwardProofs.

(** ** The forward launcher on valid inputs *)

Lemma cast_points_strides (B R C : Z) :
  1 <= B -> 1 <= R -> 1 <= C -> B * 3 * R * C <= INT_MAX ->
  cast_strides (contiguous B 3 R C) = contiguous B 3 R C.
Proof.
  intros HB HR HC Hmax. unfold cast_strides, contiguous; cbn [st0 st1 st2 st3].
  assert (H1 : 1 <= R * C) by nia.
  assert (H2 : 3 * R * C <= B * 3 * R * C).
  { replace (B * 3 * R * C) with (B * (3 * R * C)) by ring. nia. }
  assert (H3 : R * C <= 3 * R * C).
  { replace (3 * R * C) with (3 * (R * C)) by ring. lia. }
  assert (H4 : C <= R * C) by nia.
  rewrite !to_int_small by (unfold INT_MAX in *; lia). reflexivity.
Qed.

Lemma cast_masks_strides (B K R C : Z) :
  1 <= B -> 0 <= K -> 1 <= R -> 1 <= C ->
  B * 3 * R * C <= INT_MAX -> B * K * R * C <= INT_MAX ->
  cast_strides (contiguous B K R C) = contiguous B K R C.
Proof.
  intros HB HK HR HC Hmax Hmax'. unfold cast_strides, contiguous; cbn [st0 st1 st2 st3].
  assert (H1 : 1 <= R * C) by nia.
  assert (H2 : 3 * R * C <= B * 3 * R * C).
  { replace (B * 3 * R * C) with (B * (3 * R * C)) by ring. nia. }
  assert (H3 : R * C <= 3 * R * C).
  { replace (3 * R * C) with (3 * (R * C)) by ring. lia. }
  assert (H4 : C <= R * C) by nia.
  assert (H5 : 0 <= K * R * C).
  { replace (K * R * C) with (K * (R * C)) by ring. nia. }
  assert (H6 : K * R * C <= B * K * R * C).
  { replace (B * K * R * C) with (B * (K * R * C)) by ring. nia. }
  rewrite !to_int_small by (unfold INT_MAX in *; lia). reflexivity.
Qed.

Section ForwardLauncherProofs.
Context {F : Type} {ops : Scalar F}.

Lemma staged_transforms (constTfms tfms : buffer F) (n : Z) :
  0 <= n <= 15000 ->
  exists c, cudaMemcpyToSymbol constTfms tfms n = Done c /\
            forall i, 0 <= i < n -> c i = tfms i.
Proof.
  intros Hn. unfold cudaMemcpyToSymbol.
  replace ((0 <=? n) && (n <=? 15000)) with true
    by (symmetry; apply andb_true_iff; split; apply Z.leb_le; lia).
  eexists. split; [reflexivity|].
  intros i Hi. cbv beta.
  replace ((0 <=? i) && (i <? n)) with true; [reflexivity|].
  symmetry; apply andb_true_iff; split; [apply Z.leb_le|apply Z.ltb_lt]; lia.
Qed.

Lemma transform_index_bound (B K b k i : Z) :
  0 <= b < B -> 0 <= k < K -> 0 <= i < 12 ->
  0 <= b * (K * 12) + k * 12 + i < B * K * 12.
Proof. intros Hb Hk Hi. nia. Qed.

Lemma forward_value_in_order
      (c tfms points masks : buffer F) (B R C K : Z) (ts : Strides) (b r cc : Z) :
  0 <= b < B -> 0 <= K ->
  st0 ts = K * 12 -> st1 ts = 12 ->
  (forall i, 0 <= i < B * K * 12 -> c i = tfms i) ->
  forward_value c points masks K (contiguous B 3 R C) (contiguous B K R C) ts b r cc =
  blend_in_order (point_at points (contiguous B 3 R C) b r cc)
    (fun k => masks (offset (contiguous B K R C) b k r cc))
    (fun k => tfm_at tfms K b k) (Z.to_nat K).
Proof.
  intros Hb HK E0 E1 Hc. unfold forward_value, blend_in_order, for_upto. cbv zeta.
  apply for_range_ext. intros k acc Hk.
  unfold blend_step, vadd, vscale, vsub, rotate, translate, tfm_at, offset. cbn [vx vy vz].
  rewrite E0, E1.
  rewrite !Hc by (apply transform_index_bound; lia).
  reflexivity.
Qed.

(** On a valid input the forward launcher succeeds and leaves at cell
    [(b, r, c)] the in-order value.  No law of arithmetic is used. *)
Lemma forward_launcher_in_order
      (constTfms points masks tfms tfmpoints : buffer F) (B R C K : Z) (ts : Strides)
      (b r c : Z) :
  0 <= K -> 0 <= b < B -> 0 <= r < R -> 0 <= c < C ->
  B * 3 * R * C <= INT_MAX -> B * K * R * C <= INT_MAX -> B * K * 12 <= 15000 ->
  st0 ts = K * 12 -> st1 ts = 12 ->
  exists out,
    NTfm3D_ForwardLauncher constTfms points masks tfms tfmpoints B 3 R C K (B * K * 12)
      (contiguous B 3 R C) (contiguous B K R C) ts = Done out /\
    point_at out (contiguous B 3 R C) b r c =
    blend_in_order (point_at points (contiguous B 3 R C) b r c)
      (fun k => masks (offset (contiguous B K R C) b k r c))
      (fun k => tfm_at tfms K b k) (Z.to_nat K).
Proof.
  intros HK Hb Hr Hc Hmax Hmax' Hcap E0 E1.
  assert (HBK : 0 <= B * K * 12) by nia.
  destruct (staged_transforms constTfms tfms (B * K * 12) ltac:(lia)) as (cst & Est & Hcst).
  unfold NTfm3D_ForwardLauncher. rewrite Est.
  eexists. split; [reflexivity|].
  rewrite cast_points_strides, cast_masks_strides by lia.
  assert (Hts0 : st0 (cast_strides ts) = K * 12).
  { unfold cast_strides; cbn [st0]. rewrite E0. apply to_int_small. unfold INT_MAX. nia. }
  assert (Hts1 : st1 (cast_strides ts) = 12).
  { unfold cast_strides; cbn [st1]. rewrite E1. reflexivity. }
  rewrite <- (forward_value_in_order cst tfms points masks B R C K (cast_strides ts) b r c)
    by auto.
  unfold point_at at 1.
  rewrite !forward_launch_cell by lia.
  generalize (forward_value cst points masks K (contiguous B 3 R C)
                (contiguous B K R C) (cast_strides ts) b r c).
  intros [x y z]. reflexivity.
Qed.

End ForwardLauncherProofs.

(** ** Sums over an exact scalar *)

Section ExactSums.
Context {F : Type} {ops : Scalar F} (Hexact : exact_scalar F).
Let scalar_ring_theory : ring_theory fzero fone fadd fmul fsub fopp (@eq F) := Hexact.
Add Ring scalar_ring : scalar_ring_theory.

Lemma sum_upto_ext (n : nat) (f g : Z -> F) :
  (forall i, 0 <= i < Z.of_nat n -> f i = g i) -> sum_upto n f = sum_upto n g.
Proof.
  induction n as [|n IH]; intros H; simpl; [reflexivity|].
  rewrite IH by (intros; apply H; lia). rewrite H by lia. reflexivity.
Qed.

Lemma sum_upto_zero (n : nat) (f : Z -> F) :
  (forall i, 0 <= i < Z.of_nat n -> f i = fzero) -> sum_upto n f = fzero.
Proof.
  induction n as [|n IH]; intros H; simpl; [reflexivity|].
  rewrite IH by (intros; apply H; lia). rewrite H by lia. ring.
Qed.

Lemma sum_upto_add (n : nat) (f g : Z -> F) :
  sum_upto n (fun i => fadd (f i) (g i)) = fadd (sum_upto n f) (sum_upto n g).
Proof.
  induction n as [|n IH]; simpl; [ring|]. rewrite IH. ring.
Qed.

Lemma sum_upto_app (n m : nat) (f : Z -> F) :
  sum_upto (n + m) f = fadd (sum_upto n f) (sum_upto m (fun j => f (Z.of_nat n + j))).
Proof.
  induction m as [|m IH]; simpl.
  - rewrite Nat.add_0_r. ring.
  - rewrite Nat.add_succ_r. simpl. rewrite IH.
    replace (Z.of_nat (n + m)) with (Z.of_nat n + Z.of_nat m) by lia. ring.
Qed.

(** The kernel's running sum is the specification's sum. *)
Lemma blend_in_order_blend (p : vec3 F) (w : Z -> F) (T : Z -> tfm) (K : nat) :
  blend_in_order p w T K = blend p w T K.
Proof.
  unfold blend_in_order, blend.
  induction K as [|K IH]; simpl.
  - unfold vadd, vsum; simpl. destruct p; simpl. f_equal; ring.
  - rewrite IH. unfold vadd, vsum; simpl. f_equal; ring.
Qed.

End ExactSums.

(** ** The specification's concrete scenario, over the integers *)

Lemma Z_exact : exact_scalar Z.
Proof. exact Zth. Qed.

(** C1.  For every valid input (points B x 3 x R x C, masks B x K x R x C,
    transforms B x K x 12, sizes within the [int] range and the constant-memory
    capacity) and every cell (b, r, c), the forward launcher succeeds and the
    output point at the cell is [p + sum_{k<K} w_k * (R_k p + t_k - p)], where
    [p] is the input point of the cell, [w_k] its k-th mask weight and
    [R_k], [t_k] the linear and translation parts of transform k of batch b. *)
Theorem forward_output_is_blend
        {F : Type} {ops : Scalar F} (Hexact : exact_scalar F)
        (constTfms points masks tfms tfmpoints : buffer F) (B R C K : Z) (ts : Strides)
        (b r c : Z) :
  0 <= K -> 0 <= b < B -> 0 <= r < R -> 0 <= c < C ->
  B * 3 * R * C <= INT_MAX -> B * K * R * C <= INT_MAX -> B * K * 12 <= 15000 ->
  st0 ts = K * 12 -> st1 ts = 12 ->
  exists out,
    NTfm3D_ForwardLauncher constTfms points masks tfms tfmpoints B 3 R C K (B * K * 12)
      (contiguous B 3 R C) (contiguous B K R C) ts = Done out /\
    point_at out (contiguous B 3 R C) b r c =
    blend (point_at points (contiguous B 3 R C) b r c)
      (fun k => masks (offset (contiguous B K R C) b k r c))
      (fun k => tfm_at tfms K b k) (Z.to_nat K).
Proof.
  intros HK Hb Hr Hc Hmax Hmax' Hcap E0 E1.
  destruct (forward_launcher_in_order constTfms points masks tfms tfmpoints B R C K ts b r c)
    as (out & Eout & Hout); auto.
  exists out. split; [exact Eout|].
  rewrite Hout. apply blend_in_order_blend. exact Hexact.
Qed.

Lemma forward_output_is_blend_witness :
  exists out,
    NTfm3D_ForwardLauncher zero_buffer scenario_points scenario_masks scenario_tfms zero_buffer
      1 3 1 1 1 (1 * 1 * 12) (contiguous 1 3 1 1) (contiguous 1 1 1 1) scenario_ts = Done out /\
    point_at out (contiguous 1 3 1 1) 0 0 0 =
    blend (point_at scenario_points (contiguous 1 3 1 1) 0 0 0)
      (fun k => scenario_masks (offset (contiguous 1 1 1 1) 0 k 0 0))
      (fun k => tfm_at scenario_tfms 1 0 k) (Z.to_nat 1).
Proof.
  apply (forward_output_is_blend Z_exact); unfold INT_MAX; try lia; reflexivity.
Defined.

(** ** IEEE binary32 *)

Section Binary32Proofs.

Lemma SFcompare_refl (x : binary32) : is_finite32 x = true -> SFeqb x x = true.
Proof.
  destruct x as [s | s | | s m e]; simpl; try discriminate; intros _; unfold SFeqb; simpl.
  - reflexivity.
  - rewrite Z.compare_refl, Pos.compare_cont_refl. destruct s; reflexivity.
Qed.

Lemma holds32_eqb (x p : binary32) : holds32 x p -> SFeqb x p = true.
Proof.
  destruct p as [s | s | | s m e]; simpl; try contradiction.
  - destruct x; simpl; try discriminate. reflexivity.
  - intros ->. apply SFcompare_refl. reflexivity.
Qed.

Lemma holds32_self (p : binary32) : is_finite32 p = true -> holds32 p p.
Proof. destruct p; simpl; try discriminate; auto. Qed.

Lemma mul_zero_finite (w d : binary32) :
  is_zero32 w = true -> is_finite32 d = true -> is_zero32 (fmul w d) = true.
Proof.
  destruct w; simpl; try discriminate. destruct d; simpl; try discriminate; auto.
Qed.

Lemma add_zero_holds (x z p : binary32) :
  holds32 x p -> is_zero32 z = true -> holds32 (fadd x z) p.
Proof.
  destruct z as [sz | | |]; simpl; try discriminate. intros H _.
  destruct p as [s | s | | s m e]; simpl in *; try contradiction.
  - destruct x as [sx | | |]; simpl in *; try discriminate.
    destruct sx, sz; reflexivity.
  - subst x. reflexivity.
Qed.

(** With zero weights and finite displacements the running value keeps holding
    the input point. *)
Lemma blend_in_order_zero_weights (p : vec3 binary32) (w : Z -> binary32)
      (T : Z -> tfm) (K : nat) :
  (forall k, 0 <= k < Z.of_nat K -> is_zero32 (w k) = true) ->
  (forall k i, 0 <= k < Z.of_nat K -> 0 <= i < 3 ->
     is_finite32 (vget (vsub (vadd (rotate (T k) p) (translate (T k))) p) i) = true) ->
  is_finite32 (vx p) = true -> is_finite32 (vy p) = true -> is_finite32 (vz p) = true ->
  let t := blend_in_order p w T K in
  holds32 (vx t) (vx p) /\ holds32 (vy t) (vy p) /\ holds32 (vz t) (vz p).
Proof.
  intros Hw Hd Hx Hy Hz. unfold blend_in_order.
  induction K as [|K IH].
  - simpl. auto using holds32_self.
  - destruct IH as (Ix & Iy & Iz).
    { intros k Hk. apply Hw. lia. }
    { intros k i Hk Hi. apply Hd; lia. }
    assert (HK : 0 <= Z.of_nat K < Z.of_nat (Datatypes.S K)) by lia.
    pose proof (Hd _ 0 HK ltac:(lia)) as D0.
    pose proof (Hd _ 1 HK ltac:(lia)) as D1.
    pose proof (Hd _ 2 HK ltac:(lia)) as D2.
    unfold vget in D0, D1, D2. simpl in D0, D1, D2.
    simpl for_range. cbv zeta. unfold vadd at 1 4 7, vscale. cbn [vx vy vz].
    repeat split; apply add_zero_holds; auto; apply mul_zero_finite; auto.
Qed.

End Binary32Proofs.

(** C7, as stated, fails in binary32: every weight is zero and every point and
    transform value is finite, yet the product [T[0] * x] overflows to
    infinity, [0 * infinity] is a NaN, and the output differs from the input. *)
Lemma zero_weights_overflow_counterexample :
  (forall i, is_zero32 (overflow_masks i) = true) /\
  (forall i, is_finite32 (overflow_points i) = true) /\
  (forall i, is_finite32 (overflow_tfms i) = true) /\
  exists out,
    NTfm3D_ForwardLauncher (fun _ => S754_zero false) overflow_points overflow_masks
      overflow_tfms (fun _ => S754_zero false) 1 3 1 1 1 12
      (contiguous 1 3 1 1) (contiguous 1 1 1 1) scenario_ts = Done out /\
    out (offset (contiguous 1 3 1 1) 0 0 0 0) = S754_nan /\
    SFeqb (out (offset (contiguous 1 3 1 1) 0 0 0 0))
          (overflow_points (offset (contiguous 1 3 1 1) 0 0 0 0)) = false.
Proof.
  split; [reflexivity|].
  split; [intros i; unfold overflow_points; destruct (i =? 0); reflexivity|].
  split; [intros i; unfold overflow_tfms; destruct (i =? 0); reflexivity|].
  eexists. split; [reflexivity|].
  split; vm_compute; reflexivity.
Qed.

(** C7 (amended).  For every valid input in which every mask weight is zero,
    every point value is finite and every displacement [R_k p + t_k - p]
    evaluates to a finite float, the forward launcher succeeds and the output
    equals the input point field: [out[b,:,r,c] == points[b,:,r,c]] for every
    cell. *)
Theorem zero_weights_identity
        (constTfms points masks tfms tfmpoints : buffer binary32) (B R C K : Z) (ts : Strides) :
  0 <= B -> 0 <= K ->
  B * 3 * R * C <= INT_MAX -> B * K * R * C <= INT_MAX -> B * K * 12 <= 15000 ->
  st0 ts = K * 12 -> st1 ts = 12 ->
  (forall b k r c, 0 <= b < B -> 0 <= k < K -> 0 <= r < R -> 0 <= c < C ->
     is_zero32 (masks (offset (contiguous B K R C) b k r c)) = true) ->
  (forall b i r c, 0 <= b < B -> 0 <= i < 3 -> 0 <= r < R -> 0 <= c < C ->
     is_finite32 (points (offset (contiguous B 3 R C) b i r c)) = true) ->
  (forall b k r c i, 0 <= b < B -> 0 <= k < K -> 0 <= r < R -> 0 <= c < C -> 0 <= i < 3 ->
     let p := point_at points (contiguous B 3 R C) b r c in
     let T := tfm_at tfms K b k in
     is_finite32 (vget (vsub (vadd (rotate T p) (translate T)) p) i) = true) ->
  exists out,
    NTfm3D_ForwardLauncher constTfms points masks tfms tfmpoints B 3 R C K (B * K * 12)
      (contiguous B 3 R C) (contiguous B K R C) ts = Done out /\
    forall b i r c, 0 <= b < B -> 0 <= i < 3 -> 0 <= r < R -> 0 <= c < C ->
      SFeqb (out (offset (contiguous B 3 R C) b i r c))
            (points (offset (contiguous B 3 R C) b i r c)) = true.
Proof.
  intros HB HK Hmax Hmax' Hcap E0 E1 Hw Hp Hd.
  assert (HBK : 0 <= B * K * 12) by nia.
  destruct (staged_transforms constTfms tfms (B * K * 12) ltac:(lia)) as (cst & Est & _).
  assert (Hex : exists out,
             NTfm3D_ForwardLauncher constTfms points masks tfms tfmpoints B 3 R C K
               (B * K * 12) (contiguous B 3 R C) (contiguous B K R C) ts = Done out).
  { unfold NTfm3D_ForwardLauncher. rewrite Est. eexists. reflexivity. }
  destruct Hex as (out & Eout). exists out. split; [exact Eout|].
  intros b i r c Hb Hi Hr Hc.
  destruct (forward_launcher_in_order constTfms points masks tfms tfmpoints B R C K ts b r c)
    as (out' & Eout' & Hout); auto.
  rewrite Eout in Eout'. injection Eout' as <-.
  pose proof (blend_in_order_zero_weights
                (point_at points (contiguous B 3 R C) b r c)
                (fun k => masks (offset (contiguous B K R C) b k r c))
                (fun k => tfm_at tfms K b k) (Z.to_nat K)) as Hz.
  cbv zeta in Hz. rewrite <- Hout in Hz.
  destruct Hz as (Zx & Zy & Zz).
  - intros k Hk. apply Hw; lia.
  - intros k j Hk Hj. apply (Hd b k r c j); lia.
  - apply (Hp b 0 r c); lia.
  - apply (Hp b 1 r c); lia.
  - apply (Hp b 2 r c); lia.
  - apply holds32_eqb.
    assert (Hcase : i = 0 \/ i = 1 \/ i = 2) by lia.
    destruct Hcase as [-> | [-> | ->]]; assumption.
Qed.

Lemma zero_weights_identity_witness :
  exists out,
    NTfm3D_ForwardLauncher (fun _ => S754_zero false)
      (fun _ => fone) (fun _ => S754_zero true) (fun _ => fone) (fun _ => S754_zero false)
      1 3 1 1 1 (1 * 1 * 12) (contiguous 1 3 1 1) (contiguous 1 1 1 1) scenario_ts = Done out /\
    forall b i r c, 0 <= b < 1 -> 0 <= i < 3 -> 0 <= r < 1 -> 0 <= c < 1 ->
      SFeqb (out (offset (contiguous 1 3 1 1) b i r c))
            ((fun _ : Z => @fone binary32 _) (offset (contiguous 1 3 1 1) b i r c)) = true.
Proof.
  apply (zero_weights_identity (fun _ => S754_zero false)
           (fun _ => fone) (fun _ => S754_zero true) (fun _ => fone) (fun _ => S754_zero false)
           1 1 1 1 scenario_ts);
    unfold INT_MAX; try lia; try reflexivity.
  intros b k r c i Hb Hk Hr Hc Hi.
  assert (Hcase : i = 0 \/ i = 1 \/ i = 2) by lia.
  destruct Hcase as [-> | [-> | ->]]; vm_compute; reflexivity.
Defined.

(** ** More on loops *)

(** An observation that every iteration updates by a function of itself. *)
Lemma for_range_obs {S A : Type} (obs : S -> A) (h : Z -> A -> A)
      (n : nat) (body : Z -> S -> S) (s : S) :
  (forall i t, 0 <= i < Z.of_nat n -> obs (body i t) = h i (obs t)) ->
  obs (for_range n body s) = for_range n h (obs s).
Proof.
  induction n as [|n IH]; intros H; simpl; [reflexivity|].
  rewrite H by lia. f_equal. apply IH. intros i t Hi. apply H. lia.
Qed.

Lemma for_upto_untouched {S A : Type} (obs : S -> A) (n : Z) (body : Z -> S -> S) (s : S) :
  (forall i t, 0 <= i < n -> obs (body i t) = obs t) ->
  obs (for_upto n body s) = obs s.
Proof.
  intros H. unfold for_upto. apply for_range_untouched.
  intros i t Hi. apply H. lia.
Qed.

Lemma for_upto_one {S A : Type} (obs : S -> A) (g : A -> A) (j n : Z)
      (body : Z -> S -> S) (s : S) :
  0 <= j < n ->
  (forall t, obs (body j t) = g (obs t)) ->
  (forall i t, 0 <= i < n -> i <> j -> obs (body i t) = obs t) ->
  obs (for_upto n body s) = g (obs s).
Proof.
  intros Hj H1 H2. unfold for_upto. apply for_range_one with (j := j); auto; try lia.
  intros i t Hi. apply H2. lia.
Qed.

(** Two nested loops in which one iteration changes the observation. *)
Lemma nest2_untouched {S A : Type} (obs : S -> A) (ny nx : Z)
      (body : Z -> Z -> S -> S) (s : S) :
  (forall x y t, 0 <= x < nx -> 0 <= y < ny -> obs (body x y t) = obs t) ->
  obs (for_upto ny (fun y s => for_upto nx (fun x s => body x y s) s) s) = obs s.
Proof.
  intros H. apply for_upto_untouched. intros y t Hy.
  apply for_upto_untouched. intros x t' Hx. now apply H.
Qed.

Lemma nest2_one {S A : Type} (obs : S -> A) (g : A -> A) (x0 y0 ny nx : Z)
      (body : Z -> Z -> S -> S) (s : S) :
  0 <= x0 < nx -> 0 <= y0 < ny ->
  (forall t, obs (body x0 y0 t) = g (obs t)) ->
  (forall x y t, 0 <= x < nx -> 0 <= y < ny -> (x <> x0 \/ y <> y0) ->
                 obs (body x y t) = obs t) ->
  obs (for_upto ny (fun y s => for_upto nx (fun x s => body x y s) s) s) = g (obs s).
Proof.
  intros Hx Hy H1 H2. apply for_upto_one with (j := y0); [exact Hy| |].
  - intros t. apply for_upto_one with (j := x0); [exact Hx|exact H1|].
    intros x t' Hx' Hne. apply H2; [exact Hx'|exact Hy|left; exact Hne].
  - intros y t Hy' Hne. apply for_upto_untouched.
    intros x t' Hx'. apply H2; [exact Hx'|exact Hy'|right; exact Hne].
Qed.

(** A loop with stride [step] visits [start], [start + step], ... *)
Lemma strided_loop_range {S : Type} (fuel : nat) (i bound step : Z)
      (body : Z -> S -> S) (s : S) :
  0 < step ->
  (Z.to_nat (ceil_div (bound - i) step) <= fuel)%nat ->
  strided_loop fuel i bound step body s =
  for_range (Z.to_nat (ceil_div (bound - i) step)) (fun q => body (i + q * step)) s.
Proof.
  intros Hstep. revert i s.
  induction fuel as [|fuel IH]; intros i s Hfuel.
  - replace (Z.to_nat (ceil_div (bound - i) step)) with 0%nat by lia. reflexivity.
  - simpl. destruct (i <? bound) eqn:Hlt.
    + apply Z.ltb_lt in Hlt.
      assert (Hc : ceil_div (bound - i) step = 1 + ceil_div (bound - (i + step)) step).
      { unfold ceil_div.
        replace (bound - i + step - 1) with (1 * step + (bound - (i + step) + step - 1)) by lia.
        rewrite Z.div_add_l by lia. reflexivity. }
      assert (Hnn : 0 <= ceil_div (bound - (i + step)) step).
      { unfold ceil_div. apply Z.div_pos; lia. }
      rewrite Hc in *.
      replace (Z.to_nat (1 + ceil_div (bound - (i + step)) step))
        with (1 + Z.to_nat (ceil_div (bound - (i + step)) step))%nat in * by lia.
      rewrite for_range_app.
      change (for_range 1 (fun q => body (i + q * step)) s) with (body (i + 0 * step) s).
      replace (i + 0 * step) with i by lia.
      rewrite IH by lia.
      apply for_range_ext. intros q t Hq. f_equal.
      change (Z.of_nat 1) with 1. lia.
    + apply Z.ltb_ge in Hlt.
      assert (Hc : ceil_div (bound - i) step <= 0).
      { unfold ceil_div.
        destruct (Z_le_gt_dec (bound - i + step - 1) (-1)) as [Hneg | Hpos].
        - pose proof (Z.div_le_upper_bound (bound - i + step - 1) step (-1) Hstep).
          assert ((bound - i + step - 1) / step < 0) by (apply Z.div_lt_upper_bound; lia).
          lia.
        - rewrite Z.div_small by lia. lia. }
      replace (Z.to_nat (ceil_div (bound - i) step)) with 0%nat by lia. reflexivity.
Qed.

Lemma for_strided_range {S : Type} (start bound step : Z) (body : Z -> S -> S) (s : S) :
  0 < step ->
  for_strided start bound step body s =
  for_range (Z.to_nat (ceil_div (bound - start) step)) (fun q => body (start + q * step)) s.
Proof.
  intros Hstep. unfold for_strided. apply strided_loop_range; [assumption|].
  unfold ceil_div.
  destruct (Z_le_gt_dec (bound - start) 0) as [Hneg | Hpos].
  - assert ((bound - start + step - 1) / step <= 0).
    { destruct (Z_le_gt_dec (bound - start + step - 1) (-1)).
      - assert ((bound - start + step - 1) / step < 0) by (apply Z.div_lt_upper_bound; lia).
        lia.
      - rewrite Z.div_small by lia. lia. }
    lia.
  - assert ((bound - start + step - 1) / step <= bound - start).
    { apply Z.div_le_upper_bound; [lia|]. nia. }
    lia.
Qed.

Lemma for_loop_untouched {S A : Type} (obs : S -> A) (lo hi : Z) (body : Z -> S -> S) (s : S) :
  (forall i t, lo <= i < hi -> obs (body i t) = obs t) ->
  obs (for_loop lo hi body s) = obs s.
Proof.
  intros H. unfold for_loop. apply for_range_untouched.
  intros j t Hj. apply H. lia.
Qed.

Lemma for_loop_one {S A : Type} (obs : S -> A) (g : A -> A) (j lo hi : Z)
      (body : Z -> S -> S) (s : S) :
  lo <= j < hi ->
  (forall t, obs (body j t) = g (obs t)) ->
  (forall i t, lo <= i < hi -> i <> j -> obs (body i t) = obs t) ->
  obs (for_loop lo hi body s) = g (obs s).
Proof.
  intros Hj H1 H2. unfold for_loop.
  apply for_range_one with (j := j - lo); try lia.
  - intros t. replace (lo + (j - lo)) with j by lia. apply H1.
  - intros i t Hi Hne. apply H2; lia.
Qed.

(** ** The backward kernel: one block *)

Section BackwardBlock.
Context {F : Type} {ops : Scalar F}.
Variables (constTfms points masks gradTfmpoints : buffer F).
Variables (R C K : Z) (ps ms ts : Strides).
Variables (bx by_ bz dx dy : Z).
Hypothesis Hdx : 0 < dx.
Hypothesis Hdy : 0 < dy.

Local Abbreviation cell_entry := (cell_entry points masks gradTfmpoints ps ms).
Local Abbreviation masked_entry := (masked_entry points masks gradTfmpoints R C ps ms).

Lemma nThreads_pos : 0 < dx * dy.
Proof. nia. Qed.

Lemma tid_range (tx ty : Z) : 0 <= tx < dx -> 0 <= ty < dy -> 0 <= tx + ty * dx < dx * dy.
Proof. intros Hx Hy. nia. Qed.

Lemma tid_unique (tx ty tx' ty' : Z) :
  0 <= tx < dx -> 0 <= tx' < dx -> tx + ty * dx = tx' + ty' * dx -> tx = tx' /\ ty = ty'.
Proof.
  intros Hx Hx' E.
  destruct (radix_unique dx ty tx ty' tx') as [E1 E2]; auto; lia.
Qed.

Lemma slot_unique (i tid i' tid' : Z) :
  0 <= tid < dx * dy -> 0 <= tid' < dx * dy ->
  i * (dx * dy) + tid = i' * (dx * dy) + tid' -> i = i' /\ tid = tid'.
Proof. intros H H' E. apply radix_unique with (n := dx * dy); auto. Qed.

Lemma zero_loop_count (tid : Z) :
  0 <= tid < dx * dy -> ceil_div (dx * dy * 12 - tid) (dx * dy) = 12.
Proof.
  intros Ht. unfold ceil_div. symmetry.
  apply Z.div_unique with (r := dx * dy - 1 - tid); lia.
Qed.

(** Shared memory after the first phase of pass [k], thread by thread. *)
Lemma grad_step_shared_hit (k tx ty i : Z) (st : BlockState F) :
  0 <= tx < dx -> 0 <= ty < dy -> 0 <= i < 12 ->
  sharedData (grad_step constTfms points masks gradTfmpoints R C ps ms ts
                bx by_ bz dx dy k tx ty st) (i * (dx * dy) + (tx + ty * dx))
  = masked_entry bz k (by_ * dy + ty) (bx * dx + tx) i.
Proof.
  intros Hx Hy Hi. pose proof nThreads_pos as HnT. pose proof (tid_range tx ty Hx Hy) as Ht.
  unfold grad_step, masked_entry. cbv zeta.
  destruct ((bx * dx + tx <? C) && (by_ * dy + ty <? R)); cbn [sharedData].
  - unfold cell_entry, tfm_grad_entry, point_at, offset. cbn [vx vy vz].
    assert (Hcase : i = 0 \/ i = 1 \/ i = 2 \/ i = 3 \/ i = 4 \/ i = 5 \/ i = 6 \/
                    i = 7 \/ i = 8 \/ i = 9 \/ i = 10 \/ i = 11) by lia.
    repeat (destruct Hcase as [-> | Hcase]); [.. | subst i];
      repeat first [ rewrite store_same | rewrite store_other by lia ]; reflexivity.
  - rewrite for_strided_range by exact HnT.
    rewrite zero_loop_count by exact Ht.
    apply (for_range_one (fun sh : buffer F => sh (i * (dx * dy) + (tx + ty * dx)))
             (fun _ => fzero) i).
    + lia.
    + intros t. replace (tx + ty * dx + i * (dx * dy)) with (i * (dx * dy) + (tx + ty * dx))
        by lia. apply store_same.
    + intros q t Hq Hne. apply store_other. nia.
Qed.

Lemma grad_step_shared_miss (k tx ty a : Z) (st : BlockState F) :
  0 <= tx < dx -> 0 <= ty < dy ->
  (forall i, 0 <= i < 12 -> a <> i * (dx * dy) + (tx + ty * dx)) ->
  sharedData (grad_step constTfms points masks gradTfmpoints R C ps ms ts
                bx by_ bz dx dy k tx ty st) a = sharedData st a.
Proof.
  intros Hx Hy Ha. pose proof nThreads_pos as HnT. pose proof (tid_range tx ty Hx Hy) as Ht.
  unfold grad_step. cbv zeta.
  destruct ((bx * dx + tx <? C) && (by_ * dy + ty <? R)); cbn [sharedData].
  - rewrite !store_other; [reflexivity | apply Ha; lia ..].
  - rewrite for_strided_range by exact HnT.
    rewrite zero_loop_count by exact Ht.
    apply (for_range_untouched (fun sh : buffer F => sh a)).
    intros q t Hq. apply store_other.
    specialize (Ha q ltac:(lia)). lia.
Qed.

End BackwardBlock.

(** ** The tree reduction of one block *)

Section Reduction.
Context {F : Type} {ops : Scalar F}.
Variables (dx dy : Z).
Hypothesis Hdx : 0 < dx.
Hypothesis Hdy : 0 < dy.

Local Abbreviation handles := (handles dx dy).
Local Abbreviation reduce_round := (reduce_round dx dy).

Lemma reduce_step_hit (s tx ty i col : Z) (sh : buffer F) :
  0 < s -> 0 <= tx < dx -> 0 <= ty < dy ->
  0 <= col -> col + s < dx * dy ->
  handles s (tx + ty * dx) i col ->
  reduce_step dx dy s tx ty sh (i * (dx * dy) + col) =
  fadd (sh (i * (dx * dy) + col)) (sh (i * (dx * dy) + col + s)).
Proof.
  intros Hs Hx Hy Hcol Hcs Hh. unfold reduce_step. cbv zeta.
  pose (a := i * (dx * dy) + col).
  destruct Hh as [(Hlt & Hi & ->) | (Hge & Hq & Hqs & Hi & ->)].
  - replace (tx + ty * dx <? s) with true by (symmetry; apply Z.ltb_lt; lia).
    match goal with
    | |- for_loop ?lo ?hi ?body ?m ?x = _ =>
        cut ((fun m : buffer F => (m x, m (x + s))) (for_loop lo hi body m) =
             (fun xy => (fadd (fst xy) (snd xy), snd xy))
               ((fun m : buffer F => (m x, m (x + s))) m));
          [ intros E; apply (f_equal fst) in E; exact E
          | apply for_loop_one with (j := i); [exact Hi | |] ]
    end.
    + intros t. cbn [fst snd]. rewrite store_same, store_other by lia. reflexivity.
    + intros i' t Hi' Hne. rewrite !store_other; [reflexivity | |]; intros E; nia.
  - replace (tx + ty * dx <? s) with false by (symmetry; apply Z.ltb_ge; lia).
    replace ((Z.quot (dx * dy) 2 <=? tx + ty * dx) &&
             (tx + ty * dx - Z.quot (dx * dy) 2 <? s)) with true
      by (symmetry; apply andb_true_iff; split; [apply Z.leb_le|apply Z.ltb_lt]; lia).
    set (q := Z.quot (dx * dy) 2) in *.
    match goal with
    | |- for_loop ?lo ?hi ?body ?m ?x = _ =>
        cut ((fun m : buffer F => (m x, m (x + s))) (for_loop lo hi body m) =
             (fun xy => (fadd (fst xy) (snd xy), snd xy))
               ((fun m : buffer F => (m x, m (x + s))) m));
          [ intros E; apply (f_equal fst) in E; exact E
          | apply for_loop_one with (j := i); [exact Hi | |] ]
    end.
    + intros t. cbn [fst snd].
      replace (i * (dx * dy) + (tx + ty * dx) - q) with (i * (dx * dy) + (tx + ty * dx - q))
        by lia.
      rewrite store_same, store_other by lia. reflexivity.
    + intros i' t Hi' Hne.
      replace (i' * (dx * dy) + (tx + ty * dx) - q) with (i' * (dx * dy) + (tx + ty * dx - q))
        by lia.
      rewrite !store_other; [reflexivity | |]; intros E; nia.
Qed.

Lemma reduce_step_miss (s tx ty a : Z) (sh : buffer F) :
  (forall i col, handles s (tx + ty * dx) i col -> a <> i * (dx * dy) + col) ->
  reduce_step dx dy s tx ty sh a = sh a.
Proof.
  intros Ha. unfold reduce_step. cbv zeta.
  destruct (tx + ty * dx <? s) eqn:Hlt.
  - apply Z.ltb_lt in Hlt.
    apply (for_loop_untouched (fun m : buffer F => m a)).
    intros i t Hi. apply store_other. apply Ha. left. lia.
  - apply Z.ltb_ge in Hlt.
    destruct ((Z.quot (dx * dy) 2 <=? tx + ty * dx) &&
              (tx + ty * dx - Z.quot (dx * dy) 2 <? s)) eqn:Hsec; [|reflexivity].
    apply andb_true_iff in Hsec. destruct Hsec as [H1 H2].
    apply Z.leb_le in H1. apply Z.ltb_lt in H2.
    apply (for_loop_untouched (fun m : buffer F => m a)).
    intros i t Hi. apply store_other.
    replace (i * (dx * dy) + (tx + ty * dx) - Z.quot (dx * dy) 2)
      with (i * (dx * dy) + (tx + ty * dx - Z.quot (dx * dy) 2)) by lia.
    apply Ha. right. lia.
Qed.

Lemma reduce_round_miss (s a : Z) (sh : buffer F) :
  (forall i col, 0 <= i < 12 -> 0 <= col < s -> a <> i * (dx * dy) + col) ->
  reduce_round s sh a = sh a.
Proof.
  intros Ha. unfold reduce_round, run_threads.
  apply (nest2_untouched (fun m : buffer F => m a)).
  intros tx ty t Hx Hy. apply reduce_step_miss.
  intros i col Hh. pose proof (tid_range dx dy Hdx tx ty Hx Hy) as Ht.
  apply Ha; destruct Hh as [H | H]; lia.
Qed.

Lemma reduce_round_hit (s i col : Z) (sh : buffer F) :
  0 < s -> s <= Z.quot (dx * dy) 2 -> 0 <= i < 12 -> 0 <= col < s ->
  reduce_round s sh (i * (dx * dy) + col) =
  fadd (sh (i * (dx * dy) + col)) (sh (i * (dx * dy) + col + s)).
Proof.
  intros Hs Hq Hi Hcol.
  pose proof (nThreads_pos dx dy Hdx Hdy) as HnT.
  assert (Hq2 : 0 <= Z.quot (dx * dy) 2 /\ 2 * Z.quot (dx * dy) 2 <= dx * dy).
  { rewrite Z.quot_div_nonneg by lia.
    pose proof (Z.div_mod (dx * dy) 2 ltac:(lia)).
    pose proof (Z.mod_pos_bound (dx * dy) 2 ltac:(lia)). lia. }
  set (q := Z.quot (dx * dy) 2) in *.
  pose (tid0 := if i <? 6 then col else col + q).
  assert (Ht0 : 0 <= tid0 < dx * dy).
  { unfold tid0. destruct (i <? 6); lia. }
  assert (Hh0 : handles s tid0 i col).
  { unfold tid0, handles. fold q. destruct (i <? 6) eqn:Hi6.
    - apply Z.ltb_lt in Hi6. left. lia.
    - apply Z.ltb_ge in Hi6. right. lia. }
  assert (Htid : tid0 mod dx + tid0 / dx * dx = tid0).
  { pose proof (Z.div_mod tid0 dx ltac:(lia)). lia. }
  assert (Hx0 : 0 <= tid0 mod dx < dx) by (apply Z.mod_pos_bound; lia).
  assert (Hy0 : 0 <= tid0 / dx < dy).
  { split; [apply Z.div_pos; lia|]. apply Z.div_lt_upper_bound; lia. }
  assert (Hsame : forall tx ty i' col',
             0 <= tx < dx -> 0 <= ty < dy -> handles s (tx + ty * dx) i' col' ->
             i' * (dx * dy) + col' = i * (dx * dy) + col -> tx = tid0 mod dx /\ ty = tid0 / dx).
  { intros tx ty i' col' Hx Hy Hh E.
    pose proof (tid_range dx dy Hdx tx ty Hx Hy) as Ht.
    assert (Hc' : 0 <= col' < dx * dy) by (destruct Hh as [H | H]; fold q in H; lia).
    apply slot_unique in E; auto; try lia. destruct E as [-> ->].
    apply (tid_unique dx); auto. rewrite Htid.
    unfold tid0. destruct Hh as [H | H]; fold q in H.
    - replace (i <? 6) with true by (symmetry; apply Z.ltb_lt; lia). lia.
    - replace (i <? 6) with false by (symmetry; apply Z.ltb_ge; lia). lia. }
  unfold reduce_round, run_threads.
  pose proof (nest2_one
                (fun m : buffer F => (m (i * (dx * dy) + col), m (i * (dx * dy) + col + s)))
                (fun xy => (fadd (fst xy) (snd xy), snd xy))
                (tid0 mod dx) (tid0 / dx) dy dx (reduce_step dx dy s) sh Hx0 Hy0) as E.
  apply (f_equal fst) in E; [exact E | |].
  - intros t. cbn [fst snd]. f_equal.
    + apply reduce_step_hit; auto; try lia. rewrite Htid. exact Hh0.
    + apply reduce_step_miss. intros i' col' Hh E'.
      assert (Hc' : 0 <= col' < s) by (destruct Hh as [H | H]; fold q in H; rewrite Htid in H; lia).
      assert (E2 : i * (dx * dy) + (col + s) = i' * (dx * dy) + col') by lia.
      apply slot_unique in E2; auto; lia.
  - intros tx ty t Hx Hy Hne. f_equal.
    + apply reduce_step_miss. intros i' col' Hh E'.
      destruct (Hsame tx ty i' col' Hx Hy Hh ltac:(lia)). lia.
    + apply reduce_step_miss. intros i' col' Hh E'.
      pose proof (tid_range dx dy Hdx tx ty Hx Hy) as Ht.
      assert (Hc' : 0 <= col' < s) by (destruct Hh as [H | H]; fold q in H; lia).
      assert (E2 : i * (dx * dy) + (col + s) = i' * (dx * dy) + col') by lia.
      apply slot_unique in E2; auto; lia.
Qed.

End Reduction.

Section ReductionSums.
Context {F : Type} {ops : Scalar F} (Hexact : exact_scalar F).
Let reduction_ring_theory : ring_theory fzero fone fadd fmul fsub fopp (@eq F) := Hexact.
Add Ring reduction_ring : reduction_ring_theory.
Variables (dx dy : Z).
Hypothesis Hdx : 0 < dx.
Hypothesis Hdy : 0 < dy.

Local Abbreviation row_sum := (row_sum dx dy).

(** A round keeps the sum of the active columns. *)
Lemma reduce_round_row_sum (s i : Z) (sh : buffer F) :
  0 < s -> s <= Z.quot (dx * dy) 2 -> 0 <= i < 12 ->
  row_sum (reduce_round dx dy s sh) i (Z.to_nat s) = row_sum sh i (Z.to_nat (2 * s)).
Proof.
  intros Hs Hq Hi. unfold row_sum.
  rewrite (sum_upto_ext _ _ (fun j => fadd (sh (i * (dx * dy) + j))
                                           (sh (i * (dx * dy) + (Z.of_nat (Z.to_nat s) + j))))).
  - rewrite (sum_upto_add Hexact).
    replace (Z.to_nat (2 * s)) with (Z.to_nat s + Z.to_nat s)%nat by lia.
    rewrite (sum_upto_app Hexact). reflexivity.
  - intros j Hj. rewrite reduce_round_hit by (auto; lia).
    f_equal. f_equal. lia.
Qed.

Lemma pow2_pos (e : Z) : 0 <= e -> 0 < 2 ^ e.
Proof. intros He. apply Z.pow_pos_nonneg; lia. Qed.

(** The rounds leave in the first 32 columns of every parameter partial sums
    that add up to the sum of all the columns. *)
Lemma halving_rounds_row_sum (d fuel : nat) (sh : buffer F) :
  (d < fuel)%nat ->
  2 ^ (4 + Z.of_nat d) <= Z.quot (dx * dy) 2 ->
  let rs := halving_rounds fuel (2 ^ (4 + Z.of_nat d)) (reduce_round dx dy) sh in
  (forall i, 0 <= i < 12 -> row_sum rs i 32 = row_sum sh i (Z.to_nat (2 * 2 ^ (4 + Z.of_nat d)))) /\
  (forall a, 12 * (dx * dy) <= a -> rs a = sh a).
Proof.
  revert fuel sh. induction d as [|d IH]; intros fuel sh Hfuel Hq.
  - destruct fuel as [|fuel]; [lia|]. simpl. split; auto.
  - destruct fuel as [|fuel]; [lia|].
    assert (Hpow : 2 ^ (4 + Z.of_nat (Datatypes.S d)) = 2 * 2 ^ (4 + Z.of_nat d)).
    { replace (4 + Z.of_nat (Datatypes.S d)) with (Z.succ (4 + Z.of_nat d)) by lia.
      apply Z.pow_succ_r. lia. }
    pose proof (pow2_pos (4 + Z.of_nat d) ltac:(lia)) as Hp.
    assert (H16 : 2 ^ 4 <= 2 ^ (4 + Z.of_nat d)) by (apply Z.pow_le_mono_r; lia).
    change (2 ^ 4) with 16 in H16.
    cbn [halving_rounds]. rewrite Hpow in *.
    replace (32 <=? 2 * 2 ^ (4 + Z.of_nat d)) with true by (symmetry; apply Z.leb_le; lia).
    replace (Z.shiftr (2 * 2 ^ (4 + Z.of_nat d)) 1) with (2 ^ (4 + Z.of_nat d)).
    2:{ rewrite Z.shiftr_div_pow2 by lia. change (2 ^ 1) with 2.
        rewrite Z.mul_comm, Z.div_mul by lia. reflexivity. }
    destruct (IH fuel (reduce_round dx dy (2 * 2 ^ (4 + Z.of_nat d)) sh)) as [I1 I2];
      [lia | lia |]. cbv zeta. split.
    + intros i Hi. rewrite I1 by exact Hi.
      apply reduce_round_row_sum; auto; lia.
    + intros a Ha. rewrite I2 by exact Ha.
      apply reduce_round_miss; [exact Hdx|].
      intros i col Hi Hcol E.
      assert (2 * Z.quot (dx * dy) 2 <= dx * dy).
      { pose proof (nThreads_pos dx dy Hdx Hdy).
        rewrite Z.quot_div_nonneg by lia.
        pose proof (Z.div_mod (dx * dy) 2 ltac:(lia)).
        pose proof (Z.mod_pos_bound (dx * dy) 2 ltac:(lia)). lia. }
      nia.
Qed.

(** Lane 0 of the warp ends with the sum of the 32 lanes. *)
Lemma warpReduceSum_lane0 (v : Z -> F) : warpReduceSum v 0 = sum_upto 32 v.
Proof.
  unfold warpReduceSum, warp_halving, shfl_down. simpl. ring.
Qed.

End ReductionSums.

(** A loop of stores whose values read only a region the loop does not write. *)
Lemma store_loop_spec {A : Type} (n : nat) (addr : Z -> Z) (val : Z -> buffer A -> A)
      (P : Z -> Prop) (m0 : buffer A) :
  (forall i, 0 <= i < Z.of_nat n -> ~ P (addr i)) ->
  (forall i m m', 0 <= i < Z.of_nat n -> (forall a, P a -> m a = m' a) -> val i m = val i m') ->
  (forall i j, 0 <= i < Z.of_nat n -> 0 <= j < Z.of_nat n -> addr i = addr j -> i = j) ->
  let r := for_range n (fun i m => store m (addr i) (val i m)) m0 in
  (forall j, 0 <= j < Z.of_nat n -> r (addr j) = val j m0) /\
  (forall a, (forall i, 0 <= i < Z.of_nat n -> a <> addr i) -> r a = m0 a).
Proof.
  intros HP Hval Hinj. cbv zeta.
  induction n as [|n IH]; [split; [lia | reflexivity]|].
  destruct IH as [Ihit Imiss].
  { intros i Hi. apply HP. lia. }
  { intros i m m' Hi. apply Hval. lia. }
  { intros i j Hi Hj. apply Hinj; lia. }
  simpl. split.
  - intros j Hj. destruct (Z.eq_dec j (Z.of_nat n)) as [-> | Hne].
    + rewrite store_same. apply Hval; [lia|]. intros a Pa. apply Imiss.
      intros i Hi E. subst a. apply (HP i); [lia | exact Pa].
    + rewrite store_other.
      * apply Ihit. lia.
      * intros E. apply Hinj in E; lia.
  - intros a Ha. rewrite store_other by (apply Ha; lia).
    apply Imiss. intros i Hi. apply Ha. lia.
Qed.

(** ** The backward kernel: one pass over a transform, one block *)

Section BackwardPass.
Context {F : Type} {ops : Scalar F} (Hexact : exact_scalar F).
Variables (constTfms points masks gradTfmpoints : buffer F).
Variables (R C K : Z) (ps ms ts : Strides).
Variables (bx by_ bz dx dy m : Z).
Hypothesis Hdx : 0 < dx.
Hypothesis Hdy : 0 < dy.
Hypothesis Hm : 5 <= m <= 30.
Hypothesis HnT : dx * dy = 2 ^ m.

Local Abbreviation block_entry :=
  (block_entry points masks gradTfmpoints R C ps ms bx by_ bz dx dy).

Let grad_phase (k : Z) := grad_step constTfms points masks gradTfmpoints R C ps ms ts
                            bx by_ bz dx dy k.
Let pass := transform_pass constTfms points masks gradTfmpoints R C ps ms ts
              bx by_ bz dx dy.

Lemma nThreads_32 : 32 <= dx * dy.
Proof.
  rewrite HnT. change 32 with (2 ^ 5). apply Z.pow_le_mono_r; lia.
Qed.

Lemma phase_shared_slot (k tx ty i : Z) (st : BlockState F) :
  0 <= tx < dx -> 0 <= ty < dy -> 0 <= i < 12 ->
  sharedData (run_threads dx dy (grad_phase k) st) (i * (dx * dy) + (tx + ty * dx)) =
  masked_entry points masks gradTfmpoints R C ps ms bz k (by_ * dy + ty) (bx * dx + tx) i.
Proof.
  intros Hx Hy Hi. unfold run_threads.
  apply (nest2_one (fun st : BlockState F => sharedData st (i * (dx * dy) + (tx + ty * dx)))
           (fun _ => masked_entry points masks gradTfmpoints R C ps ms bz k
                       (by_ * dy + ty) (bx * dx + tx) i) tx ty); auto.
  - intros t. apply grad_step_shared_hit; auto.
  - intros x y t Hx' Hy' Hne. apply grad_step_shared_miss; auto.
    intros i' Hi' E.
    pose proof (tid_range dx dy Hdx tx ty Hx Hy).
    pose proof (tid_range dx dy Hdx x y Hx' Hy').
    apply slot_unique in E; auto. destruct E as [_ E].
    apply (tid_unique dx) in E; auto. lia.
Qed.

Lemma phase_shared_high (k a : Z) (st : BlockState F) :
  12 * (dx * dy) <= a ->
  sharedData (run_threads dx dy (grad_phase k) st) a = sharedData st a.
Proof.
  intros Ha. unfold run_threads.
  apply (nest2_untouched (fun st : BlockState F => sharedData st a)).
  intros x y t Hx Hy. apply grad_step_shared_miss; auto.
  intros i Hi E. pose proof (tid_range dx dy Hdx x y Hx Hy). nia.
Qed.

Lemma warp_phase_hit (k i : Z) (sh : buffer F) :
  0 <= k -> 0 <= i < 12 ->
  warp_phase dx dy k sh (dx * dy * 12 + (k * 12 + i)) = row_sum dx dy sh i 32.
Proof.
  intros Hk Hi. pose proof nThreads_32 as H32.
  unfold warp_phase, for_loop. cbv beta zeta.
  change (Z.to_nat (12 - 0)) with 12%nat.
  destruct (store_loop_spec 12
              (fun j => dx * dy * 12 + (k * 12 + (0 + j)))
              (fun j sh => warpReduceSum (fun tid => sh ((0 + j) * (dx * dy) + tid)) 0)
              (fun a => a < dx * dy * 12) sh) as [Hhit _].
  - intros j Hj. lia.
  - intros j m1 m2 Hj Hreg. rewrite !(warpReduceSum_lane0 Hexact).
    apply sum_upto_ext. intros t Ht. apply Hreg. nia.
  - intros j j' Hj Hj' E. lia.
  - cbv zeta in Hhit. specialize (Hhit i ltac:(lia)). cbv beta in Hhit.
    replace (0 + i) with i in Hhit by lia.
    unfold row_sum. rewrite <- (warpReduceSum_lane0 Hexact). exact Hhit.
Qed.

Lemma warp_phase_miss (k a : Z) (sh : buffer F) :
  (forall i, 0 <= i < 12 -> a <> dx * dy * 12 + (k * 12 + i)) ->
  warp_phase dx dy k sh a = sh a.
Proof.
  intros Ha. unfold warp_phase.
  apply (for_loop_untouched (fun m : buffer F => m a)).
  intros i t Hi. apply store_other. apply Ha. lia.
Qed.

Lemma pass_result (k i : Z) (st : BlockState F) :
  0 <= k -> 0 <= i < 12 ->
  sharedData (pass k st) (dx * dy * 12 + (k * 12 + i)) = block_entry k i.
Proof.
  intros Hk Hi. pose proof nThreads_32 as H32.
  unfold pass, transform_pass. cbv zeta. cbn [sharedData].
  rewrite warp_phase_hit by (auto; lia).
  assert (Hq : Z.quot (dx * dy) 2 = 2 ^ (4 + Z.of_nat (Z.to_nat (m - 5)))).
  { rewrite Z.quot_div_nonneg by lia. rewrite HnT.
    replace m with (Z.succ (4 + Z.of_nat (Z.to_nat (m - 5)))) at 1 by lia.
    rewrite Z.pow_succ_r by lia. rewrite Z.mul_comm, Z.div_mul by lia. reflexivity. }
  rewrite Hq.
  destruct (halving_rounds_row_sum Hexact dx dy Hdx Hdy (Z.to_nat (m - 5)) 32
              (sharedData (run_threads dx dy (grad_phase k) st))) as [Hsum _].
  { lia. }
  { rewrite Hq. lia. }
  cbv zeta in Hsum. unfold reduce_round in Hsum. fold (grad_phase k).
  rewrite Hsum by exact Hi.
  rewrite <- Hq.
  replace (2 * Z.quot (dx * dy) 2) with (dx * dy).
  2:{ rewrite Hq. rewrite HnT.
      replace m with (Z.succ (4 + Z.of_nat (Z.to_nat (m - 5)))) at 1 by lia.
      rewrite Z.pow_succ_r by lia. reflexivity. }
  unfold row_sum, block_entry. apply sum_upto_ext. intros tid Ht.
  assert (Hx : 0 <= tid mod dx < dx) by (apply Z.mod_pos_bound; lia).
  assert (Hy : 0 <= tid / dx < dy).
  { split; [apply Z.div_pos; lia|]. apply Z.div_lt_upper_bound; lia. }
  replace tid with (tid mod dx + tid / dx * dx) at 1
    by (pose proof (Z.div_mod tid dx ltac:(lia)); lia).
  apply phase_shared_slot; auto.
Qed.

Lemma pass_other (k a : Z) (st : BlockState F) :
  12 * (dx * dy) <= a ->
  (forall i, 0 <= i < 12 -> a <> dx * dy * 12 + (k * 12 + i)) ->
  sharedData (pass k st) a = sharedData st a.
Proof.
  intros Ha Hne. pose proof nThreads_32 as H32.
  unfold pass, transform_pass. cbv zeta. cbn [sharedData].
  rewrite warp_phase_miss by exact Hne.
  assert (Hq : Z.quot (dx * dy) 2 = 2 ^ (4 + Z.of_nat (Z.to_nat (m - 5)))).
  { rewrite Z.quot_div_nonneg by lia. rewrite HnT.
    replace m with (Z.succ (4 + Z.of_nat (Z.to_nat (m - 5)))) at 1 by lia.
    rewrite Z.pow_succ_r by lia. rewrite Z.mul_comm, Z.div_mul by lia. reflexivity. }
  rewrite Hq.
  destruct (halving_rounds_row_sum Hexact dx dy Hdx Hdy (Z.to_nat (m - 5)) 32
              (sharedData (run_threads dx dy (grad_phase k) st))) as [_ Hhigh].
  { lia. }
  { rewrite Hq. lia. }
  cbv zeta in Hhigh. unfold reduce_round in Hhigh. fold (grad_phase k).
  rewrite Hhigh by exact Ha.
  apply phase_shared_high. exact Ha.
Qed.

(** After the loop over the transforms the result area of shared memory holds
    the block's sums. *)
Lemma passes_result (k i : Z) (st : BlockState F) :
  0 <= k < K -> 0 <= i < 12 ->
  sharedData (for_upto K pass st) (dx * dy * 12 + (k * 12 + i)) = block_entry k i.
Proof.
  intros Hk Hi.
  apply (for_upto_one (fun st : BlockState F => sharedData st (dx * dy * 12 + (k * 12 + i)))
           (fun _ => block_entry k i) k); auto.
  - intros t. apply pass_result; [lia | exact Hi].
  - intros k' t Hk' Hne. apply pass_other.
    + pose proof nThreads_32. lia.
    + intros i' Hi'. lia.
Qed.

End BackwardPass.

(** ** The atomic accumulation of one block *)

Section AtomicPhase.
Context {F : Type} {ops : Scalar F}.
Variables (K : Z) (ts : Strides) (bz dx dy : Z).
Hypothesis Hdx : 0 < dx.
Hypothesis Hdy : 0 < dy.

Lemma atomic_step_miss (sh gt : buffer F) (tx ty a : Z) :
  0 <= tx < dx -> 0 <= ty < dy ->
  (forall q, 0 <= q -> tx + ty * dx + q * (dx * dy) < K * 12 ->
             a <> bz * st0 ts + (tx + ty * dx + q * (dx * dy))) ->
  atomic_step K ts bz dx dy sh tx ty gt a = gt a.
Proof.
  intros Hx Hy Ha. pose proof (nThreads_pos dx dy Hdx Hdy) as HnT.
  pose proof (tid_range dx dy Hdx tx ty Hx Hy) as Ht.
  unfold atomic_step. cbv zeta.
  rewrite for_strided_range by exact HnT.
  apply (for_range_untouched (fun m : buffer F => m a)).
  intros q t Hq. apply store_other. apply Ha; [lia|].
  set (n := ceil_div (K * 12 - (tx + ty * dx)) (dx * dy)) in *.
  assert (Hn : q + 1 <= n) by lia.
  unfold n, ceil_div in Hn.
  assert (Hd : (q + 1) * (dx * dy) <= K * 12 - (tx + ty * dx) + dx * dy - 1).
  { pose proof (Z.mul_div_le (K * 12 - (tx + ty * dx) + dx * dy - 1) (dx * dy) HnT). nia. }
  lia.
Qed.

Lemma atomic_step_hit (sh gt : buffer F) (tx ty q : Z) :
  0 <= tx < dx -> 0 <= ty < dy -> 0 <= q ->
  tx + ty * dx + q * (dx * dy) < K * 12 ->
  atomic_step K ts bz dx dy sh tx ty gt (bz * st0 ts + (tx + ty * dx + q * (dx * dy))) =
  fadd (gt (bz * st0 ts + (tx + ty * dx + q * (dx * dy))))
       (sh (dx * dy * 12 + (tx + ty * dx + q * (dx * dy)))).
Proof.
  intros Hx Hy Hq Hlt. pose proof (nThreads_pos dx dy Hdx Hdy) as HnT.
  pose proof (tid_range dx dy Hdx tx ty Hx Hy) as Ht.
  unfold atomic_step. cbv zeta.
  rewrite for_strided_range by exact HnT.
  apply (for_range_one
           (fun m : buffer F => m (bz * st0 ts + (tx + ty * dx + q * (dx * dy))))
           (fun x => fadd x (sh (dx * dy * 12 + (tx + ty * dx + q * (dx * dy))))) q).
  - split; [lia|].
    assert (q + 1 <= ceil_div (K * 12 - (tx + ty * dx)) (dx * dy)); [|lia].
    unfold ceil_div. apply Z.div_le_lower_bound; [lia|]. nia.
  - intros t. apply store_same.
  - intros q' t Hq' Hne. apply store_other. nia.
Qed.

(** All threads of the block: every result is added once to its cell of
    [gradTfms]. *)
Lemma atomic_phase_hit (sh gt : buffer F) (j : Z) :
  0 <= j < K * 12 ->
  run_threads dx dy (atomic_step K ts bz dx dy sh) gt (bz * st0 ts + j) =
  fadd (gt (bz * st0 ts + j)) (sh (dx * dy * 12 + j)).
Proof.
  intros Hj. pose proof (nThreads_pos dx dy Hdx Hdy) as HnT.
  set (tid0 := j mod (dx * dy)).
  set (q0 := j / (dx * dy)).
  assert (Ej : j = tid0 + q0 * (dx * dy)).
  { unfold tid0, q0. pose proof (Z.div_mod j (dx * dy) ltac:(lia)). lia. }
  assert (Ht0 : 0 <= tid0 < dx * dy) by (apply Z.mod_pos_bound; lia).
  assert (Hq0 : 0 <= q0) by (apply Z.div_pos; lia).
  assert (Htid : tid0 mod dx + tid0 / dx * dx = tid0).
  { pose proof (Z.div_mod tid0 dx ltac:(lia)). lia. }
  assert (Hx0 : 0 <= tid0 mod dx < dx) by (apply Z.mod_pos_bound; lia).
  assert (Hy0 : 0 <= tid0 / dx < dy).
  { split; [apply Z.div_pos; lia|]. apply Z.div_lt_upper_bound; lia. }
  unfold run_threads.
  apply (nest2_one (fun m : buffer F => m (bz * st0 ts + j))
           (fun x => fadd x (sh (dx * dy * 12 + j))) (tid0 mod dx) (tid0 / dx)); auto.
  - intros t.
    pose proof (atomic_step_hit sh t (tid0 mod dx) (tid0 / dx) q0 Hx0 Hy0 Hq0 ltac:(lia)) as E.
    rewrite Htid in E. rewrite <- Ej in E. exact E.
  - intros x y t Hx Hy Hne. apply atomic_step_miss; auto.
    intros q Hq Hlt E.
    pose proof (tid_range dx dy Hdx x y Hx Hy) as Ht.
    assert (E2 : q * (dx * dy) + (x + y * dx) = q0 * (dx * dy) + tid0) by lia.
    apply radix_unique in E2; auto. destruct E2 as [_ E2].
    rewrite <- Htid in E2. apply (tid_unique dx) in E2; auto. lia.
Qed.

Lemma atomic_phase_miss (sh gt : buffer F) (a : Z) :
  (forall j, 0 <= j < K * 12 -> a <> bz * st0 ts + j) ->
  run_threads dx dy (atomic_step K ts bz dx dy sh) gt a = gt a.
Proof.
  intros Ha. unfold run_threads.
  apply (nest2_untouched (fun m : buffer F => m a)).
  intros x y t Hx Hy. apply atomic_step_miss; auto.
  intros q Hq Hlt. apply Ha.
  pose proof (tid_range dx dy Hdx x y Hx Hy). nia.
Qed.

End AtomicPhase.

(** ** Sums over tiles *)

Section TileSums.
Context {F : Type} {ops : Scalar F} (Hexact : exact_scalar F).
Let tile_ring_theory : ring_theory fzero fone fadd fmul fsub fopp (@eq F) := Hexact.
Add Ring tile_ring : tile_ring_theory.

Lemma sum_upto_flatten (A B : Z) (f : Z -> Z -> F) :
  0 <= A -> 0 < B ->
  sum_upto (Z.to_nat (A * B)) (fun j => f (j / B) (j mod B)) =
  sum_upto (Z.to_nat A) (fun a => sum_upto (Z.to_nat B) (fun b => f a b)).
Proof.
  intros HA HB.
  rewrite <- (Z2Nat.id A HA) at 1. generalize (Z.to_nat A) as a. clear A HA.
  induction a as [|a IH]; [reflexivity|].
  replace (Z.to_nat (Z.of_nat (Datatypes.S a) * B))
    with (Z.to_nat (Z.of_nat a * B) + Z.to_nat B)%nat by lia.
  rewrite (sum_upto_app Hexact), IH. simpl. f_equal.
  apply sum_upto_ext. intros j Hj.
  rewrite Z2Nat.id by lia.
  assert (E1 : (Z.of_nat a * B + j) / B = Z.of_nat a).
  { symmetry. apply Z.div_unique with (r := j); lia. }
  assert (E2 : (Z.of_nat a * B + j) mod B = j).
  { symmetry. apply Z.mod_unique with (q := Z.of_nat a); lia. }
  now rewrite E1, E2.
Qed.

Lemma sum_upto_exchange (n m : nat) (f : Z -> Z -> F) :
  sum_upto n (fun i => sum_upto m (fun j => f i j)) =
  sum_upto m (fun j => sum_upto n (fun i => f i j)).
Proof.
  induction n as [|n IH]; simpl.
  - symmetry. apply (sum_upto_zero Hexact). reflexivity.
  - rewrite IH. symmetry. apply (sum_upto_add Hexact).
Qed.

Lemma sum_upto_truncate (n n' : nat) (f : Z -> F) :
  (n <= n')%nat ->
  (forall i, Z.of_nat n <= i < Z.of_nat n' -> f i = fzero) ->
  sum_upto n' f = sum_upto n f.
Proof.
  intros Hle Hz. replace n' with (n + (n' - n))%nat by lia.
  rewrite (sum_upto_app Hexact).
  rewrite (sum_upto_zero Hexact (n' - n)); [ring|].
  intros j Hj. apply Hz. lia.
Qed.

(** Summing an image tile by tile, with zeros outside the image, is summing
    it cell by cell. *)
Lemma tiled_sum (R C gx gy dx dy : Z) (cell : Z -> Z -> F) :
  0 <= R -> 0 <= C -> 0 < dx -> 0 < dy -> 0 <= gx -> 0 <= gy ->
  C <= gx * dx -> R <= gy * dy ->
  sum_upto (Z.to_nat gy)
    (fun by_ =>
       sum_upto (Z.to_nat gx)
         (fun bx =>
            sum_upto (Z.to_nat (dx * dy))
              (fun tid =>
                 let r := by_ * dy + tid / dx in
                 let c := bx * dx + tid mod dx in
                 if (c <? C) && (r <? R) then cell r c else fzero)))
  = plain_sum R C cell.
Proof.
  intros HR HC Hdx Hdy Hgx Hgy HcC HcR.
  pose (M := fun r c => if (c <? C) && (r <? R) then cell r c else fzero).
  transitivity
    (sum_upto (Z.to_nat gy)
       (fun by_ => sum_upto (Z.to_nat dy)
          (fun ty => sum_upto (Z.to_nat gx)
             (fun bx => sum_upto (Z.to_nat dx) (fun tx => M (by_ * dy + ty) (bx * dx + tx)))))).
  { apply sum_upto_ext. intros by_ Hby.
    rewrite <- (sum_upto_exchange (Z.to_nat gx) (Z.to_nat dy)
                  (fun bx ty => sum_upto (Z.to_nat dx)
                     (fun tx => M (by_ * dy + ty) (bx * dx + tx)))).
    apply sum_upto_ext. intros bx Hbx.
    rewrite (Z.mul_comm dx dy).
    apply (sum_upto_flatten dy dx (fun ty tx => M (by_ * dy + ty) (bx * dx + tx))); lia. }
  transitivity
    (sum_upto (Z.to_nat (gy * dy))
       (fun r => sum_upto (Z.to_nat (gx * dx)) (fun c => M r c))).
  { rewrite <- (sum_upto_flatten gy dy
                  (fun by_ ty => sum_upto (Z.to_nat gx)
                     (fun bx => sum_upto (Z.to_nat dx)
                        (fun tx => M (by_ * dy + ty) (bx * dx + tx))))) by lia.
    apply sum_upto_ext. intros r Hr.
    assert (Er : r / dy * dy + r mod dy = r)
      by (pose proof (Z.div_mod r dy ltac:(lia)); lia).
    rewrite Er.
    rewrite <- (sum_upto_flatten gx dx (fun bx tx => M r (bx * dx + tx))) by lia.
    apply sum_upto_ext. intros c Hc.
    assert (Ec : c / dx * dx + c mod dx = c)
      by (pose proof (Z.div_mod c dx ltac:(lia)); lia).
    now rewrite Ec. }
  unfold plain_sum.
  rewrite (sum_upto_truncate (Z.to_nat R) (Z.to_nat (gy * dy))).
  - apply sum_upto_ext. intros r Hr.
    rewrite (sum_upto_truncate (Z.to_nat C) (Z.to_nat (gx * dx))).
    + apply sum_upto_ext. intros c Hc. unfold M.
      replace (c <? C) with true by (symmetry; apply Z.ltb_lt; lia).
      replace (r <? R) with true by (symmetry; apply Z.ltb_lt; lia).
      reflexivity.
    + lia.
    + intros c Hc. unfold M.
      replace (c <? C) with false by (symmetry; apply Z.ltb_ge; lia). reflexivity.
  - lia.
  - intros r Hr. apply (sum_upto_zero Hexact). intros c Hc. unfold M.
    replace (r <? R) with false by (symmetry; apply Z.ltb_ge; lia).
    now rewrite andb_false_r.
Qed.

(** An observation to which every iteration adds. *)
Lemma for_upto_sum {S : Type} (obs : S -> F) (f : Z -> F) (n : Z)
      (body : Z -> S -> S) (s : S) :
  (forall i t, 0 <= i < n -> obs (body i t) = fadd (obs t) (f i)) ->
  obs (for_upto n body s) = fadd (obs s) (sum_upto (Z.to_nat n) f).
Proof.
  intros H. unfold for_upto.
  assert (H' : forall i t, 0 <= i < Z.of_nat (Z.to_nat n) ->
                           obs (body i t) = fadd (obs t) (f i))
    by (intros; apply H; lia).
  clear H. induction (Z.to_nat n) as [|k IH]; simpl; [ring|].
  rewrite H' by lia. rewrite IH by (intros; apply H'; lia). ring.
Qed.

End TileSums.

(** ** The transform gradient over the whole grid *)

Section GridTfms.
Context {F : Type} {ops : Scalar F} (Hexact : exact_scalar F).
Let grid_ring_theory : ring_theory fzero fone fadd fmul fsub fopp (@eq F) := Hexact.
Add Ring grid_ring : grid_ring_theory.
Variables (constTfms points masks gradTfmpoints : buffer F).
Variables (R C K : Z) (ps ms ts : Strides).
Variables (dx dy m : Z).
Hypothesis Hdx : 0 < dx.
Hypothesis Hdy : 0 < dy.
Hypothesis Hm : 5 <= m <= 30.
Hypothesis HnT : dx * dy = 2 ^ m.
Hypothesis Hts0 : st0 ts = K * 12.

Lemma block_gradTfms_hit (bx by_ bz k i : Z) (sh0 : buffer F) (rg0 : buffer (vec3 F))
      (g : Grads F) :
  0 <= k < K -> 0 <= i < 12 ->
  gradTfms (computeGradients constTfms points masks gradTfmpoints R C K ps ms ts
              bx by_ bz dx dy sh0 rg0 g) (bz * (K * 12) + (k * 12 + i)) =
  fadd (gradTfms g (bz * (K * 12) + (k * 12 + i)))
       (block_entry points masks gradTfmpoints R C ps ms bx by_ bz dx dy k i).
Proof.
  intros Hk Hi. unfold computeGradients. cbv zeta. cbn [gradTfms].
  rewrite <- Hts0.
  rewrite atomic_phase_hit by (auto; lia).
  rewrite (passes_result Hexact) with (m := m) by auto.
  reflexivity.
Qed.

Lemma block_gradTfms_miss (bx by_ bz a : Z) (sh0 : buffer F) (rg0 : buffer (vec3 F))
      (g : Grads F) :
  (forall j, 0 <= j < K * 12 -> a <> bz * (K * 12) + j) ->
  gradTfms (computeGradients constTfms points masks gradTfmpoints R C K ps ms ts
              bx by_ bz dx dy sh0 rg0 g) a = gradTfms g a.
Proof.
  intros Ha. unfold computeGradients. cbv zeta. cbn [gradTfms].
  apply atomic_phase_miss; auto. rewrite Hts0. exact Ha.
Qed.

(** Every block of batch [b] adds its sums to the transform gradient of [b];
    the blocks of the other batches leave it alone. *)
Lemma grid_gradTfms (gx gy gz b k i : Z) (sh0 : buffer F) (rg0 : buffer (vec3 F))
      (g : Grads F) :
  0 <= b < gz -> 0 <= k < K -> 0 <= i < 12 ->
  gradTfms (launch_computeGradients constTfms points masks gradTfmpoints R C K ps ms ts
              gx gy gz dx dy sh0 rg0 g) (b * (K * 12) + (k * 12 + i)) =
  fadd (gradTfms g (b * (K * 12) + (k * 12 + i)))
       (sum_upto (Z.to_nat gy)
          (fun by_ => sum_upto (Z.to_nat gx)
             (fun bx => block_entry points masks gradTfmpoints R C ps ms bx by_ b dx dy k i))).
Proof.
  intros Hb Hk Hi. unfold launch_computeGradients.
  set (a := b * (K * 12) + (k * 12 + i)).
  apply (for_upto_one (fun g : Grads F => gradTfms g a)
           (fun x => fadd x
              (sum_upto (Z.to_nat gy)
                 (fun by_ => sum_upto (Z.to_nat gx)
                    (fun bx => block_entry points masks gradTfmpoints R C ps ms
                                 bx by_ b dx dy k i)))) b); auto.
  - intros t.
    apply (for_upto_sum Hexact (fun g : Grads F => gradTfms g a)).
    intros by_ t' Hby.
    apply (for_upto_sum Hexact (fun g : Grads F => gradTfms g a)).
    intros bx t'' Hbx. apply block_gradTfms_hit; auto.
  - intros bz t Hbz Hne.
    apply (nest2_untouched (fun g : Grads F => gradTfms g a)).
    intros bx by_ t' Hbx Hby. apply block_gradTfms_miss.
    intros j Hj E. unfold a in E.
    assert (E2 : b * (K * 12) + (k * 12 + i) = bz * (K * 12) + j) by lia.
    apply radix_unique in E2; lia.
Qed.

(** The two-stage reduction computes the plain sum of the per-point entries. *)
Lemma grid_gradTfms_plain_sum (gx gy gz b k i : Z) (sh0 : buffer F) (rg0 : buffer (vec3 F))
      (g : Grads F) :
  0 <= R -> 0 <= C -> 0 <= gx -> 0 <= gy -> C <= gx * dx -> R <= gy * dy ->
  0 <= b < gz -> 0 <= k < K -> 0 <= i < 12 ->
  gradTfms (launch_computeGradients constTfms points masks gradTfmpoints R C K ps ms ts
              gx gy gz dx dy sh0 rg0 g) (b * (K * 12) + (k * 12 + i)) =
  fadd (gradTfms g (b * (K * 12) + (k * 12 + i)))
       (plain_sum R C (fun r c => cell_entry points masks gradTfmpoints ps ms b k r c i)).
Proof.
  intros HR HC Hgx Hgy HcC HcR Hb Hk Hi.
  rewrite grid_gradTfms by auto. f_equal.
  apply (tiled_sum Hexact R C gx gy dx dy
           (fun r c => cell_entry points masks gradTfmpoints ps ms b k r c i)); auto.
Qed.

End GridTfms.

(** ** Per-point transform gradients in the specification's words *)

Section TransformGradientProofs.
Context {F : Type} {ops : Scalar F} (Hexact : exact_scalar F).
Let tg_ring_theory : ring_theory fzero fone fadd fmul fsub fopp (@eq F) := Hexact.
Add Ring tg_ring : tg_ring_theory.

Lemma tfm_grad_entry_per_point (w : F) (p g : vec3 F) (i : Z) :
  0 <= i < 12 -> tfm_grad_entry w p g i = tfm_grad_per_point w p g i.
Proof.
  intros Hi.
  assert (Hcase : i = 0 \/ i = 1 \/ i = 2 \/ i = 3 \/ i = 4 \/ i = 5 \/ i = 6 \/
                  i = 7 \/ i = 8 \/ i = 9 \/ i = 10 \/ i = 11) by lia.
  unfold tfm_grad_entry, tfm_grad_per_point, outer, vget.
  repeat (destruct Hcase as [-> | Hcase]); [.. | subst i]; simpl; ring.
Qed.

Lemma plain_sum_ext (R C : Z) (f g : Z -> Z -> F) :
  (forall r c, 0 <= r < R -> 0 <= c < C -> f r c = g r c) ->
  plain_sum R C f = plain_sum R C g.
Proof.
  intros H. unfold plain_sum. apply sum_upto_ext. intros r Hr.
  apply sum_upto_ext. intros c Hc. apply H; lia.
Qed.

End TransformGradientProofs.

(** ** The backward launcher on valid inputs *)

Section BackwardLauncherProofs.
Context {F : Type} {ops : Scalar F}.

Lemma backward_launcher_runs
      (constTfms points masks tfms gradTfmpoints : buffer F) (B R C K : Z) (ts : Strides)
      (sh0 : buffer F) (rg0 : buffer (vec3 F)) (g : Grads F) :
  1 <= B -> 0 <= K -> 1 <= R -> 1 <= C ->
  B * 3 * R * C <= INT_MAX -> B * K * R * C <= INT_MAX -> B * K * 12 <= 15000 ->
  12288 + 48 * K <= 32000 ->
  exists cst,
    (forall i, 0 <= i < B * K * 12 -> cst i = tfms i) /\
    NTfm3D_BackwardLauncher constTfms points masks tfms gradTfmpoints B 3 R C K (B * K * 12)
      (contiguous B 3 R C) (contiguous B K R C) ts sh0 rg0 g =
    Done (launch_computeGradients cst points masks gradTfmpoints R C K
            (contiguous B 3 R C) (contiguous B K R C) (cast_strides ts)
            (ceil_div C 16) (ceil_div R 16) B 16 16 sh0 rg0 g).
Proof.
  intros HB HK HR HC Hmax Hmax' Hcap Hshared.
  assert (HBK : 0 <= B * K * 12) by nia.
  destruct (staged_transforms constTfms tfms (B * K * 12) ltac:(lia)) as (cst & Est & Hcst).
  exists cst. split; [exact Hcst|].
  unfold NTfm3D_BackwardLauncher. rewrite Est. cbv zeta.
  rewrite to_int_small by (unfold INT_MAX; lia).
  replace (32000 <? 16 * 16 * 3 * 4 * 4 + K * 3 * 4 * 4) with false
    by (symmetry; apply Z.ltb_ge; lia).
  rewrite cast_points_strides, cast_masks_strides by lia.
  reflexivity.
Qed.

End BackwardLauncherProofs.

(** C5.  Over exact arithmetic the two-stage reduction of the transform
    gradient (tree halving inside each work-group down to 32 partial sums,
    warp-level finishing, atomic accumulation across work-groups) gives the
    same totals for any two decompositions of the image into work-groups whose
    size is a power of two of at least 32 threads: both add to every entry of
    [gradTfms] the plain sum over all cells of the per-point contributions,
    whatever the shared memory and registers held on entry. *)
Theorem reduction_independent_of_grouping
        {F : Type} {ops : Scalar F} (Hexact : exact_scalar F)
        (constTfms points masks gradTfmpoints : buffer F) (B R C K : Z) (ps ms ts : Strides)
        (dx dy m gx gy dx' dy' m' gx' gy' : Z)
        (sh0 sh0' : buffer F) (rg0 rg0' : buffer (vec3 F)) (g : Grads F) (b k i : Z) :
  0 <= R -> 0 <= C -> st0 ts = K * 12 ->
  0 < dx -> 0 < dy -> 5 <= m <= 30 -> dx * dy = 2 ^ m ->
  0 <= gx -> 0 <= gy -> C <= gx * dx -> R <= gy * dy ->
  0 < dx' -> 0 < dy' -> 5 <= m' <= 30 -> dx' * dy' = 2 ^ m' ->
  0 <= gx' -> 0 <= gy' -> C <= gx' * dx' -> R <= gy' * dy' ->
  0 <= b < B -> 0 <= k < K -> 0 <= i < 12 ->
  let a := b * (K * 12) + (k * 12 + i) in
  let total :=
    fadd (gradTfms g a)
         (plain_sum R C (fun r c => cell_entry points masks gradTfmpoints ps ms b k r c i)) in
  gradTfms (launch_computeGradients constTfms points masks gradTfmpoints R C K ps ms ts
              gx gy B dx dy sh0 rg0 g) a = total /\
  gradTfms (launch_computeGradients constTfms points masks gradTfmpoints R C K ps ms ts
              gx' gy' B dx' dy' sh0' rg0' g) a = total.
Proof.
  intros HR HC Hts Hdx Hdy Hm HnT Hgx Hgy HcC HcR Hdx' Hdy' Hm' HnT' Hgx' Hgy' HcC' HcR'
         Hb Hk Hi a total.
  split; unfold a, total.
  - apply (grid_gradTfms_plain_sum Hexact) with (m := m); auto.
  - apply (grid_gradTfms_plain_sum Hexact) with (m := m'); auto.
Qed.

Lemma reduction_independent_of_grouping_witness :
  let a := 0 * (2 * 12) + (1 * 12 + 5) in
  let total :=
    fadd (gradTfms sample_grads a)
         (plain_sum 8 8
            (fun r c => cell_entry sample_points sample_masks sample_gradOut
                          (contiguous 1 3 8 8) (contiguous 1 2 8 8) 0 1 r c 5)) in
  gradTfms (launch_computeGradients zero_buffer sample_points sample_masks sample_gradOut
              8 8 2 (contiguous 1 3 8 8) (contiguous 1 2 8 8) (mkStrides 24 12 1 0)
              1 1 1 8 8 zero_buffer sample_regs sample_grads) a = total /\
  gradTfms (launch_computeGradients zero_buffer sample_points sample_masks sample_gradOut
              8 8 2 (contiguous 1 3 8 8) (contiguous 1 2 8 8) (mkStrides 24 12 1 0)
              1 2 1 8 4 scenario_points sample_regs sample_grads) a = total.
Proof.
  apply (reduction_independent_of_grouping Z_exact zero_buffer sample_points sample_masks
           sample_gradOut 1 8 8 2 (contiguous 1 3 8 8) (contiguous 1 2 8 8)
           (mkStrides 24 12 1 0) 8 8 6 1 1 8 4 5 1 2);
    try lia; reflexivity.
Defined.

(** C4, as stated, fails: with point (1, 0, 0), upstream gradient (0, 1, 0) and
    weight 1 the kernel puts the product in entry (1, 0) of the transform
    gradient (index 4), where [w * p (x) g] has 0; [p (x) g] has its 1 in
    entry (0, 1) (index 1), where the kernel leaves 0. *)
Lemma outer_product_orientation_counterexample :
  let gradOut : buffer Z := fun i => if i =? 1 then 1 else 0 in
  let stated i :=
    plain_sum 1 1
      (fun r c => tfm_grad_as_stated
                    (scenario_masks (offset (contiguous 1 1 1 1) 0 0 r c))
                    (point_at scenario_points (contiguous 1 3 1 1) 0 r c)
                    (point_at gradOut (contiguous 1 3 1 1) 0 r c) i) in
  exists out,
    NTfm3D_BackwardLauncher zero_buffer scenario_points scenario_masks scenario_tfms gradOut
      1 3 1 1 1 12 (contiguous 1 3 1 1) (contiguous 1 1 1 1) scenario_ts
      zero_buffer sample_regs sample_grads = Done out /\
    gradTfms out 4 = 1 /\ stated 4 = 0 /\
    gradTfms out 1 = 0 /\ stated 1 = 1.
Proof.
  cbv zeta. eexists. split; [reflexivity|].
  repeat split; vm_compute; reflexivity.
Qed.

(** C4 (amended).  For every valid input, the launcher succeeds and adds to the
    entries of [gradTfms] of transform (b, k) the sum over all cells (r, c) of
    batch b of the per-point contribution whose rotation entry (a, j) is
    [w_k * g_a * p_j] (the outer product [w_k * g (x) p]) and whose translation
    entry [a] is [w_k * g_a]; on the zeroed buffer the entry point passes, the
    final value is that sum. *)
Theorem backward_gradTfms_is_sum
        {F : Type} {ops : Scalar F} (Hexact : exact_scalar F)
        (constTfms points masks tfms gradTfmpoints : buffer F) (B R C K : Z) (ts : Strides)
        (sh0 : buffer F) (rg0 : buffer (vec3 F)) (g : Grads F) (b k i : Z) :
  0 <= K -> 1 <= R -> 1 <= C ->
  B * 3 * R * C <= INT_MAX -> B * K * R * C <= INT_MAX -> B * K * 12 <= 15000 ->
  12288 + 48 * K <= 32000 ->
  st0 ts = K * 12 ->
  0 <= b < B -> 0 <= k < K -> 0 <= i < 12 ->
  let a := b * (K * 12) + (k * 12 + i) in
  let total :=
    plain_sum R C
      (fun r c => tfm_grad_per_point
                    (masks (offset (contiguous B K R C) b k r c))
                    (point_at points (contiguous B 3 R C) b r c)
                    (point_at gradTfmpoints (contiguous B 3 R C) b r c) i) in
  exists out,
    NTfm3D_BackwardLauncher constTfms points masks tfms gradTfmpoints B 3 R C K (B * K * 12)
      (contiguous B 3 R C) (contiguous B K R C) ts sh0 rg0 g = Done out /\
    gradTfms out a = fadd (gradTfms g a) total /\
    (gradTfms g a = fzero -> gradTfms out a = total).
Proof.
  intros HK HR HC Hmax Hmax' Hcap Hshared Hts Hb Hk Hi a total.
  destruct (backward_launcher_runs constTfms points masks tfms gradTfmpoints B R C K ts
              sh0 rg0 g) as (cst & Hcst & Erun); try lia.
  eexists. split; [exact Erun|].
  assert (Hts' : st0 (cast_strides ts) = K * 12).
  { unfold cast_strides; cbn [st0]. rewrite Hts. apply to_int_small. unfold INT_MAX. nia. }
  pose proof (ceil_div_nonneg C 16 ltac:(lia) ltac:(lia)).
  pose proof (ceil_div_nonneg R 16 ltac:(lia) ltac:(lia)).
  pose proof (ceil_div_covers C 16 ltac:(lia) ltac:(lia)).
  pose proof (ceil_div_covers R 16 ltac:(lia) ltac:(lia)).
  assert (E : gradTfms
                (launch_computeGradients cst points masks gradTfmpoints R C K
                   (contiguous B 3 R C) (contiguous B K R C) (cast_strides ts)
                   (ceil_div C 16) (ceil_div R 16) B 16 16 sh0 rg0 g) a =
              fadd (gradTfms g a) total).
  { unfold a. rewrite (grid_gradTfms_plain_sum Hexact) with (m := 8); auto; try lia.
    f_equal. apply plain_sum_ext. intros r c Hr Hc.
    apply (tfm_grad_entry_per_point Hexact). exact Hi. }
  split; [exact E|].
  intros Hz. rewrite E, Hz.
  pose proof Hexact as Hring. destruct Hring as [Hadd0 _ _ _ _ _ _ _ _]. apply Hadd0.
Qed.

Lemma backward_gradTfms_is_sum_witness :
  let a := 0 * (1 * 12) + (0 * 12 + 4) in
  let total :=
    plain_sum 1 1
      (fun r c => tfm_grad_per_point
                    (scenario_masks (offset (contiguous 1 1 1 1) 0 0 r c))
                    (point_at scenario_points (contiguous 1 3 1 1) 0 r c)
                    (point_at scenario_gradOut (contiguous 1 3 1 1) 0 r c) 4) in
  exists out,
    NTfm3D_BackwardLauncher zero_buffer scenario_points scenario_masks scenario_tfms
      scenario_gradOut 1 3 1 1 1 (1 * 1 * 12) (contiguous 1 3 1 1) (contiguous 1 1 1 1)
      scenario_ts zero_buffer sample_regs sample_grads = Done out /\
    gradTfms out a = fadd (gradTfms sample_grads a) total /\
    (gradTfms sample_grads a = fzero -> gradTfms out a = total).
Proof.
  apply (backward_gradTfms_is_sum Z_exact zero_buffer scenario_points scenario_masks
           scenario_tfms scenario_gradOut 1 1 1 1 scenario_ts zero_buffer sample_regs
           sample_grads 0 0 4);
    unfold INT_MAX; try lia; reflexivity.
Defined.

(** ** Point and mask gradients: one block *)

Section BackwardCells.
Context {F : Type} {ops : Scalar F}.
Variables (constTfms points masks gradTfmpoints : buffer F).
Variables (R C K : Z) (ps ms ts : Strides).
Variables (bx by_ bz dx dy : Z).
Hypothesis Hdx : 0 < dx.
Hypothesis Hdy : 0 < dy.

Local Abbreviation point_grad_step := (point_grad_step constTfms masks gradTfmpoints ps ms ts).
Local Abbreviation mask_grad_value := (mask_grad_value constTfms points gradTfmpoints ps ts).
Local Abbreviation within := (within R C bx by_ dx dy).
Local Abbreviation point_grad_value :=
  (point_grad_value constTfms masks gradTfmpoints K ps ms ts).

Let step (k : Z) := grad_step constTfms points masks gradTfmpoints R C ps ms ts
                      bx by_ bz dx dy k.
Let pass := transform_pass constTfms points masks gradTfmpoints R C ps ms ts
              bx by_ bz dx dy.

Lemma grad_step_within (k tx ty : Z) (st : BlockState F) :
  within tx ty = true ->
  regs (step k tx ty st) =
    store (regs st) (tx + ty * dx)
      (point_grad_step bz (by_ * dy + ty) (bx * dx + tx) k (regs st (tx + ty * dx))) /\
  blk_gradMasks (step k tx ty st) =
    cstore (blk_gradMasks st) (offset ms bz k (by_ * dy + ty) (bx * dx + tx))
      (mask_grad_value bz (by_ * dy + ty) (bx * dx + tx) k).
Proof.
  intros Hw. unfold within in Hw. unfold step, grad_step. cbv zeta. rewrite Hw.
  cbn [regs blk_gradMasks]. split; reflexivity.
Qed.

Lemma grad_step_outside (k tx ty : Z) (st : BlockState F) :
  within tx ty = false ->
  regs (step k tx ty st) = regs st /\ blk_gradMasks (step k tx ty st) = blk_gradMasks st.
Proof.
  intros Hw. unfold within in Hw. unfold step, grad_step. cbv zeta. rewrite Hw.
  cbn [regs blk_gradMasks]. split; reflexivity.
Qed.

Lemma grad_step_regs_other (k tx ty tid : Z) (st : BlockState F) :
  tid <> tx + ty * dx -> regs (step k tx ty st) tid = regs st tid.
Proof.
  intros Hne. destruct (within tx ty) eqn:Hw.
  - destruct (grad_step_within k tx ty st Hw) as [-> _]. now apply store_other.
  - destruct (grad_step_outside k tx ty st Hw) as [-> _]. reflexivity.
Qed.

(** The accumulators of a thread within limits after pass [k]. *)
Lemma pass_regs (k tx ty : Z) (st : BlockState F) :
  0 <= tx < dx -> 0 <= ty < dy -> within tx ty = true ->
  regs (pass k st) (tx + ty * dx) =
  point_grad_step bz (by_ * dy + ty) (bx * dx + tx) k (regs st (tx + ty * dx)).
Proof.
  intros Hx Hy Hw. unfold pass, transform_pass. cbv zeta. cbn [regs].
  unfold run_threads. fold (step k).
  apply (nest2_one (fun st : BlockState F => regs st (tx + ty * dx))
           (point_grad_step bz (by_ * dy + ty) (bx * dx + tx) k) tx ty); auto.
  - intros t. destruct (grad_step_within k tx ty t Hw) as [-> _]. apply store_same.
  - intros x y t Hx' Hy' Hne. apply grad_step_regs_other.
    intros E. apply (tid_unique dx) in E; auto. lia.
Qed.

Lemma passes_regs (tx ty : Z) (st : BlockState F) :
  0 <= tx < dx -> 0 <= ty < dy -> within tx ty = true ->
  regs (for_upto K pass st) (tx + ty * dx) =
  for_upto K (point_grad_step bz (by_ * dy + ty) (bx * dx + tx)) (regs st (tx + ty * dx)).
Proof.
  intros Hx Hy Hw. unfold for_upto.
  apply (for_range_obs (fun st : BlockState F => regs st (tx + ty * dx))).
  intros k t Hk. apply pass_regs; auto.
Qed.

Lemma init_regs (tx ty : Z) (rg0 : buffer (vec3 F)) :
  0 <= tx < dx -> 0 <= ty < dy -> within tx ty = true ->
  run_threads dx dy (init_step gradTfmpoints R C ps bx by_ bz dx dy) rg0 (tx + ty * dx) =
  point_at gradTfmpoints ps bz (by_ * dy + ty) (bx * dx + tx).
Proof.
  intros Hx Hy Hw. unfold run_threads.
  apply (nest2_one (fun rg : buffer (vec3 F) => rg (tx + ty * dx))
           (fun _ => point_at gradTfmpoints ps bz (by_ * dy + ty) (bx * dx + tx)) tx ty); auto.
  - intros t. unfold init_step. cbv zeta. unfold within in Hw. rewrite Hw. apply store_same.
  - intros x y t Hx' Hy' Hne. unfold init_step. cbv zeta.
    destruct ((bx * dx + x <? C) && (by_ * dy + y <? R)); [|reflexivity].
    apply store_other. intros E. apply (tid_unique dx) in E; auto. lia.
Qed.

Lemma block_regs (tx ty : Z) (sh0 : buffer F) (rg0 : buffer (vec3 F)) (gm : cbuffer F) :
  0 <= tx < dx -> 0 <= ty < dy -> within tx ty = true ->
  regs (for_upto K pass
          {| sharedData := sh0;
             regs := run_threads dx dy (init_step gradTfmpoints R C ps bx by_ bz dx dy) rg0;
             blk_gradMasks := gm |}) (tx + ty * dx) =
  point_grad_value bz (by_ * dy + ty) (bx * dx + tx).
Proof.
  intros Hx Hy Hw. rewrite passes_regs by auto. cbn [regs].
  rewrite init_regs by auto. reflexivity.
Qed.

End BackwardCells.

Lemma cstore_same {A : Type} (m : cbuffer A) (a : Z) (v : A) :
  cval (cstore m a v) a = v /\ cwrites (cstore m a v) a = Datatypes.S (cwrites m a).
Proof. unfold cstore; cbn [cval cwrites]. rewrite store_same, Z.eqb_refl. auto. Qed.

Lemma cstore_other {A : Type} (m : cbuffer A) (a a' : Z) (v : A) :
  a' <> a ->
  cval (cstore m a v) a' = cval m a' /\ cwrites (cstore m a v) a' = cwrites m a'.
Proof.
  intros Hne. unfold cstore; cbn [cval cwrites]. rewrite store_other by exact Hne.
  apply Z.eqb_neq in Hne. rewrite Hne. auto.
Qed.

Section BackwardCellsContiguous.
Context {F : Type} {ops : Scalar F}.
Variables (constTfms points masks gradTfmpoints : buffer F).
Variables (B R C K : Z) (ts : Strides).
Variables (dx dy : Z).
Hypothesis Hdx : 0 < dx.
Hypothesis Hdy : 0 < dy.

Let ps := contiguous B 3 R C.
Let ms := contiguous B K R C.

Lemma points_phase_hit (bx by_ bz tx ty i : Z) (rg : buffer (vec3 F)) (gp : buffer F) :
  0 <= bx -> 0 <= by_ -> 0 <= tx < dx -> 0 <= ty < dy ->
  within R C bx by_ dx dy tx ty = true -> 0 <= i < 3 ->
  run_threads dx dy (points_step R C ps bx by_ bz dx dy rg) gp
    (offset ps bz i (by_ * dy + ty) (bx * dx + tx)) = vget (rg (tx + ty * dx)) i.
Proof.
  intros Hbx Hby Hx Hy Hw Hi.
  assert (Hw' := Hw). unfold within in Hw'. apply andb_true_iff in Hw'.
  destruct Hw' as [Hc Hr]. apply Z.ltb_lt in Hc. apply Z.ltb_lt in Hr.
  unfold run_threads.
  apply (nest2_one
           (fun gp : buffer F => gp (offset ps bz i (by_ * dy + ty) (bx * dx + tx)))
           (fun _ => vget (rg (tx + ty * dx)) i) tx ty); auto.
  - intros t. unfold points_step. cbv zeta. unfold within in Hw. rewrite Hw.
    apply (three_stores_hit B 3 R C); auto; nia.
  - intros x y t Hx' Hy' Hne. unfold points_step. cbv zeta.
    destruct ((bx * dx + x <? C) && (by_ * dy + y <? R)) eqn:Hw2; [|reflexivity].
    apply andb_true_iff in Hw2. destruct Hw2 as [Hc2 Hr2].
    apply Z.ltb_lt in Hc2. apply Z.ltb_lt in Hr2.
    apply three_stores_miss. intros i' Hi' E.
    apply offset_contiguous_inj in E; [|nia..]. lia.
Qed.

Lemma points_phase_miss (bx by_ bz a : Z) (rg : buffer (vec3 F)) (gp : buffer F) :
  (forall tx ty i, 0 <= tx < dx -> 0 <= ty < dy -> within R C bx by_ dx dy tx ty = true ->
                   0 <= i < 3 -> a <> offset ps bz i (by_ * dy + ty) (bx * dx + tx)) ->
  run_threads dx dy (points_step R C ps bx by_ bz dx dy rg) gp a = gp a.
Proof.
  intros Ha. unfold run_threads.
  apply (nest2_untouched (fun gp : buffer F => gp a)).
  intros x y t Hx Hy. unfold points_step. cbv zeta.
  destruct ((bx * dx + x <? C) && (by_ * dy + y <? R)) eqn:Hw; [|reflexivity].
  apply three_stores_miss. intros i Hi. apply Ha; auto.
Qed.

(** The mask gradient after the first phase of pass [k]. *)
Lemma masks_phase_hit (bx by_ bz k tx ty : Z) (st : BlockState F) :
  0 <= bx -> 0 <= by_ -> 0 <= tx < dx -> 0 <= ty < dy -> 0 <= k < K ->
  within R C bx by_ dx dy tx ty = true ->
  let a := offset ms bz k (by_ * dy + ty) (bx * dx + tx) in
  cell_view (blk_gradMasks
               (run_threads dx dy
                  (grad_step constTfms points masks gradTfmpoints R C ps ms ts
                     bx by_ bz dx dy k) st)) a =
  (mask_grad_value constTfms points gradTfmpoints ps ts bz (by_ * dy + ty) (bx * dx + tx) k,
   Datatypes.S (cwrites (blk_gradMasks st) a)).
Proof.
  intros Hbx Hby Hx Hy Hk Hw a.
  assert (Hw' := Hw). unfold within in Hw'. apply andb_true_iff in Hw'.
  destruct Hw' as [Hc Hr]. apply Z.ltb_lt in Hc. apply Z.ltb_lt in Hr.
  unfold run_threads.
  apply (nest2_one
           (fun st : BlockState F => cell_view (blk_gradMasks st) a)
           (fun vn => (mask_grad_value constTfms points gradTfmpoints ps ts bz
                         (by_ * dy + ty) (bx * dx + tx) k, Datatypes.S (snd vn))) tx ty); auto.
  - intros t.
    destruct (grad_step_within constTfms points masks gradTfmpoints R C ps ms ts
                bx by_ bz dx dy k tx ty t Hw) as [_ ->].
    unfold cell_view. fold a. destruct (cstore_same (blk_gradMasks t) a
      (mask_grad_value constTfms points gradTfmpoints ps ts bz
         (by_ * dy + ty) (bx * dx + tx) k)) as [-> ->]. reflexivity.
  - intros x y t Hx' Hy' Hne.
    destruct (within R C bx by_ dx dy x y) eqn:Hw2.
    + destruct (grad_step_within constTfms points masks gradTfmpoints R C ps ms ts
                  bx by_ bz dx dy k x y t Hw2) as [_ ->].
      unfold within in Hw2. apply andb_true_iff in Hw2. destruct Hw2 as [Hc2 Hr2].
      apply Z.ltb_lt in Hc2. apply Z.ltb_lt in Hr2.
      unfold cell_view.
      destruct (cstore_other (blk_gradMasks t)
                  (offset ms bz k (by_ * dy + y) (bx * dx + x)) a
                  (mask_grad_value constTfms points gradTfmpoints ps ts bz
                     (by_ * dy + y) (bx * dx + x) k)) as [-> ->]; [|reflexivity].
      unfold a. intros E. apply offset_contiguous_inj in E; [|nia..]. lia.
    + destruct (grad_step_outside constTfms points masks gradTfmpoints R C ps ms ts
                  bx by_ bz dx dy k x y t Hw2) as [_ ->]. reflexivity.
Qed.

Lemma masks_phase_miss (bx by_ bz k a : Z) (st : BlockState F) :
  (forall tx ty, 0 <= tx < dx -> 0 <= ty < dy -> within R C bx by_ dx dy tx ty = true ->
                 a <> offset ms bz k (by_ * dy + ty) (bx * dx + tx)) ->
  cell_view (blk_gradMasks
               (run_threads dx dy
                  (grad_step constTfms points masks gradTfmpoints R C ps ms ts
                     bx by_ bz dx dy k) st)) a =
  cell_view (blk_gradMasks st) a.
Proof.
  intros Ha. unfold run_threads.
  apply (nest2_untouched (fun st : BlockState F => cell_view (blk_gradMasks st) a)).
  intros x y t Hx Hy.
  destruct (within R C bx by_ dx dy x y) eqn:Hw.
  - destruct (grad_step_within constTfms points masks gradTfmpoints R C ps ms ts
                bx by_ bz dx dy k x y t Hw) as [_ ->].
    unfold cell_view.
    destruct (cstore_other (blk_gradMasks t)
                (offset ms bz k (by_ * dy + y) (bx * dx + x)) a
                (mask_grad_value constTfms points gradTfmpoints ps ts bz
                   (by_ * dy + y) (bx * dx + x) k)) as [-> ->]; auto.
  - destruct (grad_step_outside constTfms points masks gradTfmpoints R C ps ms ts
                bx by_ bz dx dy k x y t Hw) as [_ ->]. reflexivity.
Qed.

End BackwardCellsContiguous.

(** ** Point and mask gradients over the whole grid *)

Section BackwardGrid.
Context {F : Type} {ops : Scalar F}.
Variables (constTfms points masks gradTfmpoints : buffer F).
Variables (B R C K : Z) (ts : Strides).
Variables (dx dy gx gy : Z).
Hypothesis Hdx : 0 < dx.
Hypothesis Hdy : 0 < dy.
Hypothesis Hgx : C <= gx * dx.
Hypothesis Hgy : R <= gy * dy.

Let ps := contiguous B 3 R C.
Let ms := contiguous B K R C.
Let block (bx by_ bz : Z) :=
  computeGradients constTfms points masks gradTfmpoints R C K ps ms ts bx by_ bz dx dy.

Lemma block_gradPoints_hit (bx by_ bz tx ty i : Z) (sh0 : buffer F) (rg0 : buffer (vec3 F))
      (g : Grads F) :
  0 <= bx -> 0 <= by_ -> 0 <= tx < dx -> 0 <= ty < dy ->
  within R C bx by_ dx dy tx ty = true -> 0 <= i < 3 ->
  gradPoints (block bx by_ bz sh0 rg0 g) (offset ps bz i (by_ * dy + ty) (bx * dx + tx)) =
  vget (point_grad_value constTfms masks gradTfmpoints K ps ms ts bz
          (by_ * dy + ty) (bx * dx + tx)) i.
Proof.
  intros Hbx Hby Hx Hy Hw Hi. unfold block, computeGradients. cbv zeta. cbn [gradPoints].
  unfold ps. rewrite points_phase_hit by auto. fold ps.
  rewrite block_regs by auto. reflexivity.
Qed.

Lemma block_gradPoints_miss (bx by_ bz a : Z) (sh0 : buffer F) (rg0 : buffer (vec3 F))
      (g : Grads F) :
  (forall tx ty i, 0 <= tx < dx -> 0 <= ty < dy -> within R C bx by_ dx dy tx ty = true ->
                   0 <= i < 3 -> a <> offset ps bz i (by_ * dy + ty) (bx * dx + tx)) ->
  gradPoints (block bx by_ bz sh0 rg0 g) a = gradPoints g a.
Proof.
  intros Ha. unfold block, computeGradients. cbv zeta. cbn [gradPoints].
  apply points_phase_miss; auto.
Qed.

Lemma block_gradMasks_hit (bx by_ bz k tx ty : Z) (sh0 : buffer F) (rg0 : buffer (vec3 F))
      (g : Grads F) :
  0 <= bx -> 0 <= by_ -> 0 <= tx < dx -> 0 <= ty < dy -> 0 <= k < K ->
  within R C bx by_ dx dy tx ty = true ->
  let a := offset ms bz k (by_ * dy + ty) (bx * dx + tx) in
  cell_view (gradMasks (block bx by_ bz sh0 rg0 g)) a =
  (mask_grad_value constTfms points gradTfmpoints ps ts bz (by_ * dy + ty) (bx * dx + tx) k,
   Datatypes.S (cwrites (gradMasks g) a)).
Proof.
  intros Hbx Hby Hx Hy Hk Hw a.
  assert (Hw' := Hw). unfold within in Hw'. apply andb_true_iff in Hw'.
  destruct Hw' as [Hc Hr]. apply Z.ltb_lt in Hc. apply Z.ltb_lt in Hr.
  unfold block, computeGradients. cbv zeta. cbn [gradMasks].
  match goal with
  | |- cell_view (blk_gradMasks (for_upto K ?body ?st0)) a = _ =>
      apply (for_upto_one (fun st : BlockState F => cell_view (blk_gradMasks st) a)
               (fun vn => (mask_grad_value constTfms points gradTfmpoints ps ts bz
                             (by_ * dy + ty) (bx * dx + tx) k, Datatypes.S (snd vn)))
               k K body st0)
  end; auto.
  - intros t. unfold transform_pass. cbv zeta. cbn [blk_gradMasks].
    unfold a, ms, ps. rewrite masks_phase_hit by auto. reflexivity.
  - intros k' t Hk' Hne. unfold transform_pass. cbv zeta. cbn [blk_gradMasks].
    unfold ms, ps. apply masks_phase_miss; auto.
    intros x y Hx' Hy' Hw2.
    unfold within in Hw2. apply andb_true_iff in Hw2. destruct Hw2 as [Hc2 Hr2].
    apply Z.ltb_lt in Hc2. apply Z.ltb_lt in Hr2.
    unfold a, ms. intros E. apply offset_contiguous_inj in E; [|nia..]. lia.
Qed.

Lemma block_gradMasks_miss (bx by_ bz a : Z) (sh0 : buffer F) (rg0 : buffer (vec3 F))
      (g : Grads F) :
  (forall k tx ty, 0 <= k < K -> 0 <= tx < dx -> 0 <= ty < dy ->
                   within R C bx by_ dx dy tx ty = true ->
                   a <> offset ms bz k (by_ * dy + ty) (bx * dx + tx)) ->
  cell_view (gradMasks (block bx by_ bz sh0 rg0 g)) a = cell_view (gradMasks g) a.
Proof.
  intros Ha. unfold block, computeGradients. cbv zeta. cbn [gradMasks].
  apply (for_upto_untouched (fun st : BlockState F => cell_view (blk_gradMasks st) a)).
  intros k t Hk. unfold transform_pass. cbv zeta. cbn [blk_gradMasks].
  unfold ms, ps. apply masks_phase_miss; auto.
Qed.

(** The block and the thread of a cell. *)
Lemma cell_thread (n d g x : Z) :
  0 < d -> n <= g * d -> 0 <= x < n ->
  0 <= x / d < g /\ 0 <= x mod d < d /\ x / d * d + x mod d = x.
Proof.
  intros Hd Hg Hx.
  pose proof (Z.div_mod x d ltac:(lia)). pose proof (Z.mod_pos_bound x d Hd).
  repeat split; try lia.
  - apply Z.div_pos; lia.
  - apply Z.div_lt_upper_bound; nia.
Qed.

Lemma cell_within (bx by_ tx ty : Z) :
  0 <= bx * dx + tx < C -> 0 <= by_ * dy + ty < R ->
  within R C bx by_ dx dy tx ty = true.
Proof.
  intros Hc Hr. unfold within. apply andb_true_iff; split; apply Z.ltb_lt; lia.
Qed.

Lemma grid_gradPoints (b r c i : Z) (sh0 : buffer F) (rg0 : buffer (vec3 F)) (g : Grads F) :
  0 <= b < B -> 0 <= r < R -> 0 <= c < C -> 0 <= i < 3 ->
  gradPoints (launch_computeGradients constTfms points masks gradTfmpoints R C K ps ms ts
                gx gy B dx dy sh0 rg0 g) (offset ps b i r c) =
  vget (point_grad_value constTfms masks gradTfmpoints K ps ms ts b r c) i.
Proof.
  intros Hb Hr Hc Hi.
  destruct (cell_thread C dx gx c Hdx Hgx Hc) as (Hbx & Htx & Ec).
  destruct (cell_thread R dy gy r Hdy Hgy Hr) as (Hby & Hty & Er).
  unfold launch_computeGradients.
  apply (for_upto_one (fun g : Grads F => gradPoints g (offset ps b i r c))
           (fun _ => vget (point_grad_value constTfms masks gradTfmpoints K ps ms ts b r c) i)
           b); auto.
  - intros t.
    apply (nest2_one (fun g : Grads F => gradPoints g (offset ps b i r c))
             (fun _ => vget (point_grad_value constTfms masks gradTfmpoints K ps ms ts b r c) i)
             (c / dx) (r / dy)); auto.
    + intros t'. fold (block (c / dx) (r / dy) b).
      pose proof (block_gradPoints_hit (c / dx) (r / dy) b (c mod dx) (r mod dy) i sh0 rg0 t')
        as E.
      rewrite Er, Ec in E. apply E; auto; try lia.
      apply cell_within; lia.
    + intros bx by_ t' Hbx' Hby' Hne. fold (block bx by_ b).
      apply block_gradPoints_miss.
      intros tx ty i' Hx Hy Hw Hi' E.
      unfold within in Hw. apply andb_true_iff in Hw. destruct Hw as [Hc2 Hr2].
      apply Z.ltb_lt in Hc2. apply Z.ltb_lt in Hr2.
      unfold ps in E. apply offset_contiguous_inj in E; [|nia..].
      destruct E as (_ & _ & Er' & Ec').
      assert (bx = c / dx) by (apply Z.div_unique with (r := tx); lia).
      assert (by_ = r / dy) by (apply Z.div_unique with (r := ty); lia).
      lia.
  - intros bz t Hbz Hne.
    apply (nest2_untouched (fun g : Grads F => gradPoints g (offset ps b i r c))).
    intros bx by_ t' Hbx' Hby'. fold (block bx by_ bz).
    apply block_gradPoints_miss.
    intros tx ty i' Hx Hy Hw Hi' E.
    unfold within in Hw. apply andb_true_iff in Hw. destruct Hw as [Hc2 Hr2].
    apply Z.ltb_lt in Hc2. apply Z.ltb_lt in Hr2.
    unfold ps in E. apply offset_contiguous_inj in E; [|nia..]. lia.
Qed.

Lemma grid_gradMasks (b k r c : Z) (sh0 : buffer F) (rg0 : buffer (vec3 F)) (g : Grads F) :
  0 <= b < B -> 0 <= k < K -> 0 <= r < R -> 0 <= c < C ->
  let a := offset ms b k r c in
  cell_view (gradMasks (launch_computeGradients constTfms points masks gradTfmpoints R C K
                          ps ms ts gx gy B dx dy sh0 rg0 g)) a =
  (mask_grad_value constTfms points gradTfmpoints ps ts b r c k,
   Datatypes.S (cwrites (gradMasks g) a)).
Proof.
  intros Hb Hk Hr Hc a.
  destruct (cell_thread C dx gx c Hdx Hgx Hc) as (Hbx & Htx & Ec).
  destruct (cell_thread R dy gy r Hdy Hgy Hr) as (Hby & Hty & Er).
  unfold launch_computeGradients.
  apply (for_upto_one (fun g : Grads F => cell_view (gradMasks g) a)
           (fun vn => (mask_grad_value constTfms points gradTfmpoints ps ts b r c k,
                       Datatypes.S (snd vn))) b); auto.
  - intros t.
    apply (nest2_one (fun g : Grads F => cell_view (gradMasks g) a)
             (fun vn => (mask_grad_value constTfms points gradTfmpoints ps ts b r c k,
                         Datatypes.S (snd vn))) (c / dx) (r / dy)); auto.
    + intros t'. fold (block (c / dx) (r / dy) b).
      pose proof (block_gradMasks_hit (c / dx) (r / dy) b k (c mod dx) (r mod dy) sh0 rg0 t')
        as E.
      cbv zeta in E. rewrite Er, Ec in E. apply E; auto; try lia.
      apply cell_within; lia.
    + intros bx by_ t' Hbx' Hby' Hne. fold (block bx by_ b).
      apply block_gradMasks_miss.
      intros k' tx ty Hk' Hx Hy Hw E.
      unfold within in Hw. apply andb_true_iff in Hw. destruct Hw as [Hc2 Hr2].
      apply Z.ltb_lt in Hc2. apply Z.ltb_lt in Hr2.
      unfold a, ms in E. apply offset_contiguous_inj in E; [|nia..].
      destruct E as (_ & _ & Er' & Ec').
      assert (bx = c / dx) by (apply Z.div_unique with (r := tx); lia).
      assert (by_ = r / dy) by (apply Z.div_unique with (r := ty); lia).
      lia.
  - intros bz t Hbz Hne.
    apply (nest2_untouched (fun g : Grads F => cell_view (gradMasks g) a)).
    intros bx by_ t' Hbx' Hby'. fold (block bx by_ bz).
    apply block_gradMasks_miss.
    intros k' tx ty Hk' Hx Hy Hw E.
    unfold within in Hw. apply andb_true_iff in Hw. destruct Hw as [Hc2 Hr2].
    apply Z.ltb_lt in Hc2. apply Z.ltb_lt in Hr2.
    unfold a, ms in E. apply offset_contiguous_inj in E; [|nia..]. lia.
Qed.

End BackwardGrid.

(** ** Point and mask gradients in the specification's words *)

Section GradientSpecProofs.
Context {F : Type} {ops : Scalar F} (Hexact : exact_scalar F).
Let gs_ring_theory : ring_theory fzero fone fadd fmul fsub fopp (@eq F) := Hexact.
Add Ring gs_ring : gs_ring_theory.

Lemma accumulate_in_order (n : nat) (d : Z -> vec3 F) (a0 : vec3 F) :
  for_range n (fun k acc => vadd acc (d k)) a0 = vadd a0 (vsum n d).
Proof.
  induction n as [|n IH]; simpl.
  - unfold vadd, vsum; simpl. destruct a0; simpl. f_equal; ring.
  - rewrite IH. unfold vadd, vsum; simpl. f_equal; ring.
Qed.

Lemma point_grad_value_spec
      (cst tfms masks gradTfmpoints : buffer F) (B K : Z) (ps ms ts : Strides) (b r c : Z) :
  0 <= b < B -> 0 <= K -> st0 ts = K * 12 -> st1 ts = 12 ->
  (forall i, 0 <= i < B * K * 12 -> cst i = tfms i) ->
  point_grad_value cst masks gradTfmpoints K ps ms ts b r c =
  point_gradient (point_at gradTfmpoints ps b r c)
    (fun k => masks (offset ms b k r c)) (fun k => tfm_at tfms K b k) (Z.to_nat K).
Proof.
  intros Hb HK E0 E1 Hc. unfold point_grad_value, point_gradient, for_upto.
  rewrite <- accumulate_in_order.
  apply for_range_ext. intros k acc Hk.
  unfold point_grad_step. cbv zeta. f_equal. f_equal. f_equal.
  unfold rotate_back, tfm_at. rewrite E0, E1.
  rewrite !Hc by (apply transform_index_bound; lia). reflexivity.
Qed.

Lemma mask_grad_value_spec
      (cst tfms points gradTfmpoints : buffer F) (B K : Z) (ps ts : Strides) (b r c k : Z) :
  0 <= b < B -> 0 <= k < K -> st0 ts = K * 12 -> st1 ts = 12 ->
  (forall i, 0 <= i < B * K * 12 -> cst i = tfms i) ->
  mask_grad_value cst points gradTfmpoints ps ts b r c k =
  mask_gradient (point_at points ps b r c) (point_at gradTfmpoints ps b r c)
    (tfm_at tfms K b k).
Proof.
  intros Hb Hk E0 E1 Hc. unfold mask_grad_value, mask_gradient. cbv zeta.
  unfold dot, vsub, translate, rotate_back, tfm_at. cbn [vx vy vz].
  rewrite E0, E1.
  rewrite !Hc by (apply transform_index_bound; lia). ring.
Qed.

End GradientSpecProofs.

(** C2.  For every valid input and every cell (b, r, c), the backward launcher
    succeeds and [gradPoints] at the cell is [g + sum_{k<K} w_k * (R_k^T g - g)],
    where [g] is the upstream gradient at the cell. *)
Theorem backward_gradPoints
        {F : Type} {ops : Scalar F} (Hexact : exact_scalar F)
        (constTfms points masks tfms gradTfmpoints : buffer F) (B R C K : Z) (ts : Strides)
        (sh0 : buffer F) (rg0 : buffer (vec3 F)) (g : Grads F) (b r c : Z) :
  0 <= K -> 0 <= b < B -> 0 <= r < R -> 0 <= c < C ->
  B * 3 * R * C <= INT_MAX -> B * K * R * C <= INT_MAX -> B * K * 12 <= 15000 ->
  12288 + 48 * K <= 32000 ->
  st0 ts = K * 12 -> st1 ts = 12 ->
  exists out,
    NTfm3D_BackwardLauncher constTfms points masks tfms gradTfmpoints B 3 R C K (B * K * 12)
      (contiguous B 3 R C) (contiguous B K R C) ts sh0 rg0 g = Done out /\
    point_at (gradPoints out) (contiguous B 3 R C) b r c =
    point_gradient (point_at gradTfmpoints (contiguous B 3 R C) b r c)
      (fun k => masks (offset (contiguous B K R C) b k r c))
      (fun k => tfm_at tfms K b k) (Z.to_nat K).
Proof.
  intros HK Hb Hr Hc Hmax Hmax' Hcap Hshared E0 E1.
  destruct (backward_launcher_runs constTfms points masks tfms gradTfmpoints B R C K ts
              sh0 rg0 g) as (cst & Hcst & Erun); try lia.
  eexists. split; [exact Erun|].
  assert (Hts0 : st0 (cast_strides ts) = K * 12).
  { unfold cast_strides; cbn [st0]. rewrite E0. apply to_int_small. unfold INT_MAX. nia. }
  assert (Hts1 : st1 (cast_strides ts) = 12).
  { unfold cast_strides; cbn [st1]. rewrite E1. reflexivity. }
  pose proof (ceil_div_covers C 16 ltac:(lia) ltac:(lia)).
  pose proof (ceil_div_covers R 16 ltac:(lia) ltac:(lia)).
  rewrite <- (point_grad_value_spec Hexact cst tfms masks gradTfmpoints B K
                (contiguous B 3 R C) (contiguous B K R C) (cast_strides ts) b r c) by auto.
  unfold point_at at 1.
  rewrite !grid_gradPoints by (auto; lia).
  generalize (point_grad_value cst masks gradTfmpoints K (contiguous B 3 R C)
                (contiguous B K R C) (cast_strides ts) b r c).
  intros [x y z]. reflexivity.
Qed.

Lemma backward_gradPoints_witness :
  exists out,
    NTfm3D_BackwardLauncher zero_buffer scenario_points scenario_masks scenario_tfms
      scenario_gradOut 1 3 1 1 1 (1 * 1 * 12) (contiguous 1 3 1 1) (contiguous 1 1 1 1)
      scenario_ts zero_buffer sample_regs sample_grads = Done out /\
    point_at (gradPoints out) (contiguous 1 3 1 1) 0 0 0 =
    point_gradient (point_at scenario_gradOut (contiguous 1 3 1 1) 0 0 0)
      (fun k => scenario_masks (offset (contiguous 1 1 1 1) 0 k 0 0))
      (fun k => tfm_at scenario_tfms 1 0 k) (Z.to_nat 1).
Proof.
  apply (backward_gradPoints Z_exact); unfold INT_MAX; try lia; reflexivity.
Defined.

(** C3.  For every valid input, every cell (b, r, c) and every transform index
    k, the backward launcher succeeds and [gradMasks[b, k, r, c]] is
    [p . (R_k^T g) + g . (t_k - p)], whatever the buffer held before; the cell
    is stored to exactly once during the launch. *)
Theorem backward_gradMasks
        {F : Type} {ops : Scalar F} (Hexact : exact_scalar F)
        (constTfms points masks tfms gradTfmpoints : buffer F) (B R C K : Z) (ts : Strides)
        (sh0 : buffer F) (rg0 : buffer (vec3 F)) (g : Grads F) (b k r c : Z) :
  0 <= b < B -> 0 <= k < K -> 0 <= r < R -> 0 <= c < C ->
  B * 3 * R * C <= INT_MAX -> B * K * R * C <= INT_MAX -> B * K * 12 <= 15000 ->
  12288 + 48 * K <= 32000 ->
  st0 ts = K * 12 -> st1 ts = 12 ->
  let a := offset (contiguous B K R C) b k r c in
  exists out,
    NTfm3D_BackwardLauncher constTfms points masks tfms gradTfmpoints B 3 R C K (B * K * 12)
      (contiguous B 3 R C) (contiguous B K R C) ts sh0 rg0 g = Done out /\
    cval (gradMasks out) a =
      mask_gradient (point_at points (contiguous B 3 R C) b r c)
        (point_at gradTfmpoints (contiguous B 3 R C) b r c) (tfm_at tfms K b k) /\
    cwrites (gradMasks out) a = Datatypes.S (cwrites (gradMasks g) a).
Proof.
  intros Hb Hk Hr Hc Hmax Hmax' Hcap Hshared E0 E1 a.
  destruct (backward_launcher_runs constTfms points masks tfms gradTfmpoints B R C K ts
              sh0 rg0 g) as (cst & Hcst & Erun); try lia.
  eexists. split; [exact Erun|].
  assert (Hts0 : st0 (cast_strides ts) = K * 12).
  { unfold cast_strides; cbn [st0]. rewrite E0. apply to_int_small. unfold INT_MAX. nia. }
  assert (Hts1 : st1 (cast_strides ts) = 12).
  { unfold cast_strides; cbn [st1]. rewrite E1. reflexivity. }
  pose proof (ceil_div_covers C 16 ltac:(lia) ltac:(lia)) as HcC.
  pose proof (ceil_div_covers R 16 ltac:(lia) ltac:(lia)) as HcR.
  pose proof (grid_gradMasks cst points masks gradTfmpoints B R C K (cast_strides ts)
                16 16 (ceil_div C 16) (ceil_div R 16) ltac:(lia) ltac:(lia) HcC HcR
                b k r c sh0 rg0 g Hb Hk Hr Hc) as E.
  cbv zeta in E. fold a in E. unfold cell_view in E.
  injection E as Eval Ecnt. split; [|exact Ecnt].
  rewrite Eval. apply (mask_grad_value_spec Hexact) with (B := B); auto.
Qed.

Lemma backward_gradMasks_witness :
  let a := offset (contiguous 1 1 1 1) 0 0 0 0 in
  exists out,
    NTfm3D_BackwardLauncher zero_buffer scenario_points scenario_masks scenario_tfms
      scenario_gradOut 1 3 1 1 1 (1 * 1 * 12) (contiguous 1 3 1 1) (contiguous 1 1 1 1)
      scenario_ts zero_buffer sample_regs sample_grads = Done out /\
    cval (gradMasks out) a =
      mask_gradient (point_at scenario_points (contiguous 1 3 1 1) 0 0 0)
        (point_at scenario_gradOut (contiguous 1 3 1 1) 0 0 0) (tfm_at scenario_tfms 1 0 0) /\
    cwrites (gradMasks out) a = Datatypes.S (cwrites (gradMasks sample_grads) a).
Proof.
  apply (backward_gradMasks Z_exact); unfold INT_MAX; try lia; reflexivity.
Defined.

(** ** The entry points: capacity check and gradient buffers *)

Section EntryPointProofs.
Context {F : Type} {ops : Scalar F}.

Lemma check_capacity_spec (n : Z) :
  (n <= 15000 -> check_capacity n = Done tt) /\
  (15001 <= n -> check_capacity n = Fatal CapacityExceeded).
Proof.
  unfold check_capacity. split; intros H.
  - replace (15000 <? n) with false by (symmetry; apply Z.ltb_ge; lia). reflexivity.
  - replace (15000 <? n) with true by (symmetry; apply Z.ltb_lt; lia). reflexivity.
Qed.

(** While the number of transform scalars fits an [int], the entry points
    accept it exactly up to 15000. *)
Lemma forward_capacity_in_int_range (points masks tfms tfmpoints : Tensor F) :
  to_int (size_at points 1) = 3 ->
  0 <= nElement tfms <= INT_MAX ->
  (nElement tfms <= 15000 ->
   exists call, NTfm3DDelta_forward_prepare points masks tfms tfmpoints = Done call) /\
  (15001 <= nElement tfms ->
   NTfm3DDelta_forward_prepare points masks tfms tfmpoints = Fatal CapacityExceeded).
Proof.
  intros Hdim Hn. unfold NTfm3DDelta_forward_prepare. cbv zeta.
  rewrite Hdim. cbn [check_ndim Z.eqb Pos.eqb].
  rewrite (to_int_small (nElement tfms)) by (unfold INT_MAX in *; lia).
  destruct (check_capacity_spec (nElement tfms)) as [Hok Hbad].
  split; intros H.
  - rewrite Hok by exact H. eexists. reflexivity.
  - rewrite Hbad by exact H. reflexivity.
Qed.

Lemma fold_store_spec {A : Type} (l : list Z) (v : A) (m : buffer A) (o : Z) :
  fold_left (fun m o => store m o v) l m o = if in_dec Z.eq_dec o l then v else m o.
Proof.
  revert m. induction l as [|x l IH]; intros m; simpl; [reflexivity|].
  rewrite IH. destruct (in_dec Z.eq_dec o l) as [Hin | Hout].
  - destruct (Z.eq_dec x o); reflexivity.
  - destruct (Z.eq_dec x o) as [-> | Hne].
    + apply store_same.
    + apply store_other. congruence.
Qed.

Lemma fill_spec {A : Type} (t : Tensor A) (v : A) (o : Z) :
  In o (offsets_of t) -> data (fill t v) o = v.
Proof.
  intros Hin. unfold fill; cbn [data]. rewrite fold_store_spec.
  destruct (in_dec Z.eq_dec o (offsets_of t)); [reflexivity | contradiction].
Qed.

End EntryPointProofs.

(** C6, the failing input: 2^32 + 8 transform scalars are far above the
    capacity, yet the count is stored in an [int], where it reads 8; the check
    passes, the forward and the backward entry point go on to their launcher
    with a count of 8, and the forward entry point of the fused loss returns
    a loss. *)
Lemma capacity_check_wraps :
  let points := huge_points zero_buffer in
  let masks := huge_masks zero_buffer in
  let tfms := huge_tfms zero_buffer in
  nElement tfms = 4294967304 /\
  to_int (nElement tfms) = 8 /\
  (exists call,
     NTfm3DDelta_forward_prepare points masks tfms points = Done call /\
     fc_nTfmParams call = 8) /\
  (exists call,
     NTfm3DDelta_backward_prepare points masks tfms points points masks tfms points =
     Done call /\
     bc_nTfmParams call = 8) /\
  Weighted3DTransformLoss_forward_cuda (fun _ => fone)
    (huge_points (fun _ => fone)) (huge_masks (fun _ => fone)) (huge_tfms (fun _ => fone))
    (huge_points (fun _ => fone)) 0 = Done 0.
Proof.
  cbv zeta.
  split; [reflexivity|]. split; [reflexivity|].
  split; [eexists; split; reflexivity|].
  split; [eexists; split; reflexivity|].
  vm_compute. reflexivity.
Qed.

(** The boundary of the check itself. *)
Lemma capacity_boundary :
  check_capacity (to_int 15000) = Done tt /\
  check_capacity (to_int 15001) = Fatal CapacityExceeded.
Proof. split; reflexivity. Qed.

(** C8, as stated, fails: the entry point passes the mask gradient to the
    launcher as it received it; a buffer of nines is still a buffer of nines. *)
Lemma gradMasks_not_zeroed_counterexample :
  exists call,
    NTfm3DDelta_backward_prepare
      (unit_points zero_buffer) (unit_masks zero_buffer) (unit_tfms zero_buffer)
      (unit_points zero_buffer)
      (unit_points (fun _ => 9)) (unit_masks (fun _ => 9)) (unit_tfms (fun _ => 9))
      (unit_points zero_buffer) = Done call /\
    data (bc_gradPoints call) 0 = 0 /\
    data (bc_gradTfms call) 0 = 0 /\
    data (bc_gradMasks call) 0 = 9.
Proof.
  eexists. split; [reflexivity|]. repeat split.
Qed.

(** C8 (amended).  Before the backward kernel runs, the backward entry point
    sets every element of the point gradient and of the transform gradient to
    zero; the mask gradient is handed to the launcher unchanged. *)
Theorem backward_zero_initialises
        {F : Type} {ops : Scalar F}
        (points masks tfms tfmpoints gradPoints0 gradMasks0 gradTfms0 gradTfmpoints : Tensor F) :
  size_at points 1 = 3 ->
  to_int (nElement tfms) <= 15000 ->
  exists call,
    NTfm3DDelta_backward_prepare points masks tfms tfmpoints
      gradPoints0 gradMasks0 gradTfms0 gradTfmpoints = Done call /\
    (forall o, In o (offsets_of gradPoints0) -> data (bc_gradPoints call) o = fzero) /\
    (forall o, In o (offsets_of gradTfms0) -> data (bc_gradTfms call) o = fzero) /\
    bc_gradMasks call = gradMasks0.
Proof.
  intros Hdim Hcap. unfold NTfm3DDelta_backward_prepare. cbv zeta.
  rewrite Hdim. cbn [check_ndim Z.eqb Pos.eqb].
  destruct (check_capacity_spec (to_int (nElement tfms))) as [Hok _].
  rewrite Hok by exact Hcap.
  eexists. split; [reflexivity|]. cbn [bc_gradPoints bc_gradTfms bc_gradMasks].
  repeat split; intros o Ho; apply fill_spec; exact Ho.
Qed.

Lemma backward_zero_initialises_witness :
  exists call,
    NTfm3DDelta_backward_prepare
      (unit_points zero_buffer) (unit_masks zero_buffer) (unit_tfms zero_buffer)
      (unit_points zero_buffer)
      (unit_points (fun _ => 9)) (unit_masks (fun _ => 9)) (unit_tfms (fun _ => 9))
      (unit_points zero_buffer) = Done call /\
    (forall o, In o (offsets_of (unit_points (fun _ : Z => 9))) ->
               data (bc_gradPoints call) o = fzero) /\
    (forall o, In o (offsets_of (unit_tfms (fun _ : Z => 9))) ->
               data (bc_gradTfms call) o = fzero) /\
    bc_gradMasks call = unit_masks (fun _ => 9).
Proof.
  apply (backward_zero_initialises
           (unit_points zero_buffer) (unit_masks zero_buffer) (unit_tfms zero_buffer)
           (unit_points zero_buffer)
           (unit_points (fun _ => 9)) (unit_masks (fun _ => 9)) (unit_tfms (fun _ => 9))
           (unit_points zero_buffer)).
  - reflexivity.
  - vm_compute. discriminate.
Defined.

(** C9, the failing input: the kernel returns a squared-error sum of 1.0; half
    of it is 0.5, and the [int] the function returns is 0.  With averaging and
    a sum of 12.0 the divisor is the number of scalars of the point field (3
    for one point), so the float is 2.0. *)
Lemma loss_return_truncated :
  fmul (@fone binary32 _) fhalf = S754_finite false 8388608 (-24) /\
  Weighted3DTransformLoss_forward_cuda (fun _ => fone)
    (unit_points (fun _ => fone)) (unit_masks (fun _ => fone)) (unit_tfms (fun _ => fone))
    (unit_points (fun _ => fone)) 0 = Done 0 /\
  Weighted3DTransformLoss_forward_cuda (fun _ => float_of_int 12)
    (unit_points (fun _ => fone)) (unit_masks (fun _ => fone)) (unit_tfms (fun _ => fone))
    (unit_points (fun _ => fone)) 1 = Done 2.
Proof.
  repeat split; vm_compute; reflexivity.
Qed.

(** ** Flow and visibility of background cells *)

Lemma canonical_newContiguous {A : Type} (t : Tensor A) (n0 n1 n2 n3 : Z) :
  canonical t n0 n1 n2 n3 -> newContiguous t = t.
Proof.
  intros [Hs Ht]. unfold newContiguous, isContiguous. rewrite Hs, Ht.
  cbn [combine rev app contiguous_from].
  destruct (n3 =? 1) eqn:E3; [apply Z.eqb_eq in E3; subst n3|];
    destruct (n2 =? 1) eqn:E2; [apply Z.eqb_eq in E2; subst n2| |apply Z.eqb_eq in E2; subst n2|];
    destruct (n1 =? 1) eqn:E1;
      try (apply Z.eqb_eq in E1; subst n1);
      repeat match goal with
             | |- context [?x =? ?y] =>
                 replace (x =? y) with true by (symmetry; apply Z.eqb_eq; ring)
             end;
      destruct (n0 =? 1); reflexivity.
Qed.

Lemma canonical_strides {A : Type} (t : Tensor A) (n0 n1 n2 n3 : Z) :
  canonical t n0 n1 n2 n3 -> strides_of t = contiguous n0 n1 n2 n3.
Proof.
  intros [Hs Ht]. unfold strides_of, stride_at, contiguous. rewrite Ht. reflexivity.
Qed.

Lemma in_element_offsets_1 (n s base i : Z) :
  0 <= i < n -> In (base + i * s) (element_offsets [(n, s)] base).
Proof.
  intros Hi. cbn [element_offsets]. apply in_flat_map.
  exists (Z.to_nat i). split.
  - apply in_seq. lia.
  - left. rewrite Z2Nat.id by lia. reflexivity.
Qed.

Lemma canonical_offsets {A : Type} (t : Tensor A) (n0 n1 n2 n3 b i r c : Z) :
  canonical t n0 n1 n2 n3 ->
  0 <= b < n0 -> 0 <= i < n1 -> 0 <= r < n2 -> 0 <= c < n3 ->
  In (offset (contiguous n0 n1 n2 n3) b i r c) (offsets_of t).
Proof.
  intros [Hs Ht] Hb Hi Hr Hc. unfold offsets_of. rewrite Hs, Ht.
  cbn [combine]. cbn [element_offsets].
  apply in_flat_map. exists (Z.to_nat b). split; [apply in_seq; lia|].
  apply in_flat_map. exists (Z.to_nat i). split; [apply in_seq; lia|].
  apply in_flat_map. exists (Z.to_nat r). split; [apply in_seq; lia|].
  apply in_flat_map. exists (Z.to_nat c). split; [apply in_seq; lia|].
  left. rewrite !Z2Nat.id by lia. unfold offset, contiguous; cbn [st0 st1 st2 st3]. ring.
Qed.

(** An observation that one iteration establishes and every iteration keeps. *)
Lemma for_upto_established {S : Type} (P : S -> Prop) (j n : Z) (body : Z -> S -> S) (s : S) :
  0 <= j < n ->
  (forall t, P (body j t)) ->
  (forall i t, 0 <= i < n -> P t -> P (body i t)) ->
  P (for_upto n body s).
Proof.
  intros Hj Hset Hkeep. unfold for_upto.
  assert (Hj' : 0 <= j < Z.of_nat (Z.to_nat n)) by lia.
  assert (Hkeep' : forall i t, 0 <= i < Z.of_nat (Z.to_nat n) -> P t -> P (body i t))
    by (intros; apply Hkeep; auto; lia).
  clear Hj Hkeep. induction (Z.to_nat n) as [|k IH]; [lia|]. simpl.
  destruct (Z.eq_dec j (Z.of_nat k)) as [-> | Hne].
  - apply Hset.
  - apply Hkeep'; [lia|]. apply IH; [lia|]. intros i t Hi. apply Hkeep'. lia.
Qed.

Lemma for_upto_kept {S : Type} (P : S -> Prop) (n : Z) (body : Z -> S -> S) (s : S) :
  P s -> (forall i t, 0 <= i < n -> P t -> P (body i t)) -> P (for_upto n body s).
Proof.
  intros H0 Hkeep. unfold for_upto. apply for_range_invariant; auto.
  intros i t Hi. apply Hkeep. lia.
Qed.

Section FlowProofs.
Context {F : Type} {ops : Scalar F} {fops : FloatOps F}.
Variables (cloud1 cloud2 local1 local2 : buffer F).
Variables (label1 label2 : buffer Z).
Variable poses2 : buffer F.
Variables (ls ps : Strides).
Variables (fx fy cx cy threshold winsize : F).
Variables (B R C : Z).

Let cs := contiguous B 3 R C.
Let visit := visit_cell cloud1 cloud2 local1 local2 label1 label2 poses2 cs ls ps
               fx fy cx cy threshold winsize R C.

(** A background cell: visibility is set, nothing else is done. *)
Lemma visit_background (b r c : Z) (out : FlowOut F) :
  label1 (label_index ls b r c) = 0 ->
  visit b r c out =
  {| visible1 := store (visible1 out) (label_index ls b r c) 1; flows12 := flows12 out |}.
Proof.
  intros Hl. unfold visit, visit_cell. cbv zeta.
  unfold label_index in Hl. rewrite Hl. reflexivity.
Qed.

(** Whatever the cell, a visit stores only 1 in the visibility array, and only
    into the flow of the visited cell. *)
Lemma visit_visible (b r c a : Z) (out : FlowOut F) :
  visible1 (visit b r c out) a = visible1 out a \/ visible1 (visit b r c out) a = 1.
Proof.
  unfold visit, visit_cell. cbv zeta.
  destruct (label1 (b * st0 ls + r * st2 ls + c * st3 ls) =? 0).
  - cbn [visible1]. unfold store. destruct (a =? _); auto.
  - match goal with |- context [if ?g then out else _] => destruct g end; auto.
    match goal with
    | |- context [match ?s with pair _ _ => _ end] => destruct s as [[d tr] tc]
    end.
    destruct (negb (tr =? -1) && negb (tc =? -1)); auto.
    cbn [visible1]. unfold store. destruct (a =? _); auto.
Qed.

Lemma visit_flows (b r c a : Z) (out : FlowOut F) :
  (forall i, 0 <= i < 3 -> a <> offset cs b i r c) ->
  flows12 (visit b r c out) a = flows12 out a.
Proof.
  intros Ha. unfold visit, visit_cell. cbv zeta.
  destruct (label1 (b * st0 ls + r * st2 ls + c * st3 ls) =? 0); [reflexivity|].
  match goal with |- context [if ?g then out else _] => destruct g end; auto.
  match goal with
  | |- context [match ?s with pair _ _ => _ end] => destruct s as [[d tr] tc]
  end.
  destruct (negb (tr =? -1) && negb (tc =? -1)); auto.
  cbn [flows12]. rewrite !store_other; [reflexivity | ..];
    first [apply (Ha 0); lia | apply (Ha 1); lia | apply (Ha 2); lia].
Qed.

(** One pass over the image, at a background cell. *)
Lemma pass_background (b r c : Z) (out : FlowOut F) :
  0 <= b < B -> 0 <= r < R -> 0 <= c < C ->
  label1 (label_index ls b r c) = 0 ->
  let res := compute_visibility_and_flows cloud1 cloud2 local1 local2 label1 label2 poses2
               cs ls ps fx fy cx cy threshold winsize B R C out in
  visible1 res (label_index ls b r c) = 1 /\
  forall i, 0 <= i < 3 -> flows12 res (offset cs b i r c) = flows12 out (offset cs b i r c).
Proof.
  intros Hb Hr Hc Hl. cbv zeta. unfold compute_visibility_and_flows. fold visit. split.
  - apply (for_upto_established
             (fun o : FlowOut F => visible1 o (label_index ls b r c) = 1) b); auto.
    + intros t.
      apply (for_upto_established
               (fun o : FlowOut F => visible1 o (label_index ls b r c) = 1) r); auto.
      * intros t'.
        apply (for_upto_established
                 (fun o : FlowOut F => visible1 o (label_index ls b r c) = 1) c); auto.
        -- intros t''. rewrite visit_background by exact Hl. cbn [visible1]. apply store_same.
        -- intros c' t'' Hc' H1.
           destruct (visit_visible b r c' (label_index ls b r c) t'') as [E | E];
             rewrite E; auto.
      * intros r' t' Hr' H1. apply for_upto_kept; auto.
        intros c' t'' Hc' H1'.
        destruct (visit_visible b r' c' (label_index ls b r c) t'') as [E | E];
          rewrite E; auto.
    + intros b' t Hb' H1. apply for_upto_kept; auto.
      intros r' t' Hr' H1'. apply for_upto_kept; auto.
      intros c' t'' Hc' H1''.
      destruct (visit_visible b' r' c' (label_index ls b r c) t'') as [E | E];
        rewrite E; auto.
  - intros i Hi.
    apply (for_upto_untouched (fun o : FlowOut F => flows12 o (offset cs b i r c))).
    intros b' t Hb'.
    apply (for_upto_untouched (fun o : FlowOut F => flows12 o (offset cs b i r c))).
    intros r' t' Hr'.
    apply (for_upto_untouched (fun o : FlowOut F => flows12 o (offset cs b i r c))).
    intros c' t'' Hc'.
    destruct (Z.eq_dec b' b) as [-> | Hnb];
      [destruct (Z.eq_dec r' r) as [-> | Hnr];
       [destruct (Z.eq_dec c' c) as [-> | Hnc]|]|].
    + rewrite visit_background by exact Hl. reflexivity.
    + apply visit_flows. intros i' Hi' E.
      unfold cs in E. apply offset_contiguous_inj in E; lia.
    + apply visit_flows. intros i' Hi' E.
      unfold cs in E. apply offset_contiguous_inj in E; lia.
    + apply visit_flows. intros i' Hi' E.
      unfold cs in E. apply offset_contiguous_inj in E; lia.
Qed.

End FlowProofs.

(** C10.  In the flow/visibility routine, for every cell whose source label is
    0 (background), the output visibility of the cell is 1 and its flow vector
    is the zero it was initialised to, in the forward pass (labels of frame t)
    and in the backward pass (labels of frame t+1) alike; the visit of such a
    cell is the store to the visibility array and nothing else, so that no
    data-association search is made for it. *)
Theorem background_visible_zero_flow
        {F : Type} {ops : Scalar F} {fops : FloatOps F}
        (cloud_1 cloud_2 local_1 local_2 : Tensor F) (label_1 label_2 : Tensor Z)
        (poses_1 poses_2 poseinvs_1 poseinvs_2 fwdflows0 bwdflows0 : Tensor F)
        (fwdvisibility0 bwdvisibility0 : Tensor Z)
        (fx fy cx cy threshold winsize : F) (B R C : Z) (b r c : Z) :
  canonical cloud_1 B 3 R C ->
  canonical label_1 B 1 R C -> canonical label_2 B 1 R C ->
  canonical fwdflows0 B 3 R C -> canonical bwdflows0 B 3 R C ->
  0 <= b < B -> 0 <= r < R -> 0 <= c < C ->
  let cs := contiguous B 3 R C in
  let ls := contiguous B 1 R C in
  exists res,
    ComputeFlowAndVisibility_Pts_float cloud_1 cloud_2 local_1 local_2 label_1 label_2
      poses_1 poses_2 poseinvs_1 poseinvs_2 fwdflows0 bwdflows0
      fwdvisibility0 bwdvisibility0 fx fy cx cy threshold winsize = Done res /\
    (data label_1 (label_index ls b r c) = 0 ->
     data (fwdvisibility res) (label_index ls b r c) = 1 /\
     forall i, 0 <= i < 3 -> data (fwdflows res) (offset cs b i r c) = fzero) /\
    (data label_2 (label_index ls b r c) = 0 ->
     data (bwdvisibility res) (label_index ls b r c) = 1 /\
     forall i, 0 <= i < 3 -> data (bwdflows res) (offset cs b i r c) = fzero) /\
    (forall (cl1 cl2 lo1 lo2 : buffer F) (la1 la2 : buffer Z) (po : buffer F)
            (ps : Strides) (out : FlowOut F),
       la1 (label_index ls b r c) = 0 ->
       visit_cell cl1 cl2 lo1 lo2 la1 la2 po cs ls ps fx fy cx cy threshold winsize R C
         b r c out =
       {| visible1 := store (visible1 out) (label_index ls b r c) 1;
          flows12 := flows12 out |}).
Proof.
  intros Hc1 Hl1 Hl2 Hff Hbf Hb Hr Hc cs ls.
  unfold ComputeFlowAndVisibility_Pts_float. cbv zeta.
  assert (Hsz : size cloud_1 = [B; 3; R; C]) by apply Hc1.
  unfold size_at. rewrite Hsz. cbn [nth check_ndim Z.eqb Pos.eqb].
  rewrite (canonical_newContiguous cloud_1 B 3 R C Hc1).
  rewrite (canonical_newContiguous label_1 B 1 R C Hl1).
  rewrite (canonical_newContiguous label_2 B 1 R C Hl2).
  rewrite (canonical_newContiguous fwdflows0 B 3 R C Hff).
  rewrite (canonical_newContiguous bwdflows0 B 3 R C Hbf).
  rewrite (canonical_strides cloud_1 B 3 R C Hc1).
  rewrite (canonical_strides label_1 B 1 R C Hl1).
  fold cs ls.
  match goal with
  | |- context [let '(l1, l2) := ?loops in _] => destruct loops as [local1 local2]
  end.
  eexists. split; [reflexivity|]. cbn [fwdvisibility bwdvisibility fwdflows bwdflows data].
  split; [|split].
  - intros Hbg.
    destruct (pass_background (data cloud_1) (data (newContiguous cloud_2)) local1 local2
                (data label_1) (data label_2) (data (newContiguous poses_2)) ls
                (strides_of (newContiguous poses_1)) fx fy cx cy threshold winsize B R C
                b r c
                (mkFlowOut (data (fill (newContiguous fwdvisibility0) 0))
                           (data (fill fwdflows0 fzero))) Hb Hr Hc Hbg) as [Hv Hf].
    fold cs in Hv, Hf. split; [exact Hv|].
    intros i Hi. rewrite Hf by exact Hi. cbn [flows12].
    apply fill_spec. apply (canonical_offsets fwdflows0 B 3 R C); auto.
  - intros Hbg.
    destruct (pass_background (data (newContiguous cloud_2)) (data cloud_1) local2 local1
                (data label_2) (data label_1) (data (newContiguous poses_1)) ls
                (strides_of (newContiguous poses_1)) fx fy cx cy threshold winsize B R C
                b r c
                (mkFlowOut (data (fill (newContiguous bwdvisibility0) 0))
                           (data (fill bwdflows0 fzero))) Hb Hr Hc Hbg) as [Hv Hf].
    fold cs in Hv, Hf. split; [exact Hv|].
    intros i Hi. rewrite Hf by exact Hi. cbn [flows12].
    apply fill_spec. apply (canonical_offsets bwdflows0 B 3 R C); auto.
  - intros cl1 cl2 lo1 lo2 la1 la2 po ps out Hbg.
    apply (visit_background cl1 cl2 lo1 lo2 la1 la2 po ls ps fx fy cx cy threshold winsize
             B R C b r c out Hbg).
Qed.

Lemma background_visible_zero_flow_witness :
  let cs := contiguous 1 3 1 1 in
  let ls := contiguous 1 1 1 1 in
  let one := unit_points (fun _ : Z => @fone binary32 _) in
  let lab := unit_labels zero_buffer in
  let pose := unit_poses (fun _ : Z => @fone binary32 _) in
  exists res,
    ComputeFlowAndVisibility_Pts_float one one one one lab lab pose pose pose pose one one
      lab lab fone fone fone fone fone fone = Done res /\
    (data lab (label_index ls 0 0 0) = 0 ->
     data (fwdvisibility res) (label_index ls 0 0 0) = 1 /\
     forall i, 0 <= i < 3 -> data (fwdflows res) (offset cs 0 i 0 0) = fzero) /\
    (data lab (label_index ls 0 0 0) = 0 ->
     data (bwdvisibility res) (label_index ls 0 0 0) = 1 /\
     forall i, 0 <= i < 3 -> data (bwdflows res) (offset cs 0 i 0 0) = fzero) /\
    (forall (cl1 cl2 lo1 lo2 : buffer binary32) (la1 la2 : buffer Z) (po : buffer binary32)
            (ps : Strides) (out : FlowOut binary32),
       la1 (label_index ls 0 0 0) = 0 ->
       visit_cell cl1 cl2 lo1 lo2 la1 la2 po cs ls ps fone fone fone fone fone fone 1 1
         0 0 0 out =
       {| visible1 := store (visible1 out) (label_index ls 0 0 0) 1;
          flows12 := flows12 out |}).
Proof.
  apply (background_visible_zero_flow
           (unit_points (fun _ : Z => @fone binary32 _))
           (unit_points (fun _ : Z => @fone binary32 _))
           (unit_points (fun _ : Z => @fone binary32 _))
           (unit_points (fun _ : Z => @fone binary32 _))
           (unit_labels zero_buffer) (unit_labels zero_buffer)
           (unit_poses (fun _ : Z => @fone binary32 _))
           (unit_poses (fun _ : Z => @fone binary32 _))
           (unit_poses (fun _ : Z => @fone binary32 _))
           (unit_poses (fun _ : Z => @fone binary32 _))
           (unit_points (fun _ : Z => @fone binary32 _))
           (unit_points (fun _ : Z => @fone binary32 _))
           (unit_labels zero_buffer) (unit_labels zero_buffer)
           fone fone fone fone fone fone 1 1 1 0 0 0);
    try lia; split; reflexivity.
Defined.

(** * Further properties of the code *)

(** ** The blend and its derivatives *)

Section BlendAlgebra.
Context {F : Type} {ops : Scalar F} (Hexact : exact_scalar F).
Let ba_ring_theory : ring_theory fzero fone fadd fmul fsub fopp (@eq F) := Hexact.
Add Ring ba_ring : ba_ring_theory.

Lemma sum_upto_scale (n : nat) (a : F) (f : Z -> F) :
  sum_upto n (fun k => fmul a (f k)) = fmul a (sum_upto n f).
Proof. induction n as [|n IH]; simpl; [ring | rewrite IH; ring]. Qed.

Lemma sum_upto_sub (n : nat) (f g : Z -> F) :
  sum_upto n (fun k => fsub (f k) (g k)) = fsub (sum_upto n f) (sum_upto n g).
Proof. induction n as [|n IH]; simpl; [ring | rewrite IH; ring]. Qed.

Lemma sum_upto_single (n : nat) (k0 : Z) (f : Z -> F) :
  0 <= k0 < Z.of_nat n ->
  (forall k, 0 <= k < Z.of_nat n -> k <> k0 -> f k = fzero) ->
  sum_upto n f = f k0.
Proof.
  induction n as [|n IH]; intros Hk Hz; [lia|]. simpl.
  destruct (Z.eq_dec k0 (Z.of_nat n)) as [-> | Hne].
  - rewrite (sum_upto_zero Hexact) by (intros k Hk'; apply Hz; lia). ring.
  - rewrite IH by (try lia; intros k Hk' Hne'; apply Hz; lia).
    rewrite (Hz (Z.of_nat n)) by lia. ring.
Qed.

Lemma dot_vsum_r (g : vec3 F) (n : nat) (f : Z -> vec3 F) :
  dot g (vsum n f) = sum_upto n (fun k => dot g (f k)).
Proof.
  unfold vsum, dot. cbn [vx vy vz].
  induction n as [|n IH]; simpl; [ring | rewrite <- IH; ring].
Qed.

Lemma dot_vsum_l (d : vec3 F) (n : nat) (f : Z -> vec3 F) :
  dot (vsum n f) d = sum_upto n (fun k => dot (f k) d).
Proof.
  unfold vsum, dot. cbn [vx vy vz].
  induction n as [|n IH]; simpl; [ring | rewrite <- IH; ring].
Qed.

(** The change of the blend along [g] is the sum of the changes of its terms. *)
Lemma blend_change (g p p' : vec3 F) (w w' : Z -> F) (T T' : Z -> tfm) (K : nat) :
  dot g (vsub (blend p' w' T' K) (blend p w T K)) =
  fadd (dot g (vsub p' p))
       (sum_upto K (fun k =>
          dot g (vsub (vscale (w' k) (vsub (apply_tfm (T' k) p') p'))
                      (vscale (w k) (vsub (apply_tfm (T k) p) p))))).
Proof.
  rewrite sum_upto_ext with
    (g := fun k => fsub (dot g (vscale (w' k) (vsub (apply_tfm (T' k) p') p')))
                        (dot g (vscale (w k) (vsub (apply_tfm (T k) p) p))))
    by (intros k _; unfold dot, vsub; cbn [vx vy vz]; ring).
  rewrite sum_upto_sub, <- !dot_vsum_r.
  unfold blend, apply_tfm, dot, vsub, vadd. cbn [vx vy vz]. ring.
Qed.

Lemma sum_upto_weighted_shift (n : nat) (w d : Z -> F) (c : F) :
  sum_upto n (fun k => fmul (w k) (fsub (d k) c)) =
  fsub (sum_upto n (fun k => fmul (w k) (d k))) (fmul c (sum_upto n w)).
Proof. induction n as [|n IH]; simpl; [ring | rewrite IH; ring]. Qed.

(** Weights that sum to one: the blend is the weighted mean of the images. *)
Lemma blend_affine (p : vec3 F) (w : Z -> F) (T : Z -> tfm) (K : nat) :
  sum_upto K w = fone ->
  blend p w T K = vsum K (fun k => vscale (w k) (apply_tfm (T k) p)).
Proof.
  intros Hw.
  unfold apply_tfm. unfold blend, vadd, vsum, vscale, vsub. cbn [vx vy vz].
  rewrite !sum_upto_weighted_shift, Hw. destruct p as [x y z]. cbn [vx vy vz].
  f_equal; ring.
Qed.

(** A single weight of one: the blend is the image under that transform. *)
Lemma blend_one_hot (p : vec3 F) (w : Z -> F) (T : Z -> tfm) (K : nat) (k0 : Z) :
  0 <= k0 < Z.of_nat K -> w k0 = fone ->
  (forall k, 0 <= k < Z.of_nat K -> k <> k0 -> w k = fzero) ->
  blend p w T K = apply_tfm (T k0) p.
Proof.
  intros Hk H1 H0. rewrite blend_affine.
  - unfold apply_tfm. unfold vsum, vscale, vadd. cbn [vx vy vz].
    rewrite !(sum_upto_single K k0) by
      (try exact Hk; intros k Hk' Hne; rewrite (H0 k Hk' Hne); ring).
    rewrite H1. f_equal; ring.
  - rewrite (sum_upto_single K k0); auto.
Qed.

(** Identity transforms: the blend is the point, whatever the weights. *)
Lemma blend_identity (p : vec3 F) (w : Z -> F) (T : Z -> tfm) (K : nat) :
  (forall k, 0 <= k < Z.of_nat K -> is_identity (T k)) ->
  blend p w T K = p.
Proof.
  intros HT. unfold blend, vadd, vsum, vscale, vsub, rotate, translate. cbn [vx vy vz].
  rewrite !(sum_upto_zero Hexact).
  - destruct p as [x y z]. cbn [vx vy vz]. f_equal; ring.
  - intros k Hk. destruct (HT k Hk) as (E0&E1&E2&E3&E4&E5&E6&E7&E8&E9&E10&E11).
    rewrite E8, E9, E10, E11. ring.
  - intros k Hk. destruct (HT k Hk) as (E0&E1&E2&E3&E4&E5&E6&E7&E8&E9&E10&E11).
    rewrite E4, E5, E6, E7. ring.
  - intros k Hk. destruct (HT k Hk) as (E0&E1&E2&E3&E4&E5&E6&E7&E8&E9&E10&E11).
    rewrite E0, E1, E2, E3. ring.
Qed.

(** The mask gradient is the derivative of the blend in the weight. *)
Lemma blend_mask_derivative (g p : vec3 F) (w w' : Z -> F) (T : Z -> tfm) (K : nat) (k0 : Z) :
  0 <= k0 < Z.of_nat K ->
  (forall k, 0 <= k < Z.of_nat K -> k <> k0 -> w' k = w k) ->
  dot g (vsub (blend p w' T K) (blend p w T K)) =
  fmul (fsub (w' k0) (w k0)) (mask_gradient p g (T k0)).
Proof.
  intros Hk Hw. rewrite blend_change.
  rewrite (sum_upto_single K k0); [| exact Hk |].
  - unfold mask_gradient, apply_tfm, dot, vsub, vscale, vadd, rotate, rotate_back, translate.
    cbn [vx vy vz]. ring.
  - intros k Hk' Hne. rewrite (Hw k Hk' Hne).
    unfold dot, vsub. cbn [vx vy vz]. ring.
Qed.

(** The point gradient is the derivative of the blend in the point. *)
Lemma blend_point_derivative (g p p' : vec3 F) (w : Z -> F) (T : Z -> tfm) (K : nat) :
  dot g (vsub (blend p' w T K) (blend p w T K)) =
  dot (point_gradient g w T K) (vsub p' p).
Proof.
  rewrite blend_change. unfold point_gradient.
  assert (E : dot (vadd g (vsum K (fun k => vscale (w k) (vsub (rotate_back (T k) g) g))))
                  (vsub p' p) =
              fadd (dot g (vsub p' p))
                   (dot (vsum K (fun k => vscale (w k) (vsub (rotate_back (T k) g) g)))
                        (vsub p' p)))
    by (unfold dot, vadd; cbn [vx vy vz]; ring).
  rewrite E, dot_vsum_l. f_equal.
  apply sum_upto_ext. intros k _.
  unfold apply_tfm, dot, vsub, vscale, vadd, rotate, rotate_back, translate.
  cbn [vx vy vz]. ring.
Qed.

(** The transform gradient is the derivative of the blend in a transform entry. *)
Lemma blend_tfm_derivative (g p : vec3 F) (w : Z -> F) (T T' : Z -> tfm) (K : nat) (k0 i0 : Z) :
  0 <= k0 < Z.of_nat K -> 0 <= i0 < 12 ->
  (forall k i, 0 <= k < Z.of_nat K -> 0 <= i < 12 -> (k, i) <> (k0, i0) -> T' k i = T k i) ->
  dot g (vsub (blend p w T' K) (blend p w T K)) =
  fmul (fsub (T' k0 i0) (T k0 i0)) (tfm_grad_per_point (w k0) p g i0).
Proof.
  intros Hk Hi HT. rewrite blend_change.
  rewrite (sum_upto_single K k0); [| exact Hk |].
  - assert (Hcase : i0 = 0 \/ i0 = 1 \/ i0 = 2 \/ i0 = 3 \/ i0 = 4 \/ i0 = 5 \/ i0 = 6 \/
                    i0 = 7 \/ i0 = 8 \/ i0 = 9 \/ i0 = 10 \/ i0 = 11) by lia.
    assert (HT' : forall i, 0 <= i < 12 -> i <> i0 -> T' k0 i = T k0 i)
      by (intros i Hi' Hne; apply HT; try lia; congruence).
    unfold tfm_grad_per_point, outer, vget, apply_tfm, dot, vsub, vscale, vadd,
      rotate, translate.
    cbn [vx vy vz].
    repeat (destruct Hcase as [-> | Hcase]); [.. | subst i0];
      repeat match goal with
             | |- context [T' k0 ?i] =>
                 lazymatch goal with
                 | |- context [fsub (T' k0 i) (T k0 i)] => fail
                 | _ => rewrite (HT' i) by lia
                 end
             end;
      simpl; ring.
  - intros k Hk' Hne.
    assert (HT' : forall i, 0 <= i < 12 -> T' k i = T k i)
      by (intros i Hi'; apply HT; try lia; congruence).
    unfold apply_tfm, dot, vsub, vscale, vadd, rotate, translate. cbn [vx vy vz].
    rewrite !HT' by lia. ring.
Qed.

End BlendAlgebra.

(** ** The launchers as a whole *)

Lemma offset_contiguous_range (n0 n1 n2 n3 b i r c : Z) :
  0 <= b < n0 -> 0 <= i < n1 -> 0 <= r < n2 -> 0 <= c < n3 ->
  0 <= offset (contiguous n0 n1 n2 n3) b i r c < n0 * n1 * n2 * n3.
Proof.
  intros Hb Hi Hr Hc. unfold offset, contiguous; cbn [st0 st1 st2 st3].
  assert (H1 : 0 <= r * n3 + c < n2 * n3) by nia.
  assert (H2 : 0 <= i * (n2 * n3) + (r * n3 + c) < n1 * (n2 * n3)) by nia.
  assert (H3 : 0 <= b * (n1 * (n2 * n3)) + (i * (n2 * n3) + (r * n3 + c))
               < n0 * (n1 * (n2 * n3))) by nia.
  replace (i * (n2 * n3) + (b * (n1 * n2 * n3) + r * n3 + c * 1))
    with (b * (n1 * (n2 * n3)) + (i * (n2 * n3) + (r * n3 + c))) by ring.
  replace (n0 * n1 * n2 * n3) with (n0 * (n1 * (n2 * n3))) by ring.
  exact H3.
Qed.

Section ForwardFrame.
Context {F : Type} {ops : Scalar F}.

(** The forward launcher on a valid call, as a launch over the staged transforms. *)
Lemma forward_launcher_runs
      (constTfms points masks tfms tfmpoints : buffer F) (B R C K : Z) (ts : Strides) :
  valid_forward B R C K ts ->
  exists cst,
    (forall i, 0 <= i < B * K * 12 -> cst i = tfms i) /\
    NTfm3D_ForwardLauncher constTfms points masks tfms tfmpoints B 3 R C K (B * K * 12)
      (contiguous B 3 R C) (contiguous B K R C) ts =
    Done (launch_1d (ceil_div (B * R * C) 256) 256
            (computeTransformedPoints cst points masks R C (B * R * C) K
               (contiguous B 3 R C) (contiguous B K R C) (cast_strides ts))
            tfmpoints).
Proof.
  intros (HB & HR & HC & HK & Hmax & Hmax' & Hcap & E0 & E1).
  assert (HBK : 0 <= B * K * 12) by nia.
  destruct (staged_transforms constTfms tfms (B * K * 12) ltac:(lia)) as (cst & Est & Hcst).
  exists cst. split; [exact Hcst|].
  unfold NTfm3D_ForwardLauncher. rewrite Est. cbv zeta.
  rewrite cast_points_strides, cast_masks_strides by lia. reflexivity.
Qed.

Lemma cast_transform_strides (K : Z) (ts : Strides) :
  0 <= K * 12 <= 15000 -> st0 ts = K * 12 -> st1 ts = 12 ->
  st0 (cast_strides ts) = K * 12 /\ st1 (cast_strides ts) = 12.
Proof.
  intros HK E0 E1. unfold cast_strides; cbn [st0 st1]. rewrite E0, E1. split.
  - apply to_int_small. unfold INT_MAX. lia.
  - reflexivity.
Qed.

(** All cells at once. *)
Lemma forward_launcher_cells
      (constTfms points masks tfms tfmpoints : buffer F) (B R C K : Z) (ts : Strides) :
  valid_forward B R C K ts ->
  exists out,
    NTfm3D_ForwardLauncher constTfms points masks tfms tfmpoints B 3 R C K (B * K * 12)
      (contiguous B 3 R C) (contiguous B K R C) ts = Done out /\
    (forall b r c, 0 <= b < B -> 0 <= r < R -> 0 <= c < C ->
       point_at out (contiguous B 3 R C) b r c =
       blend_in_order (point_at points (contiguous B 3 R C) b r c)
         (fun k => masks (offset (contiguous B K R C) b k r c))
         (fun k => tfm_at tfms K b k) (Z.to_nat K)) /\
    (forall a, ~ 0 <= a < B * 3 * R * C -> out a = tfmpoints a).
Proof.
  intros Hv. destruct (forward_launcher_runs constTfms points masks tfms tfmpoints
                         B R C K ts Hv) as (cst & Hcst & Erun).
  destruct Hv as (HB & HR & HC & HK & Hmax & Hmax' & Hcap & E0 & E1).
  eexists. split; [exact Erun|]. split.
  - intros b r c Hb Hr Hc.
    destruct (forward_launcher_in_order constTfms points masks tfms tfmpoints B R C K ts b r c)
      as (out' & Eout' & Hout); auto.
    rewrite Erun in Eout'. injection Eout' as <-. exact Hout.
  - intros a Ha. unfold launch_1d.
    apply (nest2_untouched (fun m : buffer F => m a) (ceil_div (B * R * C) 256) 256
             (fun tx bx m =>
                computeTransformedPoints cst points masks R C (B * R * C) K
                  (contiguous B 3 R C) (contiguous B K R C) (cast_strides ts) bx 256 tx m)).
    intros tx bx m Htx Hbx.
    destruct (Z_lt_le_dec (bx * 256 + tx) (B * R * C)) as [Hin | Hout].
    + destruct (getCoordinates_index R C (bx * 256 + tx)) as (b & r & c & Eg & Hb & Hr & Hc & Eid);
        try lia.
      rewrite (computeTransformedPoints_thread _ _ _ _ _ _ _ _ _ _ _ _ _ b r c) by auto.
      cbv zeta. apply three_stores_miss. intros i Hi E. apply Ha. rewrite E.
      assert (Hb' : b < B) by nia.
      apply offset_contiguous_range; lia.
    + rewrite computeTransformedPoints_idle by exact Hout. reflexivity.
Qed.

End ForwardFrame.

Section BackwardFrame.
Context {F : Type} {ops : Scalar F}.
Variables (constTfms points masks gradTfmpoints : buffer F).
Variables (B R C K : Z) (ts : Strides).
Variables (dx dy gx gy : Z).
Hypothesis Hdx : 0 < dx.
Hypothesis Hdy : 0 < dy.
Hypothesis Hts0 : st0 ts = K * 12.

Let ps := contiguous B 3 R C.
Let ms := contiguous B K R C.
Let launch := launch_computeGradients constTfms points masks gradTfmpoints R C K ps ms ts
                gx gy B dx dy.

Lemma within_cell (bx by_ tx ty : Z) :
  0 <= bx -> 0 <= by_ -> 0 <= tx -> 0 <= ty ->
  within R C bx by_ dx dy tx ty = true ->
  0 <= by_ * dy + ty < R /\ 0 <= bx * dx + tx < C.
Proof.
  intros Hbx Hby Htx Hty Hw. unfold within in Hw.
  apply andb_prop in Hw. destruct Hw as [H1 H2].
  apply Z.ltb_lt in H1, H2. nia.
Qed.

Lemma grid_gradPoints_frame (a : Z) (sh0 : buffer F) (rg0 : buffer (vec3 F)) (g : Grads F) :
  ~ 0 <= a < B * 3 * R * C ->
  gradPoints (launch sh0 rg0 g) a = gradPoints g a.
Proof.
  intros Ha. unfold launch, launch_computeGradients.
  apply (for_upto_untouched (fun g : Grads F => gradPoints g a)). intros bz t Hbz.
  apply (for_upto_untouched (fun g : Grads F => gradPoints g a)). intros by_ t' Hby.
  apply (for_upto_untouched (fun g : Grads F => gradPoints g a)). intros bx t'' Hbx.
  apply block_gradPoints_miss. intros tx ty i Htx Hty Hw Hi E. apply Ha. rewrite E.
  destruct (within_cell bx by_ tx ty) as [Hr Hc]; try lia; auto.
  apply offset_contiguous_range; lia.
Qed.

Lemma grid_gradMasks_frame (a : Z) (sh0 : buffer F) (rg0 : buffer (vec3 F)) (g : Grads F) :
  ~ 0 <= a < B * K * R * C ->
  cell_view (gradMasks (launch sh0 rg0 g)) a = cell_view (gradMasks g) a.
Proof.
  intros Ha. unfold launch, launch_computeGradients.
  apply (for_upto_untouched (fun g : Grads F => cell_view (gradMasks g) a)). intros bz t Hbz.
  apply (for_upto_untouched (fun g : Grads F => cell_view (gradMasks g) a)). intros by_ t' Hby.
  apply (for_upto_untouched (fun g : Grads F => cell_view (gradMasks g) a)). intros bx t'' Hbx.
  apply block_gradMasks_miss. intros k tx ty Hk Htx Hty Hw E. apply Ha. rewrite E.
  destruct (within_cell bx by_ tx ty) as [Hr Hc]; try lia; auto.
  apply offset_contiguous_range; lia.
Qed.

Lemma grid_gradTfms_frame (a : Z) (sh0 : buffer F) (rg0 : buffer (vec3 F)) (g : Grads F) :
  ~ 0 <= a < B * K * 12 ->
  gradTfms (launch sh0 rg0 g) a = gradTfms g a.
Proof.
  intros Ha. unfold launch, launch_computeGradients.
  apply (for_upto_untouched (fun g : Grads F => gradTfms g a)). intros bz t Hbz.
  apply (for_upto_untouched (fun g : Grads F => gradTfms g a)). intros by_ t' Hby.
  apply (for_upto_untouched (fun g : Grads F => gradTfms g a)). intros bx t'' Hbx.
  apply block_gradTfms_miss; auto. intros j Hj E. apply Ha. nia.
Qed.

End BackwardFrame.

Section BackwardCellsAll.
Context {F : Type} {ops : Scalar F}.

(** The backward launcher on a valid call: what it leaves in the three
    gradient buffers, cell by cell, in the order the kernel evaluates it. *)
Lemma backward_launcher_cells
      (constTfms points masks tfms gradTfmpoints : buffer F) (B R C K : Z) (ts : Strides)
      (sh0 : buffer F) (rg0 : buffer (vec3 F)) (g : Grads F) :
  valid_backward B R C K ts ->
  let ps := contiguous B 3 R C in
  let ms := contiguous B K R C in
  exists cst out,
    (forall i, 0 <= i < B * K * 12 -> cst i = tfms i) /\
    NTfm3D_BackwardLauncher constTfms points masks tfms gradTfmpoints B 3 R C K (B * K * 12)
      ps ms ts sh0 rg0 g = Done out /\
    (forall b r c, 0 <= b < B -> 0 <= r < R -> 0 <= c < C ->
       point_at (gradPoints out) ps b r c =
       point_grad_value cst masks gradTfmpoints K ps ms (cast_strides ts) b r c) /\
    (forall b k r c, 0 <= b < B -> 0 <= k < K -> 0 <= r < R -> 0 <= c < C ->
       cell_view (gradMasks out) (offset ms b k r c) =
       (mask_grad_value cst points gradTfmpoints ps (cast_strides ts) b r c k,
        Datatypes.S (cwrites (gradMasks g) (offset ms b k r c)))) /\
    (forall a, ~ 0 <= a < B * 3 * R * C -> gradPoints out a = gradPoints g a) /\
    (forall a, ~ 0 <= a < B * K * R * C ->
       cell_view (gradMasks out) a = cell_view (gradMasks g) a) /\
    (forall a, ~ 0 <= a < B * K * 12 -> gradTfms out a = gradTfms g a).
Proof.
  intros [(HB & HR & HC & HK & Hmax & Hmax' & Hcap & E0 & E1) Hshared] ps ms.
  destruct (backward_launcher_runs constTfms points masks tfms gradTfmpoints B R C K ts
              sh0 rg0 g) as (cst & Hcst & Erun); try lia.
  destruct (cast_transform_strides K ts) as [Hts0 Hts1]; auto; [nia|].
  pose proof (ceil_div_covers C 16 ltac:(lia) ltac:(lia)) as HcC.
  pose proof (ceil_div_covers R 16 ltac:(lia) ltac:(lia)) as HcR.
  exists cst. eexists. split; [exact Hcst|]. split; [exact Erun|].
  split; [|split; [|split; [|split]]].
  - intros b r c Hb Hr Hc. unfold point_at at 1. unfold ps, ms.
    rewrite !grid_gradPoints by (auto; lia).
    generalize (point_grad_value cst masks gradTfmpoints K (contiguous B 3 R C)
                  (contiguous B K R C) (cast_strides ts) b r c).
    intros [x y z]. reflexivity.
  - intros b k r c Hb Hk Hr Hc.
    apply (grid_gradMasks cst points masks gradTfmpoints B R C K (cast_strides ts)
             16 16 (ceil_div C 16) (ceil_div R 16)); auto; lia.
  - intros a Ha. apply grid_gradPoints_frame; auto; lia.
  - intros a Ha. apply grid_gradMasks_frame; auto; lia.
  - intros a Ha. apply grid_gradTfms_frame; auto; lia.
Qed.

End BackwardCellsAll.

(** X1.  For every valid call, the forward launcher succeeds and writes nothing
    outside the output tensor: every cell of the output buffer whose offset is
    not one of the B * 3 * R * C element offsets holds what it held before. *)
Theorem forward_stays_in_bounds
        {F : Type} {ops : Scalar F}
        (constTfms points masks tfms tfmpoints : buffer F) (B R C K : Z) (ts : Strides) :
  valid_forward B R C K ts ->
  exists out,
    NTfm3D_ForwardLauncher constTfms points masks tfms tfmpoints B 3 R C K (B * K * 12)
      (contiguous B 3 R C) (contiguous B K R C) ts = Done out /\
    forall a, ~ 0 <= a < B * 3 * R * C -> out a = tfmpoints a.
Proof.
  intros Hv.
  destruct (forward_launcher_cells constTfms points masks tfms tfmpoints B R C K ts Hv)
    as (out & Eout & _ & Hframe).
  exists out. auto.
Qed.

Lemma forward_stays_in_bounds_witness :
  exists out,
    NTfm3D_ForwardLauncher zero_buffer scenario_points scenario_masks scenario_tfms zero_buffer
      1 3 1 1 1 (1 * 1 * 12) (contiguous 1 3 1 1) (contiguous 1 1 1 1) scenario_ts = Done out /\
    forall a, ~ 0 <= a < 1 * 3 * 1 * 1 -> out a = zero_buffer a.
Proof.
  apply (forward_stays_in_bounds zero_buffer scenario_points scenario_masks scenario_tfms
           zero_buffer 1 1 1 1 scenario_ts).
  unfold valid_forward, INT_MAX. cbn. lia.
Defined.

(** X2.  With no transform at all (K = 0) the forward launcher copies the point
    field: the output point of every cell is the input point, in any
    arithmetic (no operation is made on it). *)
Theorem forward_no_transforms
        {F : Type} {ops : Scalar F}
        (constTfms points masks tfms tfmpoints : buffer F) (B R C : Z) (ts : Strides)
        (b r c : Z) :
  valid_forward B R C 0 ts ->
  0 <= b < B -> 0 <= r < R -> 0 <= c < C ->
  exists out,
    NTfm3D_ForwardLauncher constTfms points masks tfms tfmpoints B 3 R C 0 (B * 0 * 12)
      (contiguous B 3 R C) (contiguous B 0 R C) ts = Done out /\
    point_at out (contiguous B 3 R C) b r c = point_at points (contiguous B 3 R C) b r c.
Proof.
  intros Hv Hb Hr Hc.
  destruct (forward_launcher_cells constTfms points masks tfms tfmpoints B R C 0 ts Hv)
    as (out & Eout & Hcells & _).
  exists out. split; [exact Eout|]. rewrite Hcells by auto. reflexivity.
Qed.

Lemma forward_no_transforms_witness :
  exists out,
    NTfm3D_ForwardLauncher zero_buffer scenario_points scenario_masks scenario_tfms zero_buffer
      1 3 1 1 0 (1 * 0 * 12) (contiguous 1 3 1 1) (contiguous 1 0 1 1) (mkStrides 0 12 1 0)
    = Done out /\
    point_at out (contiguous 1 3 1 1) 0 0 0 = point_at scenario_points (contiguous 1 3 1 1) 0 0 0.
Proof.
  apply (forward_no_transforms zero_buffer scenario_points scenario_masks scenario_tfms
           zero_buffer 1 1 1 (mkStrides 0 12 1 0) 0 0 0); try lia.
  unfold valid_forward, INT_MAX. cbn. lia.
Defined.

(** X3.  For every valid call, the backward launcher succeeds and writes nothing
    outside the three gradient tensors: cells of [gradPoints], [gradMasks] and
    [gradTfms] beyond their B * 3 * R * C, B * K * R * C and B * K * 12 elements
    keep their value, and no store is made to such a cell of [gradMasks]. *)
Theorem backward_stays_in_bounds
        {F : Type} {ops : Scalar F}
        (constTfms points masks tfms gradTfmpoints : buffer F) (B R C K : Z) (ts : Strides)
        (sh0 : buffer F) (rg0 : buffer (vec3 F)) (g : Grads F) :
  valid_backward B R C K ts ->
  exists out,
    NTfm3D_BackwardLauncher constTfms points masks tfms gradTfmpoints B 3 R C K (B * K * 12)
      (contiguous B 3 R C) (contiguous B K R C) ts sh0 rg0 g = Done out /\
    (forall a, ~ 0 <= a < B * 3 * R * C -> gradPoints out a = gradPoints g a) /\
    (forall a, ~ 0 <= a < B * K * R * C ->
       cval (gradMasks out) a = cval (gradMasks g) a /\
       cwrites (gradMasks out) a = cwrites (gradMasks g) a) /\
    (forall a, ~ 0 <= a < B * K * 12 -> gradTfms out a = gradTfms g a).
Proof.
  intros Hv.
  destruct (backward_launcher_cells constTfms points masks tfms gradTfmpoints B R C K ts
              sh0 rg0 g Hv) as (cst & out & _ & Eout & _ & _ & Hp & Hm & Ht).
  exists out. split; [exact Eout|]. split; [exact Hp|]. split; [|exact Ht].
  intros a Ha. specialize (Hm a Ha). unfold cell_view in Hm. injection Hm as E1 E2. auto.
Qed.

Lemma backward_stays_in_bounds_witness :
  exists out,
    NTfm3D_BackwardLauncher zero_buffer scenario_points scenario_masks scenario_tfms
      scenario_gradOut 1 3 1 1 1 (1 * 1 * 12) (contiguous 1 3 1 1) (contiguous 1 1 1 1)
      scenario_ts zero_buffer sample_regs sample_grads = Done out /\
    (forall a, ~ 0 <= a < 1 * 3 * 1 * 1 -> gradPoints out a = gradPoints sample_grads a) /\
    (forall a, ~ 0 <= a < 1 * 1 * 1 * 1 ->
       cval (gradMasks out) a = cval (gradMasks sample_grads) a /\
       cwrites (gradMasks out) a = cwrites (gradMasks sample_grads) a) /\
    (forall a, ~ 0 <= a < 1 * 1 * 12 -> gradTfms out a = gradTfms sample_grads a).
Proof.
  apply (backward_stays_in_bounds zero_buffer scenario_points scenario_masks scenario_tfms
           scenario_gradOut 1 1 1 1 scenario_ts zero_buffer sample_regs sample_grads).
  unfold valid_backward, valid_forward, INT_MAX. cbn. lia.
Defined.

(** X4.  With no transform at all (K = 0) the backward launcher copies the
    upstream gradient of every cell into its point gradient and leaves the mask
    and transform gradients untouched, in any arithmetic. *)
Theorem backward_no_transforms
        {F : Type} {ops : Scalar F}
        (constTfms points masks tfms gradTfmpoints : buffer F) (B R C : Z) (ts : Strides)
        (sh0 : buffer F) (rg0 : buffer (vec3 F)) (g : Grads F) (b r c : Z) :
  valid_backward B R C 0 ts ->
  0 <= b < B -> 0 <= r < R -> 0 <= c < C ->
  exists out,
    NTfm3D_BackwardLauncher constTfms points masks tfms gradTfmpoints B 3 R C 0 (B * 0 * 12)
      (contiguous B 3 R C) (contiguous B 0 R C) ts sh0 rg0 g = Done out /\
    point_at (gradPoints out) (contiguous B 3 R C) b r c =
      point_at gradTfmpoints (contiguous B 3 R C) b r c /\
    (forall a, cval (gradMasks out) a = cval (gradMasks g) a /\
               cwrites (gradMasks out) a = cwrites (gradMasks g) a) /\
    (forall a, gradTfms out a = gradTfms g a).
Proof.
  intros Hv Hb Hr Hc.
  destruct (backward_launcher_cells constTfms points masks tfms gradTfmpoints B R C 0 ts
              sh0 rg0 g Hv) as (cst & out & _ & Eout & Hcells & _ & _ & Hm & Ht).
  exists out. split; [exact Eout|]. split; [|split].
  - rewrite Hcells by auto. reflexivity.
  - intros a. assert (Ha : ~ 0 <= a < B * 0 * R * C) by lia.
    specialize (Hm a Ha). unfold cell_view in Hm. injection Hm as E1 E2. auto.
  - intros a. apply Ht. lia.
Qed.

Lemma backward_no_transforms_witness :
  exists out,
    NTfm3D_BackwardLauncher zero_buffer scenario_points scenario_masks scenario_tfms
      scenario_gradOut 1 3 1 1 0 (1 * 0 * 12) (contiguous 1 3 1 1) (contiguous 1 0 1 1)
      (mkStrides 0 12 1 0) zero_buffer sample_regs sample_grads = Done out /\
    point_at (gradPoints out) (contiguous 1 3 1 1) 0 0 0 =
      point_at scenario_gradOut (contiguous 1 3 1 1) 0 0 0 /\
    (forall a, cval (gradMasks out) a = cval (gradMasks sample_grads) a /\
               cwrites (gradMasks out) a = cwrites (gradMasks sample_grads) a) /\
    (forall a, gradTfms out a = gradTfms sample_grads a).
Proof.
  apply (backward_no_transforms zero_buffer scenario_points scenario_masks scenario_tfms
           scenario_gradOut 1 1 1 (mkStrides 0 12 1 0) zero_buffer sample_regs sample_grads
           0 0 0); try lia.
  unfold valid_backward, valid_forward, INT_MAX. cbn. lia.
Defined.

(** X5.  The shared-memory check of the backward launcher: with a transform
    set that fits the constant memory, the forward launcher always runs; the
    backward launcher runs for up to 410 transforms per batch element and fails
    fatally from 411 on (12288 + 48 * K bytes against the limit of 32000). *)
Theorem backward_shared_memory_limit
        {F : Type} {ops : Scalar F}
        (constTfms points masks tfms tfmpoints gradTfmpoints : buffer F) (B R C K : Z)
        (ps ms ts : Strides) (sh0 : buffer F) (rg0 : buffer (vec3 F)) (g : Grads F) :
  1 <= B -> 0 <= K -> B * K * 12 <= 15000 ->
  (exists out,
     NTfm3D_ForwardLauncher constTfms points masks tfms tfmpoints B 3 R C K (B * K * 12)
       ps ms ts = Done out) /\
  (K <= 410 ->
   exists out,
     NTfm3D_BackwardLauncher constTfms points masks tfms gradTfmpoints B 3 R C K (B * K * 12)
       ps ms ts sh0 rg0 g = Done out) /\
  (411 <= K ->
   NTfm3D_BackwardLauncher constTfms points masks tfms gradTfmpoints B 3 R C K (B * K * 12)
     ps ms ts sh0 rg0 g = Fatal CapacityExceeded).
Proof.
  intros HB HK Hcap.
  assert (HBK : 0 <= B * K * 12) by nia.
  assert (HK' : K <= 1250) by nia.
  destruct (staged_transforms constTfms tfms (B * K * 12) ltac:(lia)) as (cst & Est & _).
  assert (Hsm : to_int (16 * 16 * 3 * 4 * 4 + K * 3 * 4 * 4) = 12288 + 48 * K)
    by (rewrite to_int_small; unfold INT_MAX; lia).
  split; [|split].
  - unfold NTfm3D_ForwardLauncher. rewrite Est. eexists. reflexivity.
  - intros Hle. unfold NTfm3D_BackwardLauncher. rewrite Est. cbv zeta. rewrite Hsm.
    replace (32000 <? 12288 + 48 * K) with false by (symmetry; apply Z.ltb_ge; lia).
    eexists. reflexivity.
  - intros Hge. unfold NTfm3D_BackwardLauncher. rewrite Est. cbv zeta. rewrite Hsm.
    replace (32000 <? 12288 + 48 * K) with true by (symmetry; apply Z.ltb_lt; lia).
    reflexivity.
Qed.

Lemma backward_shared_memory_limit_witness :
  (exists out,
     NTfm3D_ForwardLauncher zero_buffer scenario_points scenario_masks scenario_tfms zero_buffer
       1 3 1 1 411 (1 * 411 * 12) (contiguous 1 3 1 1) (contiguous 1 411 1 1)
       (mkStrides 4932 12 1 0) = Done out) /\
  (411 <= 410 ->
   exists out,
     NTfm3D_BackwardLauncher zero_buffer scenario_points scenario_masks scenario_tfms
       scenario_gradOut 1 3 1 1 411 (1 * 411 * 12) (contiguous 1 3 1 1) (contiguous 1 411 1 1)
       (mkStrides 4932 12 1 0) zero_buffer sample_regs sample_grads = Done out) /\
  (411 <= 411 ->
   NTfm3D_BackwardLauncher zero_buffer scenario_points scenario_masks scenario_tfms
     scenario_gradOut 1 3 1 1 411 (1 * 411 * 12) (contiguous 1 3 1 1) (contiguous 1 411 1 1)
     (mkStrides 4932 12 1 0) zero_buffer sample_regs sample_grads = Fatal CapacityExceeded).
Proof.
  apply (backward_shared_memory_limit zero_buffer scenario_points scenario_masks scenario_tfms
           zero_buffer scenario_gradOut 1 1 1 411); lia.
Defined.

Section ExactLaunchers.
Context {F : Type} {ops : Scalar F} (Hexact : exact_scalar F).
Let el_ring_theory : ring_theory fzero fone fadd fmul fsub fopp (@eq F) := Hexact.
Add Ring el_ring : el_ring_theory.

(** The forward launcher over exact arithmetic, all cells at once. *)
Lemma forward_launcher_blend
      (constTfms points masks tfms tfmpoints : buffer F) (B R C K : Z) (ts : Strides) :
  valid_forward B R C K ts ->
  exists out,
    NTfm3D_ForwardLauncher constTfms points masks tfms tfmpoints B 3 R C K (B * K * 12)
      (contiguous B 3 R C) (contiguous B K R C) ts = Done out /\
    forall b r c, 0 <= b < B -> 0 <= r < R -> 0 <= c < C ->
      point_at out (contiguous B 3 R C) b r c =
      blend (point_at points (contiguous B 3 R C) b r c)
        (fun k => masks (offset (contiguous B K R C) b k r c))
        (fun k => tfm_at tfms K b k) (Z.to_nat K).
Proof.
  intros Hv.
  destruct (forward_launcher_cells constTfms points masks tfms tfmpoints B R C K ts Hv)
    as (out & Eout & Hcells & _).
  exists out. split; [exact Eout|]. intros b r c Hb Hr Hc.
  rewrite Hcells by auto. apply blend_in_order_blend. exact Hexact.
Qed.

(** The backward launcher over exact arithmetic, all cells at once. *)
Lemma backward_launcher_gradients
      (constTfms points masks tfms gradTfmpoints : buffer F) (B R C K : Z) (ts : Strides)
      (sh0 : buffer F) (rg0 : buffer (vec3 F)) (g : Grads F) :
  valid_backward B R C K ts ->
  let ps := contiguous B 3 R C in
  let ms := contiguous B K R C in
  exists out,
    NTfm3D_BackwardLauncher constTfms points masks tfms gradTfmpoints B 3 R C K (B * K * 12)
      ps ms ts sh0 rg0 g = Done out /\
    (forall b r c, 0 <= b < B -> 0 <= r < R -> 0 <= c < C ->
       point_at (gradPoints out) ps b r c =
       point_gradient (point_at gradTfmpoints ps b r c)
         (fun k => masks (offset ms b k r c)) (fun k => tfm_at tfms K b k) (Z.to_nat K)) /\
    (forall b k r c, 0 <= b < B -> 0 <= k < K -> 0 <= r < R -> 0 <= c < C ->
       cval (gradMasks out) (offset ms b k r c) =
       mask_gradient (point_at points ps b r c) (point_at gradTfmpoints ps b r c)
         (tfm_at tfms K b k)) /\
    (forall b k i, 0 <= b < B -> 0 <= k < K -> 0 <= i < 12 ->
       gradTfms out (b * (K * 12) + (k * 12 + i)) =
       fadd (gradTfms g (b * (K * 12) + (k * 12 + i)))
            (plain_sum R C
               (fun r c => tfm_grad_per_point (masks (offset ms b k r c))
                             (point_at points ps b r c) (point_at gradTfmpoints ps b r c) i))).
Proof.
  intros Hv ps ms. subst ps ms.
  destruct (backward_launcher_cells constTfms points masks tfms gradTfmpoints B R C K ts
              sh0 rg0 g Hv) as (cst & out & Hcst & Eout & Hp & Hm & _).
  cbv zeta in Eout, Hp, Hm.
  destruct Hv as [(HB & HR & HC & HK & Hmax & Hmax' & Hcap & E0 & E1) Hshared].
  destruct (cast_transform_strides K ts) as [Hts0 Hts1]; auto; [nia|].
  exists out. split; [exact Eout|]. split; [|split].
  - intros b r c Hb Hr Hc. rewrite Hp by auto.
    apply (point_grad_value_spec Hexact) with (B := B); auto.
  - intros b k r c Hb Hk Hr Hc. specialize (Hm b k r c Hb Hk Hr Hc).
    unfold cell_view in Hm. injection Hm as Ev _. rewrite Ev.
    apply (mask_grad_value_spec Hexact) with (B := B); auto.
  - intros b k i Hb Hk Hi.
    destruct (backward_launcher_runs constTfms points masks tfms gradTfmpoints B R C K ts
                sh0 rg0 g) as (cst' & _ & Erun); try lia.
    rewrite Erun in Eout. injection Eout as <-.
    pose proof (ceil_div_nonneg C 16 ltac:(lia) ltac:(lia)).
    pose proof (ceil_div_nonneg R 16 ltac:(lia) ltac:(lia)).
    pose proof (ceil_div_covers C 16 ltac:(lia) ltac:(lia)).
    pose proof (ceil_div_covers R 16 ltac:(lia) ltac:(lia)).
    rewrite (grid_gradTfms_plain_sum Hexact) with (m := 8); auto; try lia.
    f_equal. apply plain_sum_ext. intros r c Hr Hc.
    apply (tfm_grad_entry_per_point Hexact). exact Hi.
Qed.

Lemma plain_sum_scale (R C : Z) (a : F) (f : Z -> Z -> F) :
  plain_sum R C (fun r c => fmul a (f r c)) = fmul a (plain_sum R C f).
Proof.
  unfold plain_sum.
  rewrite <- (sum_upto_scale Hexact). apply sum_upto_ext. intros r _.
  apply (sum_upto_scale Hexact).
Qed.


End ExactLaunchers.

(** X6.  Over exact arithmetic, at a cell whose weights sum to one the forward
    output is the weighted mean of the transformed points,
    [sum_k w_k * (R_k p + t_k)]. *)
Theorem forward_weights_sum_to_one
        {F : Type} {ops : Scalar F} (Hexact : exact_scalar F)
        (constTfms points masks tfms tfmpoints : buffer F) (B R C K : Z) (ts : Strides)
        (b r c : Z) :
  valid_forward B R C K ts ->
  0 <= b < B -> 0 <= r < R -> 0 <= c < C ->
  let w := fun k => masks (offset (contiguous B K R C) b k r c) in
  sum_upto (Z.to_nat K) w = fone ->
  exists out,
    NTfm3D_ForwardLauncher constTfms points masks tfms tfmpoints B 3 R C K (B * K * 12)
      (contiguous B 3 R C) (contiguous B K R C) ts = Done out /\
    point_at out (contiguous B 3 R C) b r c =
    vsum (Z.to_nat K)
      (fun k => vscale (w k) (apply_tfm (tfm_at tfms K b k)
                                (point_at points (contiguous B 3 R C) b r c))).
Proof.
  intros Hv Hb Hr Hc w Hw.
  destruct (forward_launcher_blend Hexact constTfms points masks tfms tfmpoints B R C K ts Hv)
    as (out & Eout & Hcells).
  exists out. split; [exact Eout|]. rewrite Hcells by auto.
  apply (blend_affine Hexact). exact Hw.
Qed.

Lemma forward_weights_sum_to_one_witness :
  let w := fun k => scenario_masks (offset (contiguous 1 1 1 1) 0 k 0 0) in
  exists out,
    NTfm3D_ForwardLauncher zero_buffer scenario_points scenario_masks scenario_tfms zero_buffer
      1 3 1 1 1 (1 * 1 * 12) (contiguous 1 3 1 1) (contiguous 1 1 1 1) scenario_ts = Done out /\
    point_at out (contiguous 1 3 1 1) 0 0 0 =
    vsum (Z.to_nat 1)
      (fun k => vscale (w k) (apply_tfm (tfm_at scenario_tfms 1 0 k)
                                (point_at scenario_points (contiguous 1 3 1 1) 0 0 0))).
Proof.
  apply (forward_weights_sum_to_one Z_exact zero_buffer scenario_points scenario_masks
           scenario_tfms zero_buffer 1 1 1 1 scenario_ts 0 0 0);
    try lia; [(unfold valid_backward, valid_forward, INT_MAX; cbn; lia) | reflexivity].
Defined.

(** X7.  Over exact arithmetic, at a cell whose weights are one for a single
    transform and zero for the others, the forward output is the point moved
    by that transform, [R_k p + t_k]. *)
Theorem forward_one_hot_mask
        {F : Type} {ops : Scalar F} (Hexact : exact_scalar F)
        (constTfms points masks tfms tfmpoints : buffer F) (B R C K : Z) (ts : Strides)
        (b r c k0 : Z) :
  valid_forward B R C K ts ->
  0 <= b < B -> 0 <= r < R -> 0 <= c < C -> 0 <= k0 < K ->
  masks (offset (contiguous B K R C) b k0 r c) = fone ->
  (forall k, 0 <= k < K -> k <> k0 -> masks (offset (contiguous B K R C) b k r c) = fzero) ->
  exists out,
    NTfm3D_ForwardLauncher constTfms points masks tfms tfmpoints B 3 R C K (B * K * 12)
      (contiguous B 3 R C) (contiguous B K R C) ts = Done out /\
    point_at out (contiguous B 3 R C) b r c =
    apply_tfm (tfm_at tfms K b k0) (point_at points (contiguous B 3 R C) b r c).
Proof.
  intros Hv Hb Hr Hc Hk H1 H0.
  destruct (forward_launcher_blend Hexact constTfms points masks tfms tfmpoints B R C K ts Hv)
    as (out & Eout & Hcells).
  exists out. split; [exact Eout|]. rewrite Hcells by auto.
  apply (blend_one_hot Hexact) with (k0 := k0); [lia | exact H1 |].
  intros k Hk' Hne. apply H0; lia.
Qed.

Lemma forward_one_hot_mask_witness :
  exists out,
    NTfm3D_ForwardLauncher zero_buffer scenario_points scenario_masks scenario_tfms zero_buffer
      1 3 1 1 1 (1 * 1 * 12) (contiguous 1 3 1 1) (contiguous 1 1 1 1) scenario_ts = Done out /\
    point_at out (contiguous 1 3 1 1) 0 0 0 =
    apply_tfm (tfm_at scenario_tfms 1 0 0) (point_at scenario_points (contiguous 1 3 1 1) 0 0 0).
Proof.
  apply (forward_one_hot_mask Z_exact zero_buffer scenario_points scenario_masks
           scenario_tfms zero_buffer 1 1 1 1 scenario_ts 0 0 0 0);
    try lia; [(unfold valid_backward, valid_forward, INT_MAX; cbn; lia) | reflexivity].
Defined.

(** X8.  Over exact arithmetic, when every transform of a batch element is
    the identity the forward output of its cells is the input point, whatever
    the weights. *)
Theorem forward_identity_transforms
        {F : Type} {ops : Scalar F} (Hexact : exact_scalar F)
        (constTfms points masks tfms tfmpoints : buffer F) (B R C K : Z) (ts : Strides)
        (b r c : Z) :
  valid_forward B R C K ts ->
  0 <= b < B -> 0 <= r < R -> 0 <= c < C ->
  (forall k, 0 <= k < K -> is_identity (tfm_at tfms K b k)) ->
  exists out,
    NTfm3D_ForwardLauncher constTfms points masks tfms tfmpoints B 3 R C K (B * K * 12)
      (contiguous B 3 R C) (contiguous B K R C) ts = Done out /\
    point_at out (contiguous B 3 R C) b r c = point_at points (contiguous B 3 R C) b r c.
Proof.
  intros Hv Hb Hr Hc HT.
  destruct (forward_launcher_blend Hexact constTfms points masks tfms tfmpoints B R C K ts Hv)
    as (out & Eout & Hcells).
  exists out. split; [exact Eout|]. rewrite Hcells by auto.
  apply (blend_identity Hexact). intros k Hk. apply HT. lia.
Qed.

Lemma forward_identity_transforms_witness :
  exists out,
    NTfm3D_ForwardLauncher zero_buffer sample_points sample_masks identity_tfms zero_buffer
      1 3 1 1 1 (1 * 1 * 12) (contiguous 1 3 1 1) (contiguous 1 1 1 1) scenario_ts = Done out /\
    point_at out (contiguous 1 3 1 1) 0 0 0 = point_at sample_points (contiguous 1 3 1 1) 0 0 0.
Proof.
  apply (forward_identity_transforms Z_exact zero_buffer sample_points sample_masks
           identity_tfms zero_buffer 1 1 1 1 scenario_ts 0 0 0);
    try lia; [(unfold valid_backward, valid_forward, INT_MAX; cbn; lia) |].
  intros k Hk. assert (k = 0) by lia. subst k. repeat split.
Defined.

(** X9.  The mask gradient is the derivative of the forward pass in a weight.
    Over exact arithmetic, when the weight of transform k at a cell is changed
    (the other weights of the cell kept), the change of the forward output at
    the cell, projected on the upstream gradient, is the change of the weight
    times [gradMasks[b, k, r, c]]. *)
Theorem mask_gradient_is_derivative
        {F : Type} {ops : Scalar F} (Hexact : exact_scalar F)
        (constTfms points masks masks' tfms tfmpoints gradTfmpoints : buffer F)
        (B R C K : Z) (ts : Strides)
        (sh0 : buffer F) (rg0 : buffer (vec3 F)) (g : Grads F) (b k r c : Z) :
  valid_backward B R C K ts ->
  0 <= b < B -> 0 <= k < K -> 0 <= r < R -> 0 <= c < C ->
  let ps := contiguous B 3 R C in
  let ms := contiguous B K R C in
  (forall k', 0 <= k' < K -> k' <> k -> masks' (offset ms b k' r c) = masks (offset ms b k' r c)) ->
  exists out out' grads,
    NTfm3D_ForwardLauncher constTfms points masks tfms tfmpoints B 3 R C K (B * K * 12)
      ps ms ts = Done out /\
    NTfm3D_ForwardLauncher constTfms points masks' tfms tfmpoints B 3 R C K (B * K * 12)
      ps ms ts = Done out' /\
    NTfm3D_BackwardLauncher constTfms points masks tfms gradTfmpoints B 3 R C K (B * K * 12)
      ps ms ts sh0 rg0 g = Done grads /\
    dot (point_at gradTfmpoints ps b r c)
        (vsub (point_at out' ps b r c) (point_at out ps b r c)) =
    fmul (fsub (masks' (offset ms b k r c)) (masks (offset ms b k r c)))
         (cval (gradMasks grads) (offset ms b k r c)).
Proof.
  intros Hv Hb Hk Hr Hc ps ms Hw. subst ps ms.
  destruct (forward_launcher_blend Hexact constTfms points masks tfms tfmpoints B R C K ts
              (proj1 Hv)) as (out & Eout & Hcells).
  destruct (forward_launcher_blend Hexact constTfms points masks' tfms tfmpoints B R C K ts
              (proj1 Hv)) as (out' & Eout' & Hcells').
  destruct (backward_launcher_gradients Hexact constTfms points masks tfms gradTfmpoints
              B R C K ts sh0 rg0 g Hv) as (grads & Egr & _ & Hm & _).
  exists out, out', grads. repeat split; auto.
  rewrite Hcells, Hcells', Hm by auto.
  apply (blend_mask_derivative Hexact
           (point_at gradTfmpoints (contiguous B 3 R C) b r c)
           (point_at points (contiguous B 3 R C) b r c)
           (fun k => masks (offset (contiguous B K R C) b k r c))
           (fun k => masks' (offset (contiguous B K R C) b k r c))
           (fun k => tfm_at tfms K b k) (Z.to_nat K) k); [lia|].
  intros k' Hk' Hne. apply Hw; lia.
Qed.

Lemma mask_gradient_is_derivative_witness :
  let ps := contiguous 1 3 1 1 in
  let ms := contiguous 1 1 1 1 in
  exists out out' grads,
    NTfm3D_ForwardLauncher zero_buffer scenario_points scenario_masks scenario_tfms zero_buffer
      1 3 1 1 1 (1 * 1 * 12) ps ms scenario_ts = Done out /\
    NTfm3D_ForwardLauncher zero_buffer scenario_points sample_masks scenario_tfms zero_buffer
      1 3 1 1 1 (1 * 1 * 12) ps ms scenario_ts = Done out' /\
    NTfm3D_BackwardLauncher zero_buffer scenario_points scenario_masks scenario_tfms
      scenario_gradOut 1 3 1 1 1 (1 * 1 * 12) ps ms scenario_ts
      zero_buffer sample_regs sample_grads = Done grads /\
    dot (point_at scenario_gradOut ps 0 0 0)
        (vsub (point_at out' ps 0 0 0) (point_at out ps 0 0 0)) =
    fmul (fsub (sample_masks (offset ms 0 0 0 0)) (scenario_masks (offset ms 0 0 0 0)))
         (cval (gradMasks grads) (offset ms 0 0 0 0)).
Proof.
  apply (mask_gradient_is_derivative Z_exact zero_buffer scenario_points scenario_masks
           sample_masks scenario_tfms zero_buffer scenario_gradOut 1 1 1 1 scenario_ts
           zero_buffer sample_regs sample_grads 0 0 0 0);
    try lia; unfold valid_backward, valid_forward, INT_MAX; cbn; lia.
Defined.

(** X10.  The point gradient is the derivative of the forward pass in the
    point.  Over exact arithmetic, for any two point fields the change of the
    forward output at a cell, projected on the upstream gradient, is the inner
    product of [gradPoints] at the cell with the change of the input point. *)
Theorem point_gradient_is_derivative
        {F : Type} {ops : Scalar F} (Hexact : exact_scalar F)
        (constTfms points points' masks tfms tfmpoints gradTfmpoints : buffer F)
        (B R C K : Z) (ts : Strides)
        (sh0 : buffer F) (rg0 : buffer (vec3 F)) (g : Grads F) (b r c : Z) :
  valid_backward B R C K ts ->
  0 <= b < B -> 0 <= r < R -> 0 <= c < C ->
  let ps := contiguous B 3 R C in
  let ms := contiguous B K R C in
  exists out out' grads,
    NTfm3D_ForwardLauncher constTfms points masks tfms tfmpoints B 3 R C K (B * K * 12)
      ps ms ts = Done out /\
    NTfm3D_ForwardLauncher constTfms points' masks tfms tfmpoints B 3 R C K (B * K * 12)
      ps ms ts = Done out' /\
    NTfm3D_BackwardLauncher constTfms points masks tfms gradTfmpoints B 3 R C K (B * K * 12)
      ps ms ts sh0 rg0 g = Done grads /\
    dot (point_at gradTfmpoints ps b r c)
        (vsub (point_at out' ps b r c) (point_at out ps b r c)) =
    dot (point_at (gradPoints grads) ps b r c)
        (vsub (point_at points' ps b r c) (point_at points ps b r c)).
Proof.
  intros Hv Hb Hr Hc ps ms. subst ps ms.
  destruct (forward_launcher_blend Hexact constTfms points masks tfms tfmpoints B R C K ts
              (proj1 Hv)) as (out & Eout & Hcells).
  destruct (forward_launcher_blend Hexact constTfms points' masks tfms tfmpoints B R C K ts
              (proj1 Hv)) as (out' & Eout' & Hcells').
  destruct (backward_launcher_gradients Hexact constTfms points masks tfms gradTfmpoints
              B R C K ts sh0 rg0 g Hv) as (grads & Egr & Hp & _).
  exists out, out', grads. repeat split; auto.
  rewrite Hcells, Hcells', Hp by auto.
  apply (blend_point_derivative Hexact).
Qed.

Lemma point_gradient_is_derivative_witness :
  let ps := contiguous 1 3 1 1 in
  let ms := contiguous 1 1 1 1 in
  exists out out' grads,
    NTfm3D_ForwardLauncher zero_buffer scenario_points scenario_masks scenario_tfms zero_buffer
      1 3 1 1 1 (1 * 1 * 12) ps ms scenario_ts = Done out /\
    NTfm3D_ForwardLauncher zero_buffer sample_points scenario_masks scenario_tfms zero_buffer
      1 3 1 1 1 (1 * 1 * 12) ps ms scenario_ts = Done out' /\
    NTfm3D_BackwardLauncher zero_buffer scenario_points scenario_masks scenario_tfms
      scenario_gradOut 1 3 1 1 1 (1 * 1 * 12) ps ms scenario_ts
      zero_buffer sample_regs sample_grads = Done grads /\
    dot (point_at scenario_gradOut ps 0 0 0)
        (vsub (point_at out' ps 0 0 0) (point_at out ps 0 0 0)) =
    dot (point_at (gradPoints grads) ps 0 0 0)
        (vsub (point_at sample_points ps 0 0 0) (point_at scenario_points ps 0 0 0)).
Proof.
  apply (point_gradient_is_derivative Z_exact zero_buffer scenario_points sample_points
           scenario_masks scenario_tfms zero_buffer scenario_gradOut 1 1 1 1 scenario_ts
           zero_buffer sample_regs sample_grads 0 0 0);
    try lia; unfold valid_backward, valid_forward, INT_MAX; cbn; lia.
Defined.

(** X11.  The transform gradient is the derivative of the forward pass in a
    transform entry.  Over exact arithmetic, when entry i of transform (b, k) is
    changed, the change of the forward output projected on the upstream
    gradient and summed over the cells of batch element b is the change of the
    entry times the [gradTfms] entry the backward launcher computes from zero. *)
Theorem tfm_gradient_is_derivative
        {F : Type} {ops : Scalar F} (Hexact : exact_scalar F)
        (constTfms points masks tfms tfms' tfmpoints gradTfmpoints : buffer F)
        (B R C K : Z) (ts : Strides)
        (sh0 : buffer F) (rg0 : buffer (vec3 F)) (g : Grads F) (b k i : Z) :
  valid_backward B R C K ts ->
  0 <= b < B -> 0 <= k < K -> 0 <= i < 12 ->
  let ps := contiguous B 3 R C in
  let ms := contiguous B K R C in
  let a := b * (K * 12) + (k * 12 + i) in
  (forall j, 0 <= j < B * K * 12 -> j <> a -> tfms' j = tfms j) ->
  gradTfms g a = fzero ->
  exists out out' grads,
    NTfm3D_ForwardLauncher constTfms points masks tfms tfmpoints B 3 R C K (B * K * 12)
      ps ms ts = Done out /\
    NTfm3D_ForwardLauncher constTfms points masks tfms' tfmpoints B 3 R C K (B * K * 12)
      ps ms ts = Done out' /\
    NTfm3D_BackwardLauncher constTfms points masks tfms gradTfmpoints B 3 R C K (B * K * 12)
      ps ms ts sh0 rg0 g = Done grads /\
    plain_sum R C
      (fun r c => dot (point_at gradTfmpoints ps b r c)
                      (vsub (point_at out' ps b r c) (point_at out ps b r c))) =
    fmul (fsub (tfms' a) (tfms a)) (gradTfms grads a).
Proof.
  intros Hv Hb Hk Hi ps ms a HT Hz. subst ps ms.
  destruct (forward_launcher_blend Hexact constTfms points masks tfms tfmpoints B R C K ts
              (proj1 Hv)) as (out & Eout & Hcells).
  destruct (forward_launcher_blend Hexact constTfms points masks tfms' tfmpoints B R C K ts
              (proj1 Hv)) as (out' & Eout' & Hcells').
  destruct (backward_launcher_gradients Hexact constTfms points masks tfms gradTfmpoints
              B R C K ts sh0 rg0 g Hv) as (grads & Egr & _ & _ & Ht).
  exists out, out', grads. repeat split; auto.
  fold a. specialize (Ht b k i Hb Hk Hi). cbv zeta in Ht. fold a in Ht.
  rewrite Ht, Hz.
  pose proof Hexact as Hring. destruct Hring as [Hadd0 _ _ _ _ _ _ _ _]. rewrite Hadd0.
  rewrite <- (plain_sum_scale Hexact). apply plain_sum_ext. intros r c Hr Hc.
  rewrite Hcells, Hcells' by auto.
  assert (Ea : forall m : buffer F, tfm_at m K b k i = m a)
    by (intros m; unfold tfm_at, a; f_equal; lia).
  rewrite <- !Ea.
  apply (blend_tfm_derivative Hexact
           (point_at gradTfmpoints (contiguous B 3 R C) b r c)
           (point_at points (contiguous B 3 R C) b r c)
           (fun k => masks (offset (contiguous B K R C) b k r c))
           (fun k => tfm_at tfms K b k) (fun k => tfm_at tfms' K b k)
           (Z.to_nat K) k i); [lia | exact Hi |].
  intros k' i' Hk' Hi' Hne. unfold tfm_at. apply HT.
  - apply transform_index_bound; lia.
  - unfold a. intros E.
    assert (k' * 12 + i' = k * 12 + i) by lia.
    assert (k' = k /\ i' = i) by lia.
    apply Hne. f_equal; lia.
Qed.

Lemma tfm_gradient_is_derivative_witness :
  let ps := contiguous 1 3 1 1 in
  let ms := contiguous 1 1 1 1 in
  let a := 0 * (1 * 12) + (0 * 12 + 4) in
  exists out out' grads,
    NTfm3D_ForwardLauncher zero_buffer scenario_points scenario_masks scenario_tfms zero_buffer
      1 3 1 1 1 (1 * 1 * 12) ps ms scenario_ts = Done out /\
    NTfm3D_ForwardLauncher zero_buffer scenario_points scenario_masks
      (store scenario_tfms 4 7) zero_buffer
      1 3 1 1 1 (1 * 1 * 12) ps ms scenario_ts = Done out' /\
    NTfm3D_BackwardLauncher zero_buffer scenario_points scenario_masks scenario_tfms
      scenario_gradOut 1 3 1 1 1 (1 * 1 * 12) ps ms scenario_ts
      zero_buffer sample_regs sample_grads = Done grads /\
    plain_sum 1 1
      (fun r c => dot (point_at scenario_gradOut ps 0 r c)
                      (vsub (point_at out' ps 0 r c) (point_at out ps 0 r c))) =
    fmul (fsub (store scenario_tfms 4 7 a) (scenario_tfms a)) (gradTfms grads a).
Proof.
  apply (tfm_gradient_is_derivative Z_exact zero_buffer scenario_points scenario_masks
           scenario_tfms (store scenario_tfms 4 7) zero_buffer scenario_gradOut
           1 1 1 1 scenario_ts zero_buffer sample_regs sample_grads 0 0 4);
    try lia; [(unfold valid_backward, valid_forward, INT_MAX; cbn; lia) | | reflexivity].
  intros j Hj Hne. apply store_other. lia.
Defined.



(** ** The entry points *)

Lemma map_seq_shift {A : Type} (f : nat -> A) (k m : nat) :
  map f (seq k m) = map (fun j => f (k + j)%nat) (seq 0 m).
Proof.
  revert f k. induction m as [|m IH]; intros f k; [reflexivity|].
  cbn [seq map]. rewrite Nat.add_0_r. f_equal.
  rewrite (IH f (Datatypes.S k)), (IH (fun j => f (k + j)%nat) 1%nat).
  apply map_ext. intros j. f_equal. lia.
Qed.

(** Consecutive blocks of consecutive offsets are consecutive offsets. *)
Lemma flat_map_blocks (n m : nat) (base : Z) :
  flat_map (fun i => map (fun j => base + Z.of_nat i * Z.of_nat m + Z.of_nat j) (seq 0 m))
           (seq 0 n) =
  map (fun j => base + Z.of_nat j) (seq 0 (n * m)).
Proof.
  induction n as [|n IH]; [reflexivity|].
  rewrite seq_S, flat_map_app, IH. cbn [flat_map]. rewrite app_nil_r.
  replace (Datatypes.S n * m)%nat with (n * m + m)%nat by lia.
  rewrite seq_app, map_app. f_equal. cbn [Nat.add].
  rewrite (map_seq_shift (fun j => base + Z.of_nat j) (n * m) m).
  apply map_ext. intros j. lia.
Qed.

Lemma element_offsets_cons (n s : Z) (m : nat) (rest : list (Z * Z)) (base : Z) :
  s = Z.of_nat m ->
  (forall b, element_offsets rest b = map (fun j => b + Z.of_nat j) (seq 0 m)) ->
  element_offsets ((n, s) :: rest) base =
  map (fun j => base + Z.of_nat j) (seq 0 (Z.to_nat n * m)).
Proof.
  intros -> Hrest. cbn [element_offsets]. rewrite <- flat_map_blocks.
  apply flat_map_ext. intros i. apply Hrest.
Qed.

(** The elements of a tensor in the canonical layout are the first
    [n0 * n1 * n2 * n3] cells of its buffer, each once. *)
Lemma canonical_offsets_seq {A : Type} (t : Tensor A) (n0 n1 n2 n3 : Z) :
  canonical t n0 n1 n2 n3 -> 0 <= n0 -> 0 <= n1 -> 0 <= n2 -> 0 <= n3 ->
  offsets_of t = map Z.of_nat (seq 0 (Z.to_nat (n0 * n1 * n2 * n3))).
Proof.
  intros [Hs Ht] H0 H1 H2 H3. unfold offsets_of. rewrite Hs, Ht. cbn [combine].
  rewrite (element_offsets_cons n0 (n1 * n2 * n3) (Z.to_nat n1 * (Z.to_nat n2 * Z.to_nat n3)));
    [| nia |].
  - replace (Z.to_nat n0 * (Z.to_nat n1 * (Z.to_nat n2 * Z.to_nat n3)))%nat
      with (Z.to_nat (n0 * n1 * n2 * n3)) by nia.
    apply map_ext. intros j. lia.
  - intros b1.
    rewrite (element_offsets_cons n1 (n2 * n3) (Z.to_nat n2 * Z.to_nat n3)); [reflexivity | nia |].
    intros b2.
    rewrite (element_offsets_cons n2 n3 (Z.to_nat n3 * 1)); [| lia |].
    + rewrite Nat.mul_1_r. reflexivity.
    + intros b3.
      rewrite (element_offsets_cons n3 1 1); [reflexivity | reflexivity |].
      intros b4. cbn. f_equal. lia.
Qed.

Lemma fold_update_seq {A : Type} (f : A -> A) (n : nat) (m : buffer A) (o : Z) :
  fold_left (fun m o => store m o (f (m o))) (map Z.of_nat (seq 0 n)) m o =
  if (0 <=? o) && (o <? Z.of_nat n) then f (m o) else m o.
Proof.
  induction n as [|n IH].
  - cbn [seq map fold_left].
    destruct (0 <=? o) eqn:E0; [|reflexivity].
    destruct (o <? Z.of_nat 0) eqn:E1; [|reflexivity].
    apply Z.leb_le in E0. apply Z.ltb_lt in E1. lia.
  - rewrite seq_S, map_app, fold_left_app. cbn [Nat.add map fold_left].
    destruct (Z.eq_dec o (Z.of_nat n)) as [-> | Hne].
    + rewrite store_same. rewrite IH.
      replace (Z.of_nat n <? Z.of_nat n) with false by (symmetry; apply Z.ltb_ge; lia).
      rewrite andb_false_r.
      replace ((0 <=? Z.of_nat n) && (Z.of_nat n <? Z.of_nat (Datatypes.S n))) with true
        by (symmetry; apply andb_true_intro; split; [apply Z.leb_le | apply Z.ltb_lt]; lia).
      reflexivity.
    + rewrite store_other by exact Hne. rewrite IH.
      destruct (0 <=? o); cbn [andb]; [|reflexivity].
      destruct (o <? Z.of_nat n) eqn:E1; destruct (o <? Z.of_nat (Datatypes.S n)) eqn:E2;
        try reflexivity.
      * apply Z.ltb_lt in E1. apply Z.ltb_ge in E2. lia.
      * apply Z.ltb_ge in E1. apply Z.ltb_lt in E2. lia.
Qed.

Section LossBackwardProofs.
Context {F : Type} {ops : Scalar F} {fops : FloatOps F} {dops : DoubleOps F}.

Lemma mul_canonical (t : Tensor F) (v : F) (n0 n1 n2 n3 o : Z) :
  canonical t n0 n1 n2 n3 -> 0 <= n0 -> 0 <= n1 -> 0 <= n2 -> 0 <= n3 ->
  data (THCudaTensor_mul t v) o =
  if (0 <=? o) && (o <? n0 * n1 * n2 * n3) then fmul (data t o) v else data t o.
Proof.
  intros Hc H0 H1 H2 H3. unfold THCudaTensor_mul. cbn [data].
  rewrite (canonical_offsets_seq t n0 n1 n2 n3) by auto.
  rewrite (fold_update_seq (fun x => fmul x v)).
  rewrite Z2Nat.id by nia. reflexivity.
Qed.

End LossBackwardProofs.



(** X14.  Without size averaging, the backward entry point of the fused loss
    hands its launcher the point and transform gradients filled with zero and
    the mask gradient as it received it, and then multiplies every element of
    what the launcher has left in the three gradient tensors by the upstream
    gradient [gradOutput[0]]. *)
Theorem loss_backward_scales_by_upstream
        {F : Type} {ops : Scalar F} {fops : FloatOps F} {dops : DoubleOps F}
        (launcher : LossBackwardCall F -> buffer F * buffer F * buffer F)
        (points masks tfms targetpoints gradPoints gradMasks gradTfms gradOutput : Tensor F)
        (B R C K : Z) :
  size_at points 1 = 3 ->
  to_int (nElement tfms) <= 15000 ->
  0 <= B -> 0 <= R -> 0 <= C -> 0 <= K ->
  canonical gradPoints B 3 R C -> canonical gradMasks B K R C -> canonical gradTfms B K 3 4 ->
  exists call res,
    Weighted3DTransformLoss_backward_prepare points masks tfms targetpoints
      gradPoints gradMasks gradTfms = Done call /\
    lb_gradPoints call = fill gradPoints fzero /\
    lb_gradMasks call = gradMasks /\
    lb_gradTfms call = fill gradTfms fzero /\
    Weighted3DTransformLoss_backward_cuda launcher points masks tfms targetpoints
      gradPoints gradMasks gradTfms gradOutput 0 = Done res /\
    let upstream := data gradOutput 0 in
    (forall o, 0 <= o < B * 3 * R * C ->
       data (lg_gradPoints res) o = fmul (fst (fst (launcher call)) o) upstream) /\
    (forall o, 0 <= o < B * K * R * C ->
       data (lg_gradMasks res) o = fmul (snd (fst (launcher call)) o) upstream) /\
    (forall o, 0 <= o < B * K * 3 * 4 ->
       data (lg_gradTfms res) o = fmul (snd (launcher call) o) upstream).
Proof.
  intros Hdim Hcap HB HR HC HK Hgp Hgm Hgt.
  destruct (check_capacity_spec (to_int (nElement tfms))) as [Hok _].
  set (call := mkLossBackwardCall (newContiguous points) (newContiguous masks)
                 (newContiguous tfms) (newContiguous targetpoints)
                 (fill gradPoints fzero) gradMasks (fill gradTfms fzero)
                 (to_int (size_at points 0)) (to_int (size_at points 1))
                 (to_int (size_at points 2)) (to_int (size_at points 3))
                 (to_int (size_at masks 1)) (to_int (nElement tfms))).
  assert (Eprep : Weighted3DTransformLoss_backward_prepare points masks tfms targetpoints
                    gradPoints gradMasks gradTfms = Done call).
  { unfold Weighted3DTransformLoss_backward_prepare. cbv zeta.
    replace (check_ndim (size_at points 1)) with (Done tt) by (rewrite Hdim; reflexivity).
    rewrite Hok by exact Hcap. reflexivity. }
  unfold Weighted3DTransformLoss_backward_cuda. rewrite Eprep.
  destruct (launcher call) as [[gp gm] gt] eqn:EL.
  exists call. eexists. split; [reflexivity|].
  repeat (split; [reflexivity|]).
  cbv zeta. rewrite EL. cbn [fst snd lg_gradPoints lg_gradMasks lg_gradTfms lb_gradPoints
                             lb_gradMasks lb_gradTfms call].
  assert (Hin : forall o n, 0 <= o < n -> (0 <=? o) && (o <? n) = true)
    by (intros o n Ho; apply andb_true_intro; split; [apply Z.leb_le | apply Z.ltb_lt]; lia).
  split; [|split]; intros o Ho.
  - rewrite (mul_canonical _ _ B 3 R C) by first [lia | exact Hgp].
    rewrite Hin by exact Ho. reflexivity.
  - rewrite (mul_canonical _ _ B K R C) by first [lia | exact Hgm].
    rewrite Hin by exact Ho. reflexivity.
  - rewrite (mul_canonical _ _ B K 3 4) by first [lia | exact Hgt].
    rewrite Hin by exact Ho. reflexivity.
Qed.

Lemma loss_backward_scales_by_upstream_witness :
  let launcher := fun c : LossBackwardCall binary32 =>
                    (data (lb_gradPoints c), data (lb_gradMasks c), data (lb_gradTfms c)) in
  let one := fun _ : Z => @fone binary32 _ in
  exists call res,
    Weighted3DTransformLoss_backward_prepare (unit_points one) (unit_masks one) (unit_tfms4 one)
      (unit_points one) (unit_points one) (unit_masks one) (unit_tfms4 one) = Done call /\
    lb_gradPoints call = fill (unit_points one) fzero /\
    lb_gradMasks call = unit_masks one /\
    lb_gradTfms call = fill (unit_tfms4 one) fzero /\
    Weighted3DTransformLoss_backward_cuda launcher (unit_points one) (unit_masks one)
      (unit_tfms4 one) (unit_points one) (unit_points one) (unit_masks one) (unit_tfms4 one)
      (unit_points (fun _ => ftwo)) 0 = Done res /\
    let upstream := data (unit_points (fun _ : Z => @ftwo binary32 _ _)) 0 in
    (forall o, 0 <= o < 1 * 3 * 1 * 1 ->
       data (lg_gradPoints res) o = fmul (fst (fst (launcher call)) o) upstream) /\
    (forall o, 0 <= o < 1 * 1 * 1 * 1 ->
       data (lg_gradMasks res) o = fmul (snd (fst (launcher call)) o) upstream) /\
    (forall o, 0 <= o < 1 * 1 * 3 * 4 ->
       data (lg_gradTfms res) o = fmul (snd (launcher call) o) upstream).
Proof.
  apply (loss_backward_scales_by_upstream
           (fun c : LossBackwardCall binary32 =>
              (data (lb_gradPoints c), data (lb_gradMasks c), data (lb_gradTfms c)))
           (unit_points (fun _ : Z => @fone binary32 _))
           (unit_masks (fun _ : Z => @fone binary32 _))
           (unit_tfms4 (fun _ : Z => @fone binary32 _))
           (unit_points (fun _ : Z => @fone binary32 _))
           (unit_points (fun _ : Z => @fone binary32 _))
           (unit_masks (fun _ : Z => @fone binary32 _))
           (unit_tfms4 (fun _ : Z => @fone binary32 _))
           (unit_points (fun _ : Z => @ftwo binary32 _ _)) 1 1 1 1);
    try lia; try (split; reflexivity); try reflexivity.
  cbn. lia.
Defined.

(** With size averaging the upstream gradient is first divided by the number
    of scalars of the point field (3 for a single point): a launcher that
    leaves threes, an upstream gradient of one. *)
Lemma loss_backward_average_example :
  match Weighted3DTransformLoss_backward_cuda
          (fun _ => (fun _ => float_of_int 3, fun _ => float_of_int 3, fun _ => float_of_int 3))
          (unit_points (fun _ : Z => @fone binary32 _)) (unit_masks (fun _ => fone))
          (unit_tfms4 (fun _ => fone)) (unit_points (fun _ => fone))
          (unit_points (fun _ => fone)) (unit_masks (fun _ => fone))
          (unit_tfms4 (fun _ => fone)) (unit_points (fun _ => fone)) 1 with
  | Done res =>
      data (lg_gradPoints res) 0 = fone /\ data (lg_gradMasks res) 0 = fone /\
      data (lg_gradTfms res) 11 = fone /\ data (lg_gradTfms res) 12 = float_of_int 3
  | Fatal _ => False
  end.
Proof. vm_compute. repeat split. Qed.

(** ** Flow and visibility of every cell *)

Lemma window_loop_invariant {S : Type} (P : S -> Prop) (fuel : nat) (t : Z)
      (test : Z -> bool) (body : Z -> S -> S) (s : S) :
  P s -> (forall i x, P x -> P (body i x)) -> P (window_loop fuel t test body s).
Proof.
  intros H0 Hstep. revert t s H0.
  induction fuel as [|fuel IH]; intros t s H0; simpl; [exact H0|].
  destruct (test t); [|exact H0]. apply IH. apply Hstep. exact H0.
Qed.

Section FlowCellProofs.
Context {F : Type} {ops : Scalar F} {fops : FloatOps F}.
Variables (cloud1 cloud2 local1 local2 : buffer F).
Variables (label1 label2 : buffer Z).
Variable poses2 : buffer F.
Variable ps : Strides.
Variables (fx fy cx cy threshold winsize : F).
Variables (B R C : Z).

Let cs := contiguous B 3 R C.
Let ls := contiguous B 1 R C.
Let visit := visit_cell cloud1 cloud2 local1 local2 label1 label2 poses2 cs ls ps
               fx fy cx cy threshold winsize R C.

(** What the search holds at any moment: no match yet, or an association
    together with its distance. *)
Let found (b r c mi : Z) (best : F * Z * Z) : Prop :=
  (snd (fst best) = -1 /\ snd best = -1) \/
  associated local1 local2 label2 cs ls threshold R C b r c mi (snd (fst best)) (snd best).

Lemma compare_target_found (b r c mi tr tc : Z) (best : F * Z * Z) :
  found b r c mi best ->
  found b r c mi
    (compare_target local2 label2 cs ls R C b mi
       (local1 (offset cs b 0 r c)) (local1 (offset cs b 1 r c)) (local1 (offset cs b 2 r c))
       (fsquare threshold) tr tc best).
Proof.
  intros H. unfold compare_target. destruct best as [[d mr] mc].
  destruct ((tr <? 0) || (R <=? tr) || (tc <? 0) || (C <=? tc)) eqn:Elim; [exact H|].
  apply orb_false_elim in Elim. destruct Elim as [Elim E4].
  apply orb_false_elim in Elim. destruct Elim as [Elim E3].
  apply orb_false_elim in Elim. destruct Elim as [E1 E2].
  apply Z.ltb_ge in E1, E3. apply Z.leb_gt in E2, E4.
  destruct (label2 (b * st0 ls + tr * st2 ls + tc * st3 ls) =? mi) eqn:El; cbn [negb]; [|exact H].
  apply Z.eqb_eq in El.
  match goal with |- context [if ?g then _ else _] => destruct g eqn:Eg end; [|exact H].
  apply andb_prop in Eg. destruct Eg as [_ Eg].
  right. cbn [fst snd]. unfold associated. repeat split; try lia.
  - exact El.
  - exact Eg.
Qed.

Lemma search_window_found (b r c mi winhalfsize rpix cpix : Z) :
  found b r c mi
    (search_window local2 label2 cs ls winsize R C b mi
       (local1 (offset cs b 0 r c)) (local1 (offset cs b 1 r c)) (local1 (offset cs b 2 r c))
       (fsquare threshold) winhalfsize rpix cpix).
Proof.
  unfold search_window, for_window.
  apply window_loop_invariant.
  - left. split; reflexivity.
  - intros tr best Hb. apply window_loop_invariant; [exact Hb|].
    intros tc best' Hb'. apply compare_target_found. exact Hb'.
Qed.

(** The visit of a cell, seen at the cell itself. *)
Lemma visit_own (b r c : Z) (out : FlowOut F) :
  0 <= r < R -> 0 <= c < C ->
  cell_outcome cloud1 cloud2 local1 local2 label1 label2 cs ls threshold R C b r c
    out (visit b r c out).
Proof.
  intros Hr Hc. unfold cell_outcome. cbv zeta.
  unfold visit, visit_cell. cbv zeta. fold (label_index ls b r c).
  destruct (label1 (label_index ls b r c) =? 0) eqn:El.
  - apply Z.eqb_eq in El. right. left. cbn [visible1 flows12].
    rewrite store_same. auto.
  - apply Z.eqb_neq in El.
    match goal with |- context [if ?g then out else _] => destruct g end; [left; auto|].
    match goal with
    | |- context [match ?s with pair _ _ => _ end] =>
        assert (Hf : found b r c (label1 (label_index ls b r c)) s)
          by exact (search_window_found b r c _ _ _ _);
        destruct s as [[d tr] tc]
    end.
    destruct (negb (tr =? -1) && negb (tc =? -1)) eqn:Em; [|left; auto].
    apply andb_prop in Em. destruct Em as [Em1 Em2].
    apply negb_true_iff in Em1, Em2. apply Z.eqb_neq in Em1, Em2.
    unfold found in Hf. cbn [fst snd] in Hf.
    destruct Hf as [[H1 _] | Ha]; [contradiction|].
    right. right. cbn [visible1 flows12]. rewrite store_same.
    split; [exact El|]. split; [reflexivity|].
    exists tr, tc. split; [exact Ha|].
    unfold flow_to, vsub. unfold point_at at 1. cbn [vx vy vz]. f_equal.
    + exact (three_stores_hit B 3 R C b r c 0 (mkV3 _ _ _) (flows12 out)
               eq_refl Hr Hc ltac:(lia)).
    + exact (three_stores_hit B 3 R C b r c 1 (mkV3 _ _ _) (flows12 out)
               eq_refl Hr Hc ltac:(lia)).
    + exact (three_stores_hit B 3 R C b r c 2 (mkV3 _ _ _) (flows12 out)
               eq_refl Hr Hc ltac:(lia)).
Qed.

(** The visit of another cell changes neither the visibility nor the flow of
    the cell. *)
Lemma visit_elsewhere (b r c b' r' c' : Z) (out : FlowOut F) :
  0 <= r < R -> 0 <= c < C -> 0 <= r' < R -> 0 <= c' < C ->
  (b', r', c') <> (b, r, c) ->
  visible1 (visit b' r' c' out) (label_index ls b r c) = visible1 out (label_index ls b r c) /\
  point_at (flows12 (visit b' r' c' out)) cs b r c = point_at (flows12 out) cs b r c.
Proof.
  intros Hr Hc Hr' Hc' Hne.
  assert (Hidx : label_index ls b r c <> label_index ls b' r' c').
  { intros E. apply Hne.
    assert (E' : offset ls b 0 r c = offset ls b' 0 r' c')
      by (unfold offset, label_index in *; lia).
    unfold ls in E'. apply offset_contiguous_inj in E'; try lia.
    destruct E' as (-> & _ & -> & ->). reflexivity. }
  assert (Hoff : forall i i', 0 <= i < 3 -> 0 <= i' < 3 ->
                   offset cs b i r c <> offset cs b' i' r' c').
  { intros i i' Hi Hi' E. apply Hne.
    unfold cs in E. apply offset_contiguous_inj in E; try lia.
    destruct E as (-> & _ & -> & ->). reflexivity. }
  split.
  - unfold visit, visit_cell. cbv zeta. fold (label_index ls b' r' c').
    destruct (label1 (label_index ls b' r' c') =? 0).
    + cbn [visible1]. apply store_other. exact Hidx.
    + match goal with |- context [if ?g then out else _] => destruct g end; [reflexivity|].
      match goal with
      | |- context [match ?s with pair _ _ => _ end] => destruct s as [[d tr] tc]
      end.
      destruct (negb (tr =? -1) && negb (tc =? -1)); [|reflexivity].
      cbn [visible1]. apply store_other. exact Hidx.
  - unfold point_at. f_equal; apply visit_flows; intros i' Hi'; apply Hoff; lia.
Qed.

(** One pass over the image, at any cell. *)
Lemma pass_cell_outcome (b r c : Z) (out : FlowOut F) :
  0 <= b < B -> 0 <= r < R -> 0 <= c < C ->
  cell_outcome cloud1 cloud2 local1 local2 label1 label2 cs ls threshold R C b r c out
    (compute_visibility_and_flows cloud1 cloud2 local1 local2 label1 label2 poses2
       cs ls ps fx fy cx cy threshold winsize B R C out).
Proof.
  intros Hb Hr Hc. unfold compute_visibility_and_flows. fold visit.
  set (J := cell_outcome cloud1 cloud2 local1 local2 label1 label2 cs ls threshold
              R C b r c out).
  assert (J0 : J out) by (left; auto).
  assert (Hstep : forall b' r' c' t, 0 <= r' < R -> 0 <= c' < C -> J t -> J (visit b' r' c' t)).
  { intros b' r' c' t Hr' Hc' Ht.
    destruct (Z.eq_dec b' b) as [-> | Hnb];
      [destruct (Z.eq_dec r' r) as [-> | Hnr];
       [destruct (Z.eq_dec c' c) as [-> | Hnc]|]|].
    - pose proof (visit_own b r c t Hr Hc) as Hown.
      unfold J, cell_outcome in *. cbv zeta in *.
      destruct Hown as [[Ev Ef] | [(El & Ev & Ef) | (El & Ev & tr & tc & Ha & Ef)]].
      + rewrite Ev, Ef. exact Ht.
      + destruct Ht as [[Ev' Ef'] | [(El' & Ev' & Ef') | (El' & _)]].
        * right. left. rewrite Ef, Ef'. auto.
        * right. left. rewrite Ef, Ef'. auto.
        * contradiction.
      + right. right. split; [exact El|]. split; [exact Ev|]. exists tr, tc. auto.
    - destruct (visit_elsewhere b r c b r c' t Hr Hc Hr' Hc') as [Ev Ef]; [congruence|].
      unfold J, cell_outcome in *. cbv zeta in *. rewrite Ev, Ef. exact Ht.
    - destruct (visit_elsewhere b r c b r' c' t Hr Hc Hr' Hc') as [Ev Ef]; [congruence|].
      unfold J, cell_outcome in *. cbv zeta in *. rewrite Ev, Ef. exact Ht.
    - destruct (visit_elsewhere b r c b' r' c' t Hr Hc Hr' Hc') as [Ev Ef]; [congruence|].
      unfold J, cell_outcome in *. cbv zeta in *. rewrite Ev, Ef. exact Ht. }
  apply for_upto_kept; [exact J0|]. intros b' t Hb' Ht.
  apply for_upto_kept; [exact Ht|]. intros r' t' Hr' Ht'.
  apply for_upto_kept; [exact Ht'|]. intros c' t'' Hc' Ht''.
  apply Hstep; auto.
Qed.

End FlowCellProofs.

Lemma FlowOut_eta {F : Type} (o : FlowOut F) :
  mkFlowOut (visible1 o) (flows12 o) = o.
Proof. destruct o. reflexivity. Qed.

Section FlowRoutineProofs.
Context {F : Type} {ops : Scalar F} {fops : FloatOps F}.

(** On tensors in the canonical layout the routine works in place: it runs the
    local-coordinate loops and then the two passes on the zero-filled outputs. *)
Lemma flow_routine_runs
      (cloud_1 cloud_2 local_1 local_2 : Tensor F) (label_1 label_2 : Tensor Z)
      (poses_1 poses_2 poseinvs_1 poseinvs_2 fwdflows0 bwdflows0 : Tensor F)
      (fwdvisibility0 bwdvisibility0 : Tensor Z)
      (fx fy cx cy threshold winsize : F) (B R C : Z) :
  canonical cloud_1 B 3 R C -> canonical cloud_2 B 3 R C ->
  canonical label_1 B 1 R C -> canonical label_2 B 1 R C ->
  canonical fwdflows0 B 3 R C -> canonical bwdflows0 B 3 R C ->
  canonical fwdvisibility0 B 1 R C -> canonical bwdvisibility0 B 1 R C ->
  let loc := local_frames (data cloud_1) (data cloud_2) (data label_1) (data label_2)
               (data (newContiguous poseinvs_1)) (data (newContiguous poseinvs_2))
               (contiguous B 3 R C) (contiguous B 1 R C) (strides_of (newContiguous poses_1))
               B R C (data (newContiguous local_1), data (newContiguous local_2)) in
  exists res,
    ComputeFlowAndVisibility_Pts_float cloud_1 cloud_2 local_1 local_2 label_1 label_2
      poses_1 poses_2 poseinvs_1 poseinvs_2 fwdflows0 bwdflows0
      fwdvisibility0 bwdvisibility0 fx fy cx cy threshold winsize = Done res /\
    data (local_out_1 res) = fst loc /\ data (local_out_2 res) = snd loc /\
    mkFlowOut (data (fwdvisibility res)) (data (fwdflows res)) =
      forward_pass cloud_1 cloud_2 label_1 label_2 poses_1 poses_2 fwdflows0 fwdvisibility0
        fx fy cx cy threshold winsize loc /\
    mkFlowOut (data (bwdvisibility res)) (data (bwdflows res)) =
      backward_pass cloud_1 cloud_2 label_1 label_2 poses_1 bwdflows0 bwdvisibility0
        fx fy cx cy threshold winsize loc.
Proof.
  intros Hc1 Hc2 Hl1 Hl2 Hff Hbf Hfv Hbv loc.
  unfold ComputeFlowAndVisibility_Pts_float. cbv zeta.
  assert (Hsz : size cloud_1 = [B; 3; R; C]) by apply Hc1.
  unfold forward_pass, backward_pass.
  unfold size_at. rewrite Hsz. cbn [nth check_ndim Z.eqb Pos.eqb].
  rewrite (canonical_newContiguous cloud_1 B 3 R C Hc1).
  rewrite (canonical_newContiguous cloud_2 B 3 R C Hc2).
  rewrite (canonical_newContiguous label_1 B 1 R C Hl1).
  rewrite (canonical_newContiguous label_2 B 1 R C Hl2).
  rewrite (canonical_newContiguous fwdflows0 B 3 R C Hff).
  rewrite (canonical_newContiguous bwdflows0 B 3 R C Hbf).
  rewrite (canonical_newContiguous fwdvisibility0 B 1 R C Hfv).
  rewrite (canonical_newContiguous bwdvisibility0 B 1 R C Hbv).
  rewrite (canonical_strides cloud_1 B 3 R C Hc1).
  rewrite (canonical_strides label_1 B 1 R C Hl1).
  fold (local_frames (data cloud_1) (data cloud_2) (data label_1) (data label_2)
          (data (newContiguous poseinvs_1)) (data (newContiguous poseinvs_2))
          (contiguous B 3 R C) (contiguous B 1 R C) (strides_of (newContiguous poses_1))
          B R C (data (newContiguous local_1), data (newContiguous local_2))).
  fold loc. destruct loc as [local1 local2].
  eexists. split; [reflexivity|].
  cbn [local_out_1 local_out_2 fwdvisibility fwdflows bwdvisibility bwdflows data fst snd].
  repeat split; apply FlowOut_eta.
Qed.

(** What the routine has made of cell [(b, r, c)] in each direction, starting
    from visibility 0 and flow 0. *)
Lemma routine_cell_outcome
      (cloud_1 cloud_2 local_1 local_2 : Tensor F) (label_1 label_2 : Tensor Z)
      (poses_1 poses_2 poseinvs_1 poseinvs_2 fwdflows0 bwdflows0 : Tensor F)
      (fwdvisibility0 bwdvisibility0 : Tensor Z)
      (fx fy cx cy threshold winsize : F) (B R C b r c : Z) :
  canonical cloud_1 B 3 R C -> canonical cloud_2 B 3 R C ->
  canonical label_1 B 1 R C -> canonical label_2 B 1 R C ->
  canonical fwdflows0 B 3 R C -> canonical bwdflows0 B 3 R C ->
  canonical fwdvisibility0 B 1 R C -> canonical bwdvisibility0 B 1 R C ->
  0 <= b < B -> 0 <= r < R -> 0 <= c < C ->
  let cs := contiguous B 3 R C in
  let ls := contiguous B 1 R C in
  let zero := mkFlowOut (fun _ => 0) (fun _ => fzero) in
  exists res,
    ComputeFlowAndVisibility_Pts_float cloud_1 cloud_2 local_1 local_2 label_1 label_2
      poses_1 poses_2 poseinvs_1 poseinvs_2 fwdflows0 bwdflows0
      fwdvisibility0 bwdvisibility0 fx fy cx cy threshold winsize = Done res /\
    cell_outcome (data cloud_1) (data cloud_2) (data (local_out_1 res)) (data (local_out_2 res))
      (data label_1) (data label_2) cs ls threshold R C b r c
      zero (mkFlowOut (data (fwdvisibility res)) (data (fwdflows res))) /\
    cell_outcome (data cloud_2) (data cloud_1) (data (local_out_2 res)) (data (local_out_1 res))
      (data label_2) (data label_1) cs ls threshold R C b r c
      zero (mkFlowOut (data (bwdvisibility res)) (data (bwdflows res))).
Proof.
  intros Hc1 Hc2 Hl1 Hl2 Hff Hbf Hfv Hbv Hb Hr Hc cs ls zero.
  destruct (flow_routine_runs cloud_1 cloud_2 local_1 local_2 label_1 label_2
              poses_1 poses_2 poseinvs_1 poseinvs_2 fwdflows0 bwdflows0
              fwdvisibility0 bwdvisibility0 fx fy cx cy threshold winsize B R C
              Hc1 Hc2 Hl1 Hl2 Hff Hbf Hfv Hbv) as (res & Eres & E1 & E2 & Ef & Eb).
  exists res. split; [exact Eres|].
  rewrite Ef, Eb, E1, E2. unfold forward_pass, backward_pass.
  assert (Hsz : size cloud_1 = [B; 3; R; C]) by apply Hc1.
  unfold size_at. rewrite Hsz. cbn [nth].
  rewrite (canonical_strides cloud_1 B 3 R C Hc1).
  rewrite (canonical_strides label_1 B 1 R C Hl1).
  fold cs ls.
  assert (Hidx : label_index ls b r c = offset ls b 0 r c)
    by (unfold label_index, offset; lia).
  assert (Hzero : forall (fl : Tensor F) (vi : Tensor Z) after
                    cl1 cl2 lo1 lo2 la1 la2,
             canonical fl B 3 R C -> canonical vi B 1 R C ->
             cell_outcome cl1 cl2 lo1 lo2 la1 la2 cs ls threshold R C b r c
               (mkFlowOut (data (fill vi 0)) (data (fill fl fzero))) after ->
             cell_outcome cl1 cl2 lo1 lo2 la1 la2 cs ls threshold R C b r c zero after).
  { intros fl vi after cl1 cl2 lo1 lo2 la1 la2 Hfl Hvi.
    unfold cell_outcome. cbv zeta. cbn [visible1 flows12 zero].
    assert (Ev : data (fill vi 0) (label_index ls b r c) = 0).
    { rewrite Hidx. apply fill_spec.
      apply (canonical_offsets vi B 1 R C); auto; lia. }
    assert (Ef' : point_at (data (fill fl fzero)) cs b r c =
                  point_at (fun _ : Z => fzero) cs b r c).
    { unfold point_at. f_equal; apply fill_spec;
        apply (canonical_offsets fl B 3 R C); auto; lia. }
    rewrite Ev, Ef'. auto. }
  split.
  - apply (Hzero fwdflows0 fwdvisibility0); auto.
    apply pass_cell_outcome; auto.
  - apply (Hzero bwdflows0 bwdvisibility0); auto.
    apply pass_cell_outcome; auto.
Qed.

End FlowRoutineProofs.

(** X15.  In both directions every visibility entry the routine returns is 0
    or 1, and a cell whose visibility is 0 has zero flow. *)
Theorem invisible_cells_have_zero_flow
        {F : Type} {ops : Scalar F} {fops : FloatOps F}
        (cloud_1 cloud_2 local_1 local_2 : Tensor F) (label_1 label_2 : Tensor Z)
        (poses_1 poses_2 poseinvs_1 poseinvs_2 fwdflows0 bwdflows0 : Tensor F)
        (fwdvisibility0 bwdvisibility0 : Tensor Z)
        (fx fy cx cy threshold winsize : F) (B R C b r c : Z) :
  canonical cloud_1 B 3 R C -> canonical cloud_2 B 3 R C ->
  canonical label_1 B 1 R C -> canonical label_2 B 1 R C ->
  canonical fwdflows0 B 3 R C -> canonical bwdflows0 B 3 R C ->
  canonical fwdvisibility0 B 1 R C -> canonical bwdvisibility0 B 1 R C ->
  0 <= b < B -> 0 <= r < R -> 0 <= c < C ->
  let cs := contiguous B 3 R C in
  let idx := label_index (contiguous B 1 R C) b r c in
  exists res,
    ComputeFlowAndVisibility_Pts_float cloud_1 cloud_2 local_1 local_2 label_1 label_2
      poses_1 poses_2 poseinvs_1 poseinvs_2 fwdflows0 bwdflows0
      fwdvisibility0 bwdvisibility0 fx fy cx cy threshold winsize = Done res /\
    (data (fwdvisibility res) idx = 0 \/ data (fwdvisibility res) idx = 1) /\
    (data (bwdvisibility res) idx = 0 \/ data (bwdvisibility res) idx = 1) /\
    (data (fwdvisibility res) idx = 0 -> point_at (data (fwdflows res)) cs b r c = vzero) /\
    (data (bwdvisibility res) idx = 0 -> point_at (data (bwdflows res)) cs b r c = vzero).
Proof.
  intros Hc1 Hc2 Hl1 Hl2 Hff Hbf Hfv Hbv Hb Hr Hc cs idx.
  destruct (routine_cell_outcome cloud_1 cloud_2 local_1 local_2 label_1 label_2
              poses_1 poses_2 poseinvs_1 poseinvs_2 fwdflows0 bwdflows0
              fwdvisibility0 bwdvisibility0 fx fy cx cy threshold winsize B R C b r c)
    as (res & Eres & Hf & Hbw); auto.
  exists res. split; [exact Eres|].
  unfold cell_outcome in Hf, Hbw. cbv zeta in Hf, Hbw. cbn [visible1 flows12] in Hf, Hbw.
  fold idx cs in Hf, Hbw.
  assert (Hz : point_at (fun _ : Z => @fzero F ops) cs b r c = vzero) by reflexivity.
  repeat split.
  - destruct Hf as [[Ev _] | [(_ & Ev & _) | (_ & Ev & _)]]; auto.
  - destruct Hbw as [[Ev _] | [(_ & Ev & _) | (_ & Ev & _)]]; auto.
  - intros E0. destruct Hf as [[_ Ef] | [(_ & Ev & _) | (_ & Ev & _)]];
      [rewrite Ef; exact Hz | rewrite Ev in E0; discriminate..].
  - intros E0. destruct Hbw as [[_ Ef] | [(_ & Ev & _) | (_ & Ev & _)]];
      [rewrite Ef; exact Hz | rewrite Ev in E0; discriminate..].
Qed.

(** X16.  In both directions, a cell that is not background and is returned
    visible has been associated: there is a pixel of the image that carries the
    same label in the other frame and whose point, in link coordinates, is
    closer to the cell's than the threshold, and the flow of the cell is that
    pixel's point in the other frame minus the cell's own point.  Closer is
    what the code compares: the squared distance, formed in [double] and
    rounded once to [float], is below the rounded square of the threshold. *)
Theorem visible_flow_is_association
        {F : Type} {ops : Scalar F} {fops : FloatOps F}
        (cloud_1 cloud_2 local_1 local_2 : Tensor F) (label_1 label_2 : Tensor Z)
        (poses_1 poses_2 poseinvs_1 poseinvs_2 fwdflows0 bwdflows0 : Tensor F)
        (fwdvisibility0 bwdvisibility0 : Tensor Z)
        (fx fy cx cy threshold winsize : F) (B R C b r c : Z) :
  canonical cloud_1 B 3 R C -> canonical cloud_2 B 3 R C ->
  canonical label_1 B 1 R C -> canonical label_2 B 1 R C ->
  canonical fwdflows0 B 3 R C -> canonical bwdflows0 B 3 R C ->
  canonical fwdvisibility0 B 1 R C -> canonical bwdvisibility0 B 1 R C ->
  0 <= b < B -> 0 <= r < R -> 0 <= c < C ->
  let cs := contiguous B 3 R C in
  let ls := contiguous B 1 R C in
  let idx := label_index ls b r c in
  exists res,
    ComputeFlowAndVisibility_Pts_float cloud_1 cloud_2 local_1 local_2 label_1 label_2
      poses_1 poses_2 poseinvs_1 poseinvs_2 fwdflows0 bwdflows0
      fwdvisibility0 bwdvisibility0 fx fy cx cy threshold winsize = Done res /\
    (data label_1 idx <> 0 -> data (fwdvisibility res) idx = 1 ->
     exists tr tc,
       associated (data (local_out_1 res)) (data (local_out_2 res)) (data label_2) cs ls
         threshold R C b r c (data label_1 idx) tr tc /\
       point_at (data (fwdflows res)) cs b r c =
       flow_to (data cloud_1) (data cloud_2) cs b r c tr tc) /\
    (data label_2 idx <> 0 -> data (bwdvisibility res) idx = 1 ->
     exists tr tc,
       associated (data (local_out_2 res)) (data (local_out_1 res)) (data label_1) cs ls
         threshold R C b r c (data label_2 idx) tr tc /\
       point_at (data (bwdflows res)) cs b r c =
       flow_to (data cloud_2) (data cloud_1) cs b r c tr tc).
Proof.
  intros Hc1 Hc2 Hl1 Hl2 Hff Hbf Hfv Hbv Hb Hr Hc cs ls idx.
  destruct (routine_cell_outcome cloud_1 cloud_2 local_1 local_2 label_1 label_2
              poses_1 poses_2 poseinvs_1 poseinvs_2 fwdflows0 bwdflows0
              fwdvisibility0 bwdvisibility0 fx fy cx cy threshold winsize B R C b r c)
    as (res & Eres & Hf & Hbw); auto.
  exists res. split; [exact Eres|].
  unfold cell_outcome in Hf, Hbw. cbv zeta in Hf, Hbw. cbn [visible1 flows12] in Hf, Hbw.
  fold cs ls idx in Hf, Hbw.
  split.
  - intros Hl Hv. destruct Hf as [[Ev _] | [(El & _) | (_ & _ & Hm)]].
    + rewrite Ev in Hv. discriminate.
    + contradiction.
    + exact Hm.
  - intros Hl Hv. destruct Hbw as [[Ev _] | [(El & _) | (_ & _ & Hm)]].
    + rewrite Ev in Hv. discriminate.
    + contradiction.
    + exact Hm.
Qed.

Section LocalFrameProofs.
Context {F : Type} {ops : Scalar F}.
Variables (cloud_1 cloud_2 : buffer F) (label_1 label_2 : buffer Z).
Variables (poseinvs_1 poseinvs_2 : buffer F).
Variables (ls ps : Strides) (B R C : Z).

Let cs := contiguous B 3 R C.

Lemma to_local_cell (cloud : buffer F) (label : buffer Z) (poseinvs : buffer F)
      (b r c : Z) (loc : buffer F) :
  to_local cloud label poseinvs cs ls ps b r c loc =
  let t := local_point cloud label poseinvs cs ls ps b r c in
  store (store (store loc (offset cs b 0 r c) (vx t)) (offset cs b 1 r c) (vy t))
        (offset cs b 2 r c) (vz t).
Proof. reflexivity. Qed.

Lemma local_frames_cell (b r c i : Z) (loc : buffer F * buffer F) :
  0 <= b < B -> 0 <= r < R -> 0 <= c < C -> 0 <= i < 3 ->
  let res := local_frames cloud_1 cloud_2 label_1 label_2 poseinvs_1 poseinvs_2
               cs ls ps B R C loc in
  fst res (offset cs b i r c) = vget (local_point cloud_1 label_1 poseinvs_1 cs ls ps b r c) i /\
  snd res (offset cs b i r c) = vget (local_point cloud_2 label_2 poseinvs_2 cs ls ps b r c) i.
Proof.
  intros Hb Hr Hc Hi. cbv zeta. unfold local_frames.
  set (P := fun l : buffer F * buffer F =>
              fst l (offset cs b i r c) =
                vget (local_point cloud_1 label_1 poseinvs_1 cs ls ps b r c) i /\
              snd l (offset cs b i r c) =
                vget (local_point cloud_2 label_2 poseinvs_2 cs ls ps b r c) i).
  assert (Hown : forall t : buffer F * buffer F,
             P (to_local cloud_1 label_1 poseinvs_1 cs ls ps b r c (fst t),
                to_local cloud_2 label_2 poseinvs_2 cs ls ps b r c (snd t))).
  { intros t. unfold P. cbn [fst snd]. rewrite !to_local_cell. cbv zeta.
    split; apply (three_stores_hit B 3 R C b r c i); auto. }
  assert (Hother : forall b' r' c' (t : buffer F * buffer F),
             0 <= r' < R -> 0 <= c' < C -> (b', r', c') <> (b, r, c) -> P t ->
             P (to_local cloud_1 label_1 poseinvs_1 cs ls ps b' r' c' (fst t),
                to_local cloud_2 label_2 poseinvs_2 cs ls ps b' r' c' (snd t))).
  { intros b' r' c' t Hr' Hc' Hne [H1 H2]. unfold P. cbn [fst snd].
    rewrite !to_local_cell. cbv zeta.
    assert (Hoff : forall i', 0 <= i' < 3 -> offset cs b i r c <> offset cs b' i' r' c').
    { intros i' Hi' E. apply Hne. unfold cs in E.
      apply offset_contiguous_inj in E; try lia.
      destruct E as (-> & _ & -> & ->). reflexivity. }
    rewrite !three_stores_miss by exact Hoff. auto. }
  assert (Hstep : forall b' r' c' (t : buffer F * buffer F),
             0 <= r' < R -> 0 <= c' < C -> P t ->
             P (to_local cloud_1 label_1 poseinvs_1 cs ls ps b' r' c' (fst t),
                to_local cloud_2 label_2 poseinvs_2 cs ls ps b' r' c' (snd t))).
  { intros b' r' c' t Hr' Hc' Ht.
    destruct (Z.eq_dec b' b) as [-> | Hnb];
      [destruct (Z.eq_dec r' r) as [-> | Hnr];
       [destruct (Z.eq_dec c' c) as [-> | Hnc]|]|];
      [apply Hown | apply Hother; auto; congruence..]. }
  apply (for_upto_established P b); [exact Hb | |].
  - intros t. apply (for_upto_established P r); [exact Hr | |].
    + intros t'. apply (for_upto_established P c); [exact Hc | exact Hown |].
      intros c' t'' Hc' Ht''. apply Hstep; auto.
    + intros r' t' Hr' Ht'. apply for_upto_kept; [exact Ht'|].
      intros c' t'' Hc' Ht''. apply Hstep; auto.
  - intros b' t Hb' Ht. apply for_upto_kept; [exact Ht|].
    intros r' t' Hr' Ht'. apply for_upto_kept; [exact Ht'|].
    intros c' t'' Hc' Ht''. apply Hstep; auto.
Qed.

End LocalFrameProofs.

(** X17.  The local coordinates the routine computes for a cell of either
    frame are the image of the cell's point under the inverse pose of the link
    its label names, [R p + t] in the order the code evaluates it. *)
Theorem local_coordinates
        {F : Type} {ops : Scalar F} {fops : FloatOps F}
        (cloud_1 cloud_2 local_1 local_2 : Tensor F) (label_1 label_2 : Tensor Z)
        (poses_1 poses_2 poseinvs_1 poseinvs_2 fwdflows0 bwdflows0 : Tensor F)
        (fwdvisibility0 bwdvisibility0 : Tensor Z)
        (fx fy cx cy threshold winsize : F) (B R C K b r c : Z) :
  canonical cloud_1 B 3 R C -> canonical cloud_2 B 3 R C ->
  canonical label_1 B 1 R C -> canonical label_2 B 1 R C ->
  canonical fwdflows0 B 3 R C -> canonical bwdflows0 B 3 R C ->
  canonical fwdvisibility0 B 1 R C -> canonical bwdvisibility0 B 1 R C ->
  canonical poses_1 B K 3 4 ->
  canonical poseinvs_1 B K 3 4 -> canonical poseinvs_2 B K 3 4 ->
  0 <= b < B -> 0 <= r < R -> 0 <= c < C ->
  let cs := contiguous B 3 R C in
  let idx := label_index (contiguous B 1 R C) b r c in
  0 <= data label_1 idx < K -> 0 <= data label_2 idx < K ->
  exists res,
    ComputeFlowAndVisibility_Pts_float cloud_1 cloud_2 local_1 local_2 label_1 label_2
      poses_1 poses_2 poseinvs_1 poseinvs_2 fwdflows0 bwdflows0
      fwdvisibility0 bwdvisibility0 fx fy cx cy threshold winsize = Done res /\
    (let T := tfm_at (data poseinvs_1) K b (data label_1 idx) in
     point_at (data (local_out_1 res)) cs b r c =
     vadd (rotate T (point_at (data cloud_1) cs b r c)) (translate T)) /\
    (let T := tfm_at (data poseinvs_2) K b (data label_2 idx) in
     point_at (data (local_out_2 res)) cs b r c =
     vadd (rotate T (point_at (data cloud_2) cs b r c)) (translate T)).
Proof.
  intros Hc1 Hc2 Hl1 Hl2 Hff Hbf Hfv Hbv Hp1 Hi1 Hi2 Hb Hr Hc cs idx _ _.
  destruct (flow_routine_runs cloud_1 cloud_2 local_1 local_2 label_1 label_2
              poses_1 poses_2 poseinvs_1 poseinvs_2 fwdflows0 bwdflows0
              fwdvisibility0 bwdvisibility0 fx fy cx cy threshold winsize B R C
              Hc1 Hc2 Hl1 Hl2 Hff Hbf Hfv Hbv) as (res & Eres & E1 & E2 & _).
  exists res. split; [exact Eres|].
  rewrite E1, E2.
  rewrite (canonical_newContiguous poses_1 B K 3 4 Hp1).
  rewrite (canonical_newContiguous poseinvs_1 B K 3 4 Hi1).
  rewrite (canonical_newContiguous poseinvs_2 B K 3 4 Hi2).
  rewrite (canonical_strides poses_1 B K 3 4 Hp1).
  fold cs.
  assert (Hframe : forall (cloud : buffer F) (label : buffer Z) (pinv : buffer F),
             local_point cloud label pinv cs (contiguous B 1 R C) (contiguous B K 3 4) b r c =
             vadd (rotate (tfm_at pinv K b (label idx)) (point_at cloud cs b r c))
                  (translate (tfm_at pinv K b (label idx)))).
  { intros cloud label pinv. unfold local_point. cbv zeta. fold idx.
    unfold vadd, rotate, translate, tfm_at, contiguous. cbn [vx vy vz st0 st1].
    repeat match goal with
           | |- context [pinv (?a)] =>
               lazymatch a with
               | b * (K * 12) + _ => fail
               | b * (K * 3 * 4) + label idx * (3 * 4) + ?i =>
                   replace a with (b * (K * 12) + label idx * 12 + i) by lia
               end
           end.
    reflexivity. }
  cbv zeta.
  split.
  - rewrite <- Hframe. unfold point_at at 1.
    destruct (local_point (data cloud_1) (data label_1) (data poseinvs_1) cs
                (contiguous B 1 R C) (contiguous B K 3 4) b r c) as [x y z] eqn:E.
    f_equal.
    + change x with (vget (mkV3 x y z) 0). rewrite <- E. apply local_frames_cell; auto; lia.
    + change y with (vget (mkV3 x y z) 1). rewrite <- E. apply local_frames_cell; auto; lia.
    + change z with (vget (mkV3 x y z) 2). rewrite <- E. apply local_frames_cell; auto; lia.
  - rewrite <- Hframe. unfold point_at at 1.
    destruct (local_point (data cloud_2) (data label_2) (data poseinvs_2) cs
                (contiguous B 1 R C) (contiguous B K 3 4) b r c) as [x y z] eqn:E.
    f_equal.
    + change x with (vget (mkV3 x y z) 0). rewrite <- E. apply local_frames_cell; auto; lia.
    + change y with (vget (mkV3 x y z) 1). rewrite <- E. apply local_frames_cell; auto; lia.
    + change z with (vget (mkV3 x y z) 2). rewrite <- E. apply local_frames_cell; auto; lia.
Qed.

(** On the scene the cell is associated with itself in the forward direction,
    with flow (1, 0, 0); in the backward direction its projection falls outside
    the image and it stays invisible with zero flow. *)
Lemma scene_run_result :
  match scene_run with
  | Done res =>
      data (fwdvisibility res) 0 = 1 /\
      point_at (data (fwdflows res)) (contiguous 1 3 1 1) 0 0 0 = mkV3 fone fzero fzero /\
      data (bwdvisibility res) 0 = 0 /\
      point_at (data (bwdflows res)) (contiguous 1 3 1 1) 0 0 0 = vzero
  | Fatal _ => False
  end.
Proof. vm_compute. repeat split. Qed.

Lemma invisible_cells_have_zero_flow_witness :
  let cs := contiguous 1 3 1 1 in
  let idx := label_index (contiguous 1 1 1 1) 0 0 0 in
  exists res,
    scene_run = Done res /\
    (data (fwdvisibility res) idx = 0 \/ data (fwdvisibility res) idx = 1) /\
    (data (bwdvisibility res) idx = 0 \/ data (bwdvisibility res) idx = 1) /\
    (data (fwdvisibility res) idx = 0 -> point_at (data (fwdflows res)) cs 0 0 0 = vzero) /\
    (data (bwdvisibility res) idx = 0 -> point_at (data (bwdflows res)) cs 0 0 0 = vzero).
Proof.
  apply (invisible_cells_have_zero_flow (scene_cloud fzero) (scene_cloud fone)
           (unit_points (fun _ => fone)) (unit_points (fun _ => fone)) scene_labels scene_labels
           scene_poses scene_poses scene_poses scene_poses
           (unit_points (fun _ => fone)) (unit_points (fun _ => fone))
           (unit_labels (fun _ => 7)) (unit_labels (fun _ => 7))
           fone fone fzero fzero ftwo fone 1 1 1 0 0 0);
    try lia; split; reflexivity.
Defined.

(** On the close scene the routine associates the cell with itself in both
    directions.  The squared distance it compares is one unit in the last
    place below the square of the threshold; summed with a rounding after every
    operation it would be that square itself. *)
Lemma close_run_result :
  let cs := contiguous 1 3 1 1 in
  let p := point_at (data close_cloud_1) cs 0 0 0 in
  let q := point_at (data close_cloud_2) cs 0 0 0 in
  let d := vsub p q in
  sqdist p q = S754_finite false 15049916 (-23) /\
  fsquare close_threshold = S754_finite false 15049917 (-23) /\
  fadd (fadd (fmul (vx d) (vx d)) (fmul (vy d) (vy d))) (fmul (vz d) (vz d)) =
    S754_finite false 15049917 (-23) /\
  match close_run with
  | Done res =>
      data (fwdvisibility res) 0 = 1 /\
      point_at (data (fwdflows res)) cs 0 0 0 =
        mkV3 (S754_finite true 12592000 (-30)) (S754_finite false 10736734 (-23))
             (S754_finite true 13242788 (-25)) /\
      data (bwdvisibility res) 0 = 1 /\
      point_at (data (bwdflows res)) cs 0 0 0 =
        mkV3 (S754_finite false 12592000 (-30)) (S754_finite true 10736734 (-23))
             (S754_finite false 13242788 (-25))
  | Fatal _ => False
  end.
Proof. vm_compute. repeat split. Qed.

Lemma visible_flow_is_association_witness :
  let cs := contiguous 1 3 1 1 in
  let ls := contiguous 1 1 1 1 in
  let idx := label_index ls 0 0 0 in
  exists res,
    close_run = Done res /\
    (data scene_labels idx <> 0 -> data (fwdvisibility res) idx = 1 ->
     exists tr tc,
       associated (data (local_out_1 res)) (data (local_out_2 res)) (data scene_labels) cs ls
         close_threshold 1 1 0 0 0 (data scene_labels idx) tr tc /\
       point_at (data (fwdflows res)) cs 0 0 0 =
       flow_to (data close_cloud_1) (data close_cloud_2) cs 0 0 0 tr tc) /\
    (data scene_labels idx <> 0 -> data (bwdvisibility res) idx = 1 ->
     exists tr tc,
       associated (data (local_out_2 res)) (data (local_out_1 res)) (data scene_labels) cs ls
         close_threshold 1 1 0 0 0 (data scene_labels idx) tr tc /\
       point_at (data (bwdflows res)) cs 0 0 0 =
       flow_to (data close_cloud_2) (data close_cloud_1) cs 0 0 0 tr tc).
Proof.
  apply (visible_flow_is_association close_cloud_1 close_cloud_2
           (unit_points (fun _ => fone)) (unit_points (fun _ => fone)) scene_labels scene_labels
           scene_poses scene_poses scene_poses scene_poses
           (unit_points (fun _ => fone)) (unit_points (fun _ => fone))
           (unit_labels (fun _ => 7)) (unit_labels (fun _ => 7))
           fzero fzero fzero fzero close_threshold fone 1 1 1 0 0 0);
    try lia; split; reflexivity.
Defined.

Lemma local_coordinates_witness :
  let cs := contiguous 1 3 1 1 in
  let idx := label_index (contiguous 1 1 1 1) 0 0 0 in
  exists res,
    scene_run = Done res /\
    (let T := tfm_at (data scene_poses) 2 0 (data scene_labels idx) in
     point_at (data (local_out_1 res)) cs 0 0 0 =
     vadd (rotate T (point_at (data (scene_cloud fzero)) cs 0 0 0)) (translate T)) /\
    (let T := tfm_at (data scene_poses) 2 0 (data scene_labels idx) in
     point_at (data (local_out_2 res)) cs 0 0 0 =
     vadd (rotate T (point_at (data (scene_cloud fone)) cs 0 0 0)) (translate T)).
Proof.
  apply (local_coordinates (scene_cloud fzero) (scene_cloud fone)
           (unit_points (fun _ => fone)) (unit_points (fun _ => fone)) scene_labels scene_labels
           scene_poses scene_poses scene_poses scene_poses
           (unit_points (fun _ => fone)) (unit_points (fun _ => fone))
           (unit_labels (fun _ => 7)) (unit_labels (fun _ => 7))
           fone fone fzero fzero ftwo fone 1 1 1 2 0 0 0);
    try lia; try (split; reflexivity); cbn; lia.
Defined.

(** ** The match of the window search *)

(** The comparison of binary32 is a strict order. *)
Lemma SFltb_irrefl (x : spec_float) : SFltb x x = false.
Proof.
  destruct x as [s | s | | s m e]; try destruct s; try reflexivity;
    unfold SFltb, SFcompare; rewrite Z.compare_refl;
    change (PosDef.Pos.compare_cont Eq m m) with (Pos.compare m m);
    rewrite Pos.compare_refl; reflexivity.
Qed.

Lemma SFltb_finite (s1 s2 : bool) (m1 m2 : positive) (e1 e2 : Z) :
  SFltb (S754_finite s1 m1 e1) (S754_finite s2 m2 e2) = true <->
  (s1 = true /\ s2 = false) \/
  (s1 = false /\ s2 = false /\ (e1 < e2 \/ (e1 = e2 /\ (m1 < m2)%positive)))%Z \/
  (s1 = true /\ s2 = true /\ (e2 < e1 \/ (e1 = e2 /\ (m2 < m1)%positive)))%Z.
Proof.
  unfold SFltb, SFcompare.
  change (PosDef.Pos.compare_cont Eq m1 m2) with (Pos.compare m1 m2).
  destruct s1, s2; destruct (Z.compare_spec e1 e2); destruct (Pos.compare_spec m1 m2);
    cbn; split; intros Hlt; try discriminate; try reflexivity;
    try (right; right; repeat split; lia); try (right; left; repeat split; lia);
    try (left; split; reflexivity);
    exfalso; destruct Hlt as [[? ?] | [(? & ? & ?) | (? & ? & ?)]]; try discriminate; lia.
Qed.

Lemma SFltb_trans (x y z : spec_float) :
  SFltb x y = true -> SFltb y z = true -> SFltb x z = true.
Proof.
  destruct x as [sx | sx | | sx mx ex], y as [sy | sy | | sy my ey],
           z as [sz | sz | | sz mz ez];
    try (destruct sx); try (destruct sy); try (destruct sz);
    try (cbn; intros; first [reflexivity | discriminate]).
  all: rewrite !SFltb_finite; intros H1 H2.
  all: destruct H1 as [[? ?] | [(? & ? & ?) | (? & ? & ?)]]; try discriminate.
  all: destruct H2 as [[? ?] | [(? & ? & ?) | (? & ? & ?)]]; try discriminate.
  all: try (left; split; reflexivity).
  all: try (right; left; repeat split; lia).
  all: try (right; right; repeat split; lia).
Qed.

Lemma binary32_strict_order : strict_order (F := binary32) flt.
Proof. split; [exact SFltb_irrefl | exact SFltb_trans]. Qed.

(** A window loop runs over a prefix of its indices: up to the first index at
    which the test fails, or to its end.  Its body only meets indices at which
    the test has held all along. *)
Lemma window_loop_from {S : Type} (P : Z -> S -> Prop) (test : Z -> bool)
      (body : Z -> S -> S) (lo hi : Z) (fuel : nat) (t : Z) (s : S) :
  lo <= t -> t + Z.of_nat fuel = hi ->
  (forall v, lo <= v < t -> test v = true) ->
  (forall u x, lo <= u < hi -> (forall v, lo <= v <= u -> test v = true) ->
               P u x -> P (u + 1) (body u x)) ->
  P t s ->
  exists e,
    t <= e <= hi /\
    (forall u, lo <= u < e -> test u = true) /\
    (e = hi \/ test e = false) /\
    P e (window_loop fuel t test body s).
Proof.
  intros Hlo Hhi Hpre Hstep. revert t s Hlo Hhi Hpre.
  induction fuel as [|fuel IH]; intros t s Hlo Hhi Hpre H0.
  - exists t. cbn [window_loop]. repeat split; try lia; auto.
  - cbn [window_loop]. destruct (test t) eqn:Et.
    + assert (Hpre' : forall v, lo <= v < t + 1 -> test v = true).
      { intros v Hv. destruct (Z.eq_dec v t) as [-> | Hne]; [exact Et | apply Hpre; lia]. }
      destruct (IH (t + 1) (body t s)) as (e & He & Hall & Hend & HP);
        [lia | lia | exact Hpre' | |].
      * apply Hstep; [lia | | exact H0]. intros v Hv. apply Hpre'. lia.
      * exists e. split; [lia|]. split; [exact Hall|]. split; [exact Hend | exact HP].
    + exists t. repeat split; try lia; auto.
Qed.

Lemma window_loop_reached {S : Type} (P : Z -> S -> Prop) (test : Z -> bool)
      (body : Z -> S -> S) (lo limit : Z) (s : S) :
  (forall u x, lo <= u < limit -> (forall v, lo <= v <= u -> test v = true) ->
               P u x -> P (u + 1) (body u x)) ->
  P lo s ->
  exists e,
    lo <= e /\
    (forall u, lo <= u < limit -> (forall v, lo <= v <= u -> test v = true) -> u < e) /\
    P e (for_window lo limit test body s).
Proof.
  intros Hstep H0. unfold for_window.
  destruct (window_loop_from P test body lo (lo + Z.of_nat (Z.to_nat (limit - lo)))
              (Z.to_nat (limit - lo)) lo s) as (e & He & Hall & Hend & HP);
    [lia | reflexivity | intros; lia | | exact H0 |].
  - intros u x Hu. apply Hstep. lia.
  - exists e. split; [lia|]. split; [|exact HP].
    intros u Hu Ht. destruct (Z_lt_ge_dec u e) as [Hlt | Hge]; [exact Hlt | exfalso].
    destruct Hend as [-> | Hf]; [lia|].
    rewrite Ht in Hf; [discriminate | lia].
Qed.

Section NearestProofs.
Context {F : Type} {ops : Scalar F} {fops : FloatOps F}.
Hypothesis Horder : strict_order flt.
Variables (local1 local2 : buffer F) (label2 : buffer Z).
Variables (cs ls : Strides) (threshold winsize : F).
Variables (R C b r c mi lo_r lo_c : Z).

Let dist (tr tc : Z) : F := sqdist (point_at local1 cs b r c) (point_at local2 cs b tr tc).

Let eligible (tr tc : Z) : Prop :=
  0 <= tr < R /\ 0 <= tc < C /\ label2 (label_index ls b tr tc) = mi /\
  flt (dist tr tc) (fsquare threshold) = true.

(** What the search holds after the rows below [tr_e] and the columns below
    [tc_e] of row [tr_e]. *)
Let searched (tr_e tc_e : Z) (best : F * Z * Z) : Prop :=
  ((snd (fst best) = -1 /\ snd best = -1 /\ fst (fst best) = HUGE_VALF) \/
   (eligible (snd (fst best)) (snd best) /\
    fst (fst best) = dist (snd (fst best)) (snd best))) /\
  forall tr tc, eligible tr tc ->
    (lo_r <= tr < tr_e /\ in_window lo_c C winsize tc) \/ (tr = tr_e /\ lo_c <= tc < tc_e) ->
    flt (dist tr tc) (fst (fst best)) = false.

Lemma compare_target_searched (tr tc : Z) (best : F * Z * Z) :
  searched tr tc best ->
  searched tr (tc + 1)
    (compare_target local2 label2 cs ls R C b mi
       (local1 (offset cs b 0 r c)) (local1 (offset cs b 1 r c)) (local1 (offset cs b 2 r c))
       (fsquare threshold) tr tc best).
Proof.
  destruct Horder as [Hirr Htrans].
  intros [Hshape Hmin]. destruct best as [[d mr] mc]. cbn [fst snd] in *.
  assert (Hold : forall tr' tc', eligible tr' tc' ->
            (lo_r <= tr' < tr /\ in_window lo_c C winsize tc') \/
            (tr' = tr /\ lo_c <= tc' < tc + 1) ->
            (tr', tc') <> (tr, tc) -> flt (dist tr' tc') d = false).
  { intros tr' tc' He Hv Hne. apply Hmin; [exact He|].
    destruct Hv as [Hv | [-> Hv]]; [left; exact Hv | right].
    split; [reflexivity|]. assert (tc' <> tc) by congruence. lia. }
  unfold compare_target.
  destruct ((tr <? 0) || (R <=? tr) || (tc <? 0) || (C <=? tc)) eqn:Elim.
  { split; [exact Hshape|]. cbn [fst snd]. intros tr' tc' He Hv.
    destruct (Z.eq_dec tr' tr) as [-> | Hnr]; [destruct (Z.eq_dec tc' tc) as [-> | Hnc]|].
    - exfalso. destruct He as (H1 & H2 & _).
      apply orb_true_iff in Elim. destruct Elim as [Elim | E4].
      + apply orb_true_iff in Elim. destruct Elim as [Elim | E3].
        * apply orb_true_iff in Elim. destruct Elim as [E1 | E2].
          -- apply Z.ltb_lt in E1. lia.
          -- apply Z.leb_le in E2. lia.
        * apply Z.ltb_lt in E3. lia.
      + apply Z.leb_le in E4. lia.
    - apply Hold; auto. congruence.
    - apply Hold; auto. congruence. }
  destruct (label2 (b * st0 ls + tr * st2 ls + tc * st3 ls) =? mi) eqn:El; cbn [negb].
  2: { split; [exact Hshape|]. cbn [fst snd]. intros tr' tc' He Hv.
       destruct (Z.eq_dec tr' tr) as [-> | Hnr]; [destruct (Z.eq_dec tc' tc) as [-> | Hnc]|].
       - exfalso. destruct He as (_ & _ & H3 & _). apply Z.eqb_neq in El.
         apply El. exact H3.
       - apply Hold; auto. congruence.
       - apply Hold; auto. congruence. }
  apply Z.eqb_eq in El.
  apply orb_false_elim in Elim. destruct Elim as [Elim E4].
  apply orb_false_elim in Elim. destruct Elim as [Elim E3].
  apply orb_false_elim in Elim. destruct Elim as [E1 E2].
  apply Z.ltb_ge in E1, E3. apply Z.leb_gt in E2, E4.
  change (to_float
            (dadd (dadd (dsquare (fsub (local1 (offset cs b 0 r c)) (local2 (0 * st1 cs + _))))
                        (dsquare (fsub (local1 (offset cs b 1 r c)) (local2 (1 * st1 cs + _)))))
                  (dsquare (fsub (local1 (offset cs b 2 r c)) (local2 (2 * st1 cs + _))))))
    with (dist tr tc).
  destruct (flt (dist tr tc) d) eqn:Ed; cbn [andb].
  - destruct (flt (dist tr tc) (fsquare threshold)) eqn:Et.
    + (* the target becomes the best match *)
      split; cbn [fst snd].
      * right. split; [|reflexivity]. unfold eligible. repeat split; auto; lia.
      * intros tr' tc' He Hv.
        destruct (Z.eq_dec tr' tr) as [-> | Hnr]; [destruct (Z.eq_dec tc' tc) as [-> | Hnc]|].
        -- apply Hirr.
        -- destruct (flt (dist tr tc') (dist tr tc)) eqn:E; [|reflexivity].
           pose proof (Htrans _ _ _ E Ed) as X.
           rewrite (Hold tr tc' He Hv) in X; [discriminate | congruence].
        -- destruct (flt (dist tr' tc') (dist tr tc)) eqn:E; [|reflexivity].
           pose proof (Htrans _ _ _ E Ed) as X.
           rewrite (Hold tr' tc' He Hv) in X; [discriminate | congruence].
    + split; [exact Hshape|]. cbn [fst snd]. intros tr' tc' He Hv.
      destruct (Z.eq_dec tr' tr) as [-> | Hnr]; [destruct (Z.eq_dec tc' tc) as [-> | Hnc]|].
      * destruct He as (_ & _ & _ & H4). unfold dist in Et. fold (dist tr tc) in H4.
        unfold dist in H4. rewrite H4 in Et. discriminate.
      * apply Hold; auto. congruence.
      * apply Hold; auto. congruence.
  - split; [exact Hshape|]. cbn [fst snd]. intros tr' tc' He Hv.
    destruct (Z.eq_dec tr' tr) as [-> | Hnr]; [destruct (Z.eq_dec tc' tc) as [-> | Hnc]|].
    * exact Ed.
    * apply Hold; auto. congruence.
    * apply Hold; auto. congruence.
Qed.

Lemma search_window_searched (wh rpix cpix : Z) :
  lo_r = rpix - wh -> lo_c = cpix - wh ->
  let best :=
    search_window local2 label2 cs ls winsize R C b mi
      (local1 (offset cs b 0 r c)) (local1 (offset cs b 1 r c)) (local1 (offset cs b 2 r c))
      (fsquare threshold) wh rpix cpix in
  ((snd (fst best) = -1 /\ snd best = -1 /\ fst (fst best) = HUGE_VALF) \/
   (eligible (snd (fst best)) (snd best) /\
    fst (fst best) = dist (snd (fst best)) (snd best))) /\
  forall tr tc, eligible tr tc ->
    in_window lo_r R winsize tr -> in_window lo_c C winsize tc ->
    flt (dist tr tc) (fst (fst best)) = false.
Proof.
  intros Er Ec. cbv zeta. unfold search_window. rewrite <- Er, <- Ec.
  match goal with
  | |- context [for_window lo_r R ?test ?body ?s0] =>
      destruct (window_loop_reached (fun e best => searched e lo_c best) test body lo_r R s0)
        as (e & He & Hend & [Hshape Hmin])
  end.
  - intros u x _ _ Hx.
    match goal with
    | |- context [for_window lo_c C ?test ?body x] =>
        destruct (window_loop_reached (fun e best => searched u e best) test body lo_c C x)
          as (e & He & Hend & [Hshape Hmin])
    end.
    + intros v y _ _ Hy. apply compare_target_searched. exact Hy.
    + exact Hx.
    + split; [exact Hshape|]. intros tr tc Hel Hv. apply Hmin; [exact Hel|].
      destruct Hv as [[Hr Hw] | [-> Hc]]; [| lia].
      destruct (Z.eq_dec tr u) as [-> | Hne]; [right | left; split; [lia | exact Hw]].
      split; [reflexivity|]. destruct Hw as [Hb Ht].
      split; [lia|]. apply Hend; [exact Hb | exact Ht].
  - split; [left; auto|]. intros tr tc _ [[Hr _] | [_ Hc]]; lia.
  - split; [exact Hshape|]. intros tr tc Hel [Hb Ht] Hw. apply Hmin; [exact Hel|].
    left. split; [|exact Hw]. split; [lia|]. apply Hend; [exact Hb | exact Ht].
Qed.

End NearestProofs.

Lemma binary32_huge_on_top : huge_on_top (F := binary32).
Proof.
  intros x y H. destruct x as [s | s | | s m e]; try destruct s; try reflexivity.
  - destruct y as [sy | sy | | sy my ey]; try destruct sy; discriminate.
  - destruct y as [sy | sy | | sy my ey]; try destruct sy; discriminate.
Qed.

Section FoundProofs.
Context {F : Type} {ops : Scalar F} {fops : FloatOps F}.
Hypothesis Hhuge : huge_on_top (F := F).
Variables (local1 local2 : buffer F) (label2 : buffer Z).
Variables (cs ls : Strides) (threshold winsize : F).
Variables (R C b r c mi lo_r lo_c : Z).

Let dist (tr tc : Z) : F := sqdist (point_at local1 cs b r c) (point_at local2 cs b tr tc).

Let eligible (tr tc : Z) : Prop :=
  0 <= tr < R /\ 0 <= tc < C /\ label2 (label_index ls b tr tc) = mi /\
  flt (dist tr tc) (fsquare threshold) = true.

(** What the search holds after the rows below [tr_e] and the columns below
    [tc_e] of row [tr_e]: no match, and none was there to find; or a match
    inside the window. *)
Let sought (tr_e tc_e : Z) (best : F * Z * Z) : Prop :=
  (snd (fst best) = -1 /\ snd best = -1 /\ fst (fst best) = HUGE_VALF /\
   forall tr tc, eligible tr tc ->
     (lo_r <= tr < tr_e /\ in_window lo_c C winsize tc) \/ (tr = tr_e /\ lo_c <= tc < tc_e) ->
     False) \/
  (eligible (snd (fst best)) (snd best) /\
   in_window lo_r R winsize (snd (fst best)) /\ in_window lo_c C winsize (snd best)).

Lemma compare_target_sought (tr tc : Z) (best : F * Z * Z) :
  in_window lo_r R winsize tr -> in_window lo_c C winsize tc ->
  sought tr tc best ->
  sought tr (tc + 1)
    (compare_target local2 label2 cs ls R C b mi
       (local1 (offset cs b 0 r c)) (local1 (offset cs b 1 r c)) (local1 (offset cs b 2 r c))
       (fsquare threshold) tr tc best).
Proof.
  intros Hwr Hwc Hs. destruct best as [[d mr] mc].
  assert (Hkeep : ~ eligible tr tc -> sought tr (tc + 1) (d, mr, mc)).
  { intros Hne. destruct Hs as [(H1 & H2 & H3 & Hnone) | Hf]; [left | right; exact Hf].
    repeat split; auto. intros tr' tc' He Hv.
    destruct Hv as [Hv | [-> Hv]]; [apply (Hnone tr' tc' He); left; exact Hv|].
    destruct (Z.eq_dec tc' tc) as [-> | Hnc]; [exact (Hne He)|].
    apply (Hnone tr tc' He). right. split; [reflexivity | lia]. }
  unfold compare_target.
  destruct ((tr <? 0) || (R <=? tr) || (tc <? 0) || (C <=? tc)) eqn:Elim.
  { apply Hkeep. intros (H1 & H2 & _).
    apply orb_true_iff in Elim. destruct Elim as [Elim | E4].
    - apply orb_true_iff in Elim. destruct Elim as [Elim | E3].
      + apply orb_true_iff in Elim. destruct Elim as [E1 | E2].
        * apply Z.ltb_lt in E1. lia.
        * apply Z.leb_le in E2. lia.
      + apply Z.ltb_lt in E3. lia.
    - apply Z.leb_le in E4. lia. }
  destruct (label2 (b * st0 ls + tr * st2 ls + tc * st3 ls) =? mi) eqn:El; cbn [negb].
  2: { apply Hkeep. intros (_ & _ & H3 & _). apply Z.eqb_neq in El. apply El. exact H3. }
  apply Z.eqb_eq in El.
  apply orb_false_elim in Elim. destruct Elim as [Elim E4].
  apply orb_false_elim in Elim. destruct Elim as [Elim E3].
  apply orb_false_elim in Elim. destruct Elim as [E1 E2].
  apply Z.ltb_ge in E1, E3. apply Z.leb_gt in E2, E4.
  change (to_float
            (dadd (dadd (dsquare (fsub (local1 (offset cs b 0 r c)) (local2 (0 * st1 cs + _))))
                        (dsquare (fsub (local1 (offset cs b 1 r c)) (local2 (1 * st1 cs + _)))))
                  (dsquare (fsub (local1 (offset cs b 2 r c)) (local2 (2 * st1 cs + _))))))
    with (dist tr tc).
  destruct (flt (dist tr tc) (fsquare threshold)) eqn:Et.
  2: { rewrite andb_false_r. apply Hkeep. intros (_ & _ & _ & H4).
       rewrite H4 in Et. discriminate. }
  rewrite andb_true_r.
  assert (Hel : eligible tr tc) by (unfold eligible; repeat split; auto; lia).
  destruct (flt (dist tr tc) d) eqn:Ed.
  - right. cbn [fst snd]. auto.
  - destruct Hs as [(H1 & H2 & H3 & Hnone) | Hf]; [exfalso | right; exact Hf].
    cbn [fst snd] in H3. subst d. rewrite (Hhuge _ _ Et) in Ed. discriminate.
Qed.

Lemma search_window_sought (wh rpix cpix : Z) :
  lo_r = rpix - wh -> lo_c = cpix - wh ->
  let best :=
    search_window local2 label2 cs ls winsize R C b mi
      (local1 (offset cs b 0 r c)) (local1 (offset cs b 1 r c)) (local1 (offset cs b 2 r c))
      (fsquare threshold) wh rpix cpix in
  (snd (fst best) = -1 /\ snd best = -1 /\
   forall tr tc, in_window lo_r R winsize tr -> in_window lo_c C winsize tc ->
                 ~ eligible tr tc) \/
  (eligible (snd (fst best)) (snd best) /\
   in_window lo_r R winsize (snd (fst best)) /\ in_window lo_c C winsize (snd best)).
Proof.
  intros Er Ec. cbv zeta. unfold search_window. rewrite <- Er, <- Ec.
  match goal with
  | |- context [for_window lo_r R ?test ?body ?s0] =>
      destruct (window_loop_reached (fun e best => sought e lo_c best) test body lo_r R s0)
        as (e & He & Hend & Hs)
  end.
  - intros u x Hu Htu Hx.
    match goal with
    | |- context [for_window lo_c C ?test ?body x] =>
        destruct (window_loop_reached (fun e best => sought u e best) test body lo_c C x)
          as (e & He & Hend & Hs)
    end.
    + intros v y Hv Htv Hy. apply compare_target_sought; [split; auto | split; auto | exact Hy].
    + exact Hx.
    + destruct Hs as [(H1 & H2 & H3 & Hnone) | Hf]; [left | right; exact Hf].
      repeat split; auto. intros tr tc Hel Hv.
      destruct Hv as [[Hr Hw] | [-> Hc]]; [| lia].
      apply (Hnone tr tc Hel).
      destruct (Z.eq_dec tr u) as [-> | Hne]; [right | left; split; [lia | exact Hw]].
      split; [reflexivity|]. destruct Hw as [Hb Ht].
      split; [lia|]. apply Hend; [exact Hb | exact Ht].
  - left. repeat split; auto. intros tr tc _ [[Hr _] | [_ Hc]]; lia.
  - destruct Hs as [(H1 & H2 & H3 & Hnone) | Hf]; [left | right; exact Hf].
    repeat split; auto. intros tr tc [Hb Ht] Hw Hel. apply (Hnone tr tc Hel).
    left. split; [|exact Hw]. split; [lia|]. apply Hend; [exact Hb | exact Ht].
Qed.

End FoundProofs.

(** X18.  The window search picks a nearest association.  When the comparison
    of the scalars is a strict order, the search ends either without a match
    ([mintr = mintc = -1], [mindist = HUGE_VALF]) or with an association whose
    squared distance is [mindist]; and no association at a pixel the window
    loops reach is strictly closer than [mindist].  The distances are the
    ones the code compares: formed in [double], rounded once to [float]. *)
Theorem search_picks_nearest {F : Type} {ops : Scalar F} {fops : FloatOps F}
        (local1 local2 : buffer F) (label2 : buffer Z) (cs ls : Strides)
        (threshold winsize : F) (nrows ncols b r c mi winhalfsize rpix cpix : Z) :
  strict_order flt ->
  let p := point_at local1 cs b r c in
  let best := search_window local2 label2 cs ls winsize nrows ncols b mi
                (vx p) (vy p) (vz p) (fsquare threshold) winhalfsize rpix cpix in
  let mindist := fst (fst best) in
  let mintr := snd (fst best) in
  let mintc := snd best in
  ((mintr = -1 /\ mintc = -1 /\ mindist = HUGE_VALF) \/
   (associated local1 local2 label2 cs ls threshold nrows ncols b r c mi mintr mintc /\
    mindist = sqdist p (point_at local2 cs b mintr mintc))) /\
  forall tr tc,
    in_window (rpix - winhalfsize) nrows winsize tr ->
    in_window (cpix - winhalfsize) ncols winsize tc ->
    associated local1 local2 label2 cs ls threshold nrows ncols b r c mi tr tc ->
    flt (sqdist p (point_at local2 cs b tr tc)) mindist = false.
Proof.
  intros Horder. cbv zeta.
  destruct (search_window_searched Horder local1 local2 label2 cs ls threshold winsize
              nrows ncols b r c mi (rpix - winhalfsize) (cpix - winhalfsize)
              winhalfsize rpix cpix eq_refl eq_refl) as [Hshape Hmin].
  split; [exact Hshape|].
  intros tr tc Hr Hc Ha. apply Hmin; [exact Ha | exact Hr | exact Hc].
Qed.

(** X19.  The window search misses no association.  When whatever is below
    some scalar is below [HUGE_VALF], the search ends without a match only if
    no pixel the window loops reach is an association; otherwise its match is
    an association at a pixel of the window. *)
Theorem search_finds_association {F : Type} {ops : Scalar F} {fops : FloatOps F}
        (local1 local2 : buffer F) (label2 : buffer Z) (cs ls : Strides)
        (threshold winsize : F) (nrows ncols b r c mi winhalfsize rpix cpix : Z) :
  huge_on_top (F := F) ->
  let p := point_at local1 cs b r c in
  let best := search_window local2 label2 cs ls winsize nrows ncols b mi
                (vx p) (vy p) (vz p) (fsquare threshold) winhalfsize rpix cpix in
  let mintr := snd (fst best) in
  let mintc := snd best in
  (mintr = -1 /\ mintc = -1 /\
   forall tr tc,
     in_window (rpix - winhalfsize) nrows winsize tr ->
     in_window (cpix - winhalfsize) ncols winsize tc ->
     ~ associated local1 local2 label2 cs ls threshold nrows ncols b r c mi tr tc) \/
  (associated local1 local2 label2 cs ls threshold nrows ncols b r c mi mintr mintc /\
   in_window (rpix - winhalfsize) nrows winsize mintr /\
   in_window (cpix - winhalfsize) ncols winsize mintc).
Proof.
  intros Hhuge. cbv zeta.
  exact (search_window_sought Hhuge local1 local2 label2 cs ls threshold winsize
           nrows ncols b r c mi (rpix - winhalfsize) (cpix - winhalfsize)
           winhalfsize rpix cpix eq_refl eq_refl).
Qed.

Lemma search_picks_nearest_witness :
  let cs := contiguous 1 3 1 2 in
  let ls := contiguous 1 1 1 2 in
  let p := point_at pair_local1 cs 0 0 0 in
  let best := search_window pair_local2 (fun _ => 1) cs ls ftwo 1 2 0 1
                (vx p) (vy p) (vz p) (fsquare ftwo) 0 0 0 in
  best = (fzero, 0, 1) /\
  associated pair_local1 pair_local2 (fun _ => 1) cs ls ftwo 1 2 0 0 0 1 0 0 /\
  flt (sqdist p (point_at pair_local2 cs 0 0 0)) (fst (fst best)) = false.
Proof.
  cbv zeta.
  assert (Ha : associated pair_local1 pair_local2 (fun _ => 1) (contiguous 1 3 1 2)
                 (contiguous 1 1 1 2) ftwo 1 2 0 0 0 1 0 0).
  { unfold associated. repeat split; try lia. }
  split; [vm_compute; reflexivity|]. split; [exact Ha|].
  apply (proj2 (search_picks_nearest pair_local1 pair_local2 (fun _ => 1) (contiguous 1 3 1 2)
                  (contiguous 1 1 1 2) ftwo ftwo 1 2 0 0 0 1 0 0 0
                  binary32_strict_order) 0 0).
  - split; [lia|]. intros u Hu. assert (u = 0) as -> by lia. reflexivity.
  - split; [lia|]. intros u Hu. assert (u = 0) as -> by lia. reflexivity.
  - exact Ha.
Defined.

Lemma search_finds_association_witness :
  let cs := contiguous 1 3 1 2 in
  let ls := contiguous 1 1 1 2 in
  let p := point_at pair_local1 cs 0 0 0 in
  let best := search_window pair_local2 (fun _ => 1) cs ls ftwo 1 2 0 1
                (vx p) (vy p) (vz p) (fsquare ftwo) 0 0 0 in
  let mintr := snd (fst best) in
  let mintc := snd best in
  (mintr = -1 /\ mintc = -1 /\
   forall tr tc,
     in_window (0 - 0) 1 ftwo tr -> in_window (0 - 0) 2 ftwo tc ->
     ~ associated pair_local1 pair_local2 (fun _ => 1) cs ls ftwo 1 2 0 0 0 1 tr tc) \/
  (associated pair_local1 pair_local2 (fun _ => 1) cs ls ftwo 1 2 0 0 0 1 mintr mintc /\
   in_window (0 - 0) 1 ftwo mintr /\ in_window (0 - 0) 2 ftwo mintc).
Proof.
  exact (search_finds_association pair_local1 pair_local2 (fun _ => 1) (contiguous 1 3 1 2)
           (contiguous 1 1 1 2) ftwo ftwo 1 2 0 0 0 1 0 0 0 binary32_huge_on_top).
Defined.
